(** * Normalisation and alias resolution of design tokens

    A shallow embedding of the token parser core: [aliasToRef],
    [tokenFromNode], [tokenRawValuesFromNode], [groupFromNode],
    [resolveAliases] (with its inner functions [resolveInner] and
    [traverseAndResolve]), [graphAliases], [refToTokenID] and, from the
    JSON helpers, [getObjMember], [getObjMembers], [findNode],
    [mergeObjects] and [mergeDocuments].

    Conventions of the embedding.
    - A JavaScript string is a [string] (a sequence of code units).
    - A JavaScript value is a [JS] tree.  Composite values are immutable
      trees here: where the source hands out a reference to a token's
      array or object, the embedding hands out its contents at that moment.
    - An own-property table (a plain object used as a record or as a map) is
      an association list in insertion order; [Object_keys] enumerates it the
      way the language does (array-index keys first, ascending).
    - Properties inherited from the prototypes ([constructor], [toString],
      [length] of an array, ...) are not part of the embedding.
    - JSON numbers are integers.
    - In the regular expressions of the source [.] is read as "any code
      unit": strings with line terminators are not distinguished.
    - A call either returns, throws (a [TypeError] of the language, or
      whatever the logger raised) or, for the one recursion that is not
      structural, runs out of fuel.
    - The logger, the collation ([localeCompare]) and the glob matcher
      ([wcmatch]) are parameters: the resolver is stated for every logger,
      whether its [error] returns or throws.
    - The alias syntax ([isAlias], [parseAlias]) and [parseRef] belong to
      packages that are not among the sources and follow their
      description. *)

From Stdlib Require Import List String Ascii ZArith NArith Bool Lia Arith.
From Stdlib Require Import DecimalString DecimalNat Sorted.

#[local] Set Warnings "-register-all".
Import ListNotations.
Local Open Scope string_scope.
Local Open Scope list_scope.

(* ================================================================== *)
(** ** Strings *)

Module Str.

(** [s.startsWith(p)] *)
Definition startsWith (s p : string) : bool := String.prefix p s.

Fixpoint rev_string (s : string) : string :=
  match s with
  | EmptyString => EmptyString
  | String c r => rev_string r ++ String c EmptyString
  end.

(** [s.endsWith(p)] *)
Definition endsWith (s p : string) : bool :=
  String.prefix (rev_string p) (rev_string s).

(** [s.includes(p)] *)
Definition includes (s p : string) : bool :=
  match String.index 0 p s with Some _ => true | None => false end.

(** [s.replace(/c/g, by)] for a single code unit [c]. *)
Fixpoint replace_all (c : ascii) (by_ : string) (s : string) : string :=
  match s with
  | EmptyString => EmptyString
  | String d r =>
      if Ascii.eqb c d then by_ ++ replace_all c by_ r
      else String d (replace_all c by_ r)
  end.

(** [s.split(c)] for a single code unit [c]: never empty. *)
Fixpoint split (c : ascii) (s : string) : list string :=
  match s with
  | EmptyString => [EmptyString]
  | String d r =>
      if Ascii.eqb c d then EmptyString :: split c r
      else match split c r with
           | [] => [String d EmptyString]
           | x :: xs => String d x :: xs
           end
  end.

Definition is_empty (s : string) : bool :=
  match s with EmptyString => true | _ => false end.

(** The part of [s] before the first occurrence of [p], when there is one. *)
Definition before_first (p s : string) : option string :=
  match String.index 0 p s with
  | Some i => Some (String.substring 0 i s)
  | None => None
  end.

(** Position just after the last occurrence of [p] in [s]. *)
Fixpoint after_last_from (fuel : nat) (p s : string) (from : nat)
  : option nat :=
  match fuel with
  | O => None
  | S fuel' =>
      match String.index from p s with
      | None => None
      | Some i =>
          match after_last_from fuel' p s (S i) with
          | Some j => Some j
          | None => Some (i + String.length p)
          end
      end
  end.

Definition after_last (p s : string) : option string :=
  match after_last_from (S (String.length s)) p s 0 with
  | Some j => Some (String.substring j (String.length s - j) s)
  | None => None
  end.

(** Decimal spelling of an array index. *)
Definition of_nat (n : nat) : string :=
  NilZero.string_of_uint (Nat.to_uint n).

Definition is_digit (c : ascii) : bool :=
  let n := nat_of_ascii c in (48 <=? n)%nat && (n <=? 57)%nat.

Fixpoint all_digits (s : string) : bool :=
  match s with
  | EmptyString => true
  | String c r => is_digit c && all_digits r
  end.

Fixpoint digits_value (acc : N) (s : string) : N :=
  match s with
  | EmptyString => acc
  | String c r => digits_value (acc * 10 + (N_of_ascii c - 48))%N r
  end.

(** A non-negative decimal integer spelled canonically ([String(Number(s))
    === s] on such spellings): no sign, no leading zero, at most fifteen
    digits.  Other canonical numeric spellings (negative, fractional,
    exponent forms) are not recognised by the embedding. *)
Definition canonical_nat (s : string) : option N :=
  match s with
  | EmptyString => None
  | String c r =>
      if all_digits s && (String.length s <=? 15)%nat
         && (negb (Ascii.eqb c "0") || is_empty r)
      then Some (digits_value 0 s) else None
  end.

(** The double quote, for messages. *)
Definition dquote : string := String (ascii_of_nat 34) EmptyString.

End Str.

(** [path.join(sep)] *)
Definition join (sep : string) (l : list string) : string := String.concat sep l.

(** [l.includes(x)] on an array of strings. *)
Definition includes (l : list string) (x : string) : bool :=
  existsb (String.eqb x) l.

(* ================================================================== *)
(** ** Own-property tables *)

Section Table.
Context {A : Type}.

(** [o[k]], [None] for [undefined]. *)
Fixpoint lookup (k : string) (o : list (string * A)) : option A :=
  match o with
  | [] => None
  | (k', v) :: r => if String.eqb k k' then Some v else lookup k r
  end.

(** [o[k] = v]: an existing key keeps its place, a new one goes last. *)
Fixpoint assign (k : string) (v : A) (o : list (string * A))
  : list (string * A) :=
  match o with
  | [] => [(k, v)]
  | (k', v') :: r =>
      if String.eqb k k' then (k, v) :: r else (k', v') :: assign k v r
  end.

(** [k in o] *)
Definition has (k : string) (o : list (string * A)) : bool :=
  match lookup k o with Some _ => true | None => false end.

Fixpoint insert_index (k : string) (n : N) (l : list (string * N))
  : list (string * N) :=
  match l with
  | [] => [(k, n)]
  | (k', n') :: r =>
      if (n <? n')%N then (k, n) :: l else (k', n') :: insert_index k n r
  end.

(** [Object.keys(o)]: keys that are array indices come first, in
    ascending numeric order, then the others in insertion order. *)
Definition Object_keys (o : list (string * A)) : list string :=
  let ks := map fst o in
  let idx :=
    fold_right
      (fun k acc =>
         match Str.canonical_nat k with
         | Some n => insert_index k n acc
         | None => acc
         end) [] ks in
  map fst idx
    ++ filter (fun k => match Str.canonical_nat k with
                        | Some _ => false | None => true end) ks.

(** [Object.entries(o)] *)
Definition Object_entries (o : list (string * A)) : list (string * A) :=
  fold_right
    (fun k acc => match lookup k o with
                  | Some v => (k, v) :: acc
                  | None => acc
                  end) [] (Object_keys o).

End Table.

(* ================================================================== *)
(** ** Values *)

Inductive JS : Type :=
| JUndefined
| JNull
| JBool (b : bool)
| JNum (n : Z)
| JStr (s : string)
| JArr (elements : list JS)
| JObj (props : list (string * JS)).

(** [!!v] *)
Definition truthy (v : JS) : bool :=
  match v with
  | JUndefined | JNull => false
  | JBool b => b
  | JNum n => negb (n =? 0)%Z
  | JStr s => negb (Str.is_empty s)
  | JArr _ | JObj _ => true
  end.

Definition nullish (v : JS) : bool :=
  match v with JUndefined | JNull => true | _ => false end.

(** [a ?? b] *)
Definition nullish_or (a b : JS) : JS := if nullish a then b else a.

(** [a || b] *)
Definition truthy_or (a b : JS) : JS := if truthy a then a else b.

Notation "a ?? b" := (nullish_or a b) (at level 55, right associativity).
Notation "a '||`' b" := (truthy_or a b) (at level 55, right associativity).

(** [o.k] on a value that is known to be an object. *)
Definition prop (k : string) (o : list (string * JS)) : JS :=
  match lookup k o with Some v => v | None => JUndefined end.

(** [typeof v === 'object'] *)
Definition typeof_object (v : JS) : bool :=
  match v with JNull | JArr _ | JObj _ => true | _ => false end.

(** [Array.isArray(v)] *)
Definition isArray (v : JS) : bool :=
  match v with JArr _ => true | _ => false end.

(* ================================================================== *)
(** ** The document tree *)

(** The name of a member: a string, or (JSON5) an identifier. *)
Inductive Name : Type :=
| NameString (value : string)
| NameIdentifier (name : string).

Inductive Node : Type :=
| NObject (members : list (Name * Node))
| NArray (elements : list Node)
| NString (value : string)
| NNumber (value : Z)
| NBoolean (value : bool)
| NNull.

Definition name_text (n : Name) : string :=
  match n with NameString s => s | NameIdentifier s => s end.

(** The parser library's [evaluate]: the value a tree denotes. *)
Fixpoint evaluate (n : Node) : JS :=
  match n with
  | NObject ms =>
      JObj ((fix members (ms : list (Name * Node)) (acc : list (string * JS)) :=
               match ms with
               | [] => acc
               | (k, v) :: r => members r (assign (name_text k) (evaluate v) acc)
               end) ms [])
  | NArray es =>
      JArr ((fix elements (es : list Node) :=
               match es with
               | [] => []
               | e :: r => evaluate e :: elements r
               end) es)
  | NString s => JStr s
  | NNumber z => JNum z
  | NBoolean b => JBool b
  | NNull => JNull
  end.

(** Get single member by name. *)
Definition getObjMember (node : option Node) (key : string) : option Node :=
  match node with
  | Some (NObject ms) =>
      match find (fun m => match fst m with
                           | NameString v => String.eqb v key
                           | NameIdentifier _ => false
                           end) ms with
      | Some m => Some (snd m)
      | None => None
      end
  | _ => None
  end.

(** Reading a property of an arbitrary value: [None] is the [TypeError] of
    reading a property of [undefined] or [null]. *)
Definition js_member (v : JS) (k : string) : option JS :=
  match v with
  | JUndefined | JNull => None
  | JObj o => Some (prop k o)
  | JArr l =>
      Some match Str.canonical_nat k with
           | Some n => nth (N.to_nat n) l JUndefined
           | None => JUndefined
           end
  | JStr s =>
      Some match Str.canonical_nat k with
           | Some n =>
               match String.get (N.to_nat n) s with
               | Some c => JStr (String c EmptyString)
               | None => JUndefined
               end
           | None => JUndefined
           end
  | JBool _ | JNum _ => Some JUndefined
  end.

(** [Object.keys(v)] on an arbitrary value: [None] is the [TypeError] of
    [Object.keys(undefined)]. *)
Definition js_keys (v : JS) : option (list string) :=
  match v with
  | JUndefined | JNull => None
  | JObj o => Some (Object_keys o)
  | JArr l => Some (map Str.of_nat (seq 0 (List.length l)))
  | JStr s => Some (map Str.of_nat (seq 0 (String.length s)))
  | JBool _ | JNum _ => Some []
  end.

(* ================================================================== *)
(** ** Outcomes *)

(** What the logger is handed.  The fields [group] and [label] are the
    constants ['parser'] and ['init'] at every call; [src] is looked up in
    the [sources] table and only passed through. *)
Record LogEntry : Type := mkEntry {
  message : string;
  entry_node : option Node
}.

Inductive Exn : Type :=
| TypeError (at_ : string)      (** thrown by the language, at the named expression *)
| Raised (e : LogEntry).        (** thrown by [logger.error] *)

Inductive Outcome (S A : Type) : Type :=
| Ret (a : A) (s : S)
| Throw (e : Exn) (s : S)
| OutOfFuel.

Arguments Ret {S A} a s.
Arguments Throw {S A} e s.
Arguments OutOfFuel {S A}.

Definition M (S A : Type) : Type := S -> Outcome S A.

Definition ret {S A} (a : A) : M S A := fun s => Ret a s.

Definition bind {S A B} (c : M S A) (k : A -> M S B) : M S B :=
  fun s =>
    match c s with
    | Ret a s' => k a s'
    | Throw e s' => Throw e s'
    | OutOfFuel => OutOfFuel
    end.

Definition throw {S A} (e : Exn) : M S A := fun s => Throw e s.
Definition get {S} : M S S := fun s => Ret s s.
Definition modify {S} (f : S -> S) : M S unit := fun s => Ret tt (f s).

(** [v!] followed by a use that needs an object. *)
Definition must {S A} (at_ : string) (o : option A) : M S A :=
  match o with Some a => ret a | None => throw (TypeError at_) end.

Declare Scope js_scope.
Delimit Scope js_scope with js.
Notation "x <- c ;; k" := (bind c (fun x => k))
  (at level 61, c at next level, right associativity) : js_scope.
Notation "c ;;; k" := (bind c (fun _ => k))
  (at level 61, right associativity) : js_scope.

(** [for (const x of l) body(x)] *)
Fixpoint for_of {S A} (l : list A) (body : A -> M S unit) : M S unit :=
  match l with
  | [] => ret tt
  | x :: r => bind (body x) (fun _ => for_of r body)
  end.

(** [a.sort(cmp)], with [lt x y] for [cmp(x, y) < 0]: a stable sort. *)
Fixpoint insert_by (lt : string -> string -> bool) (x : string)
  (l : list string) : list string :=
  match l with
  | [] => [x]
  | y :: r => if lt x y then x :: l else y :: insert_by lt x r
  end.

Definition sort_by (lt : string -> string -> bool) (l : list string)
  : list string :=
  fold_left (fun acc x => insert_by lt x acc) l [].

(** In ascending order of code units, as [a.sort()] leaves an array of
    strings. *)
Definition ascending : list string -> Prop :=
  StronglySorted (fun a b => String.leb a b = true).

(* ================================================================== *)
(** ** The normalised records *)

(** [partialAliasOf]: an object or an array built key by key (an array is
    kept as its table of own properties, holes being absent keys), with
    token IDs at the leaves. *)
Inductive Partial : Type :=
| PLeaf (id : option string)
| PNode (is_array : bool) (props : list (string * Partial)).

Record Source : Type := mkSource {
  src_filename : option string;
  src_node : option Node
}.

Record Group : Type := mkGroup {
  g_id : string;
  g_deprecated : JS;
  g_description : JS;
  g_extensions : JS;
  g_type : JS;
  g_tokens : list string
}.

Record ModeState : Type := mkMode {
  m_value : JS;
  m_aliasOf : option string;
  m_aliasChain : option (list (option string));
  m_aliasedBy : option (list (option string));
  m_partialAliasOf : option Partial;
  m_originalValue : JS;
  m_dependencies : option (list string);
  m_source : Source
}.

Record Token : Type := mkToken {
  t_id : string;
  t_type : JS;
  t_description : JS;
  t_deprecated : JS;
  t_value : JS;
  t_extensions : JS;
  t_aliasChain : option (list (option string));
  t_aliasedBy : option (list (option string));
  t_aliasOf : option string;
  t_partialAliasOf : option Partial;
  t_dependencies : option (list string);
  t_group : option string;       (** the key of the group record it points to *)
  t_originalValue : JS;
  t_source : Source;
  t_jsonID : string;
  t_mode : list (string * ModeState)
}.

Definition Groups : Type := list (string * Group).
Definition Tokens : Type := list (string * Token).

Record RefMapEntry : Type := mkRef {
  r_filename : option string;
  refChain : list string
}.

Definition RefMap : Type := list (string * RefMapEntry).
Definition ModeRefMap : Type := list (string * option RefMap).

Record Ignore : Type := mkIgnore {
  ig_tokens : option (list string);
  ig_deprecated : bool
}.

Definition set_tokens (g : Group) (l : list string) : Group :=
  mkGroup (g_id g) (g_deprecated g) (g_description g) (g_extensions g)
    (g_type g) l.

Definition set_mode (t : Token) (m : list (string * ModeState)) : Token :=
  mkToken (t_id t) (t_type t) (t_description t) (t_deprecated t) (t_value t)
    (t_extensions t) (t_aliasChain t) (t_aliasedBy t) (t_aliasOf t)
    (t_partialAliasOf t) (t_dependencies t) (t_group t) (t_originalValue t)
    (t_source t) (t_jsonID t) m.

Definition set_value (t : Token) (v : JS) : Token :=
  mkToken (t_id t) (t_type t) (t_description t) (t_deprecated t) v
    (t_extensions t) (t_aliasChain t) (t_aliasedBy t) (t_aliasOf t)
    (t_partialAliasOf t) (t_dependencies t) (t_group t) (t_originalValue t)
    (t_source t) (t_jsonID t) (t_mode t).

Definition set_m_value (m : ModeState) (v : JS) : ModeState :=
  mkMode v (m_aliasOf m) (m_aliasChain m) (m_aliasedBy m)
    (m_partialAliasOf m) (m_originalValue m) (m_dependencies m) (m_source m).

(* ================================================================== *)
(** ** Aliases and references *)

(** Modelled from the spec: the alias syntax of the token-tools package,
    which is not among the sources.  A token reference is the literal
    [{dotted.path.to.token}], matched end to end; [alias_body] is the text
    between the braces. *)
Definition alias_body (s : string) : option string :=
  match s with
  | String "{" r =>
      let n := String.length r in
      let body := String.substring 0 (n - 1) r in
      if (String.eqb (String.substring (n - 1) 1 r) "}"
          && negb (Str.is_empty body)
          && negb (Str.includes body "{") && negb (Str.includes body "}"))%bool
      then Some body else None
  | _ => None
  end.

(** Modelled from the spec: [isAlias] of the token-tools package. *)
Definition isAlias (v : JS) : bool :=
  match v with
  | JStr s => match alias_body s with Some _ => true | None => false end
  | _ => false
  end.

(** Modelled from the spec: [parseAlias] of the token-tools package; what
    is not an alias comes back as it is. *)
Definition parseAlias (s : string) : string :=
  match alias_body s with Some id => id | None => s end.

(** Convert valid DTCG alias to $ref *)
Definition aliasToRef (alias : string) : option string :=
  let id := parseAlias alias in
  if String.eqb id alias then None
  else Some ("#/"
             ++ Str.replace_all "." "/"
                  (Str.replace_all "/" "~1" (Str.replace_all "~" "~0" id))
             ++ "/$value")%string.

(** Modelled from the spec: the [subpath] of [parseRef] of the
    json-schema-tools package: the pointer without its leading [#/], split
    on [/]. *)
Definition parseRef_subpath (ref : string) : option (list string) :=
  if Str.startsWith ref "#/"
  then Some (Str.split "/" (String.substring 2 (String.length ref - 2) ref))
  else None.

(** [s.replace(/\.\$value.*$/, '')] *)
Definition drop_dot_value (s : string) : string :=
  match Str.before_first ".$value" s with Some p => p | None => s end.

(** Convert Reference Object to token ID. *)
Definition refToTokenID (ref : string) : option string :=
  match parseRef_subpath ref with
  | Some ((_ :: _) as subpath) =>
      let r := drop_dot_value (join "." subpath) in
      if Str.is_empty r then None else Some r
  | _ => None
  end.

(* ================================================================== *)
(** ** Tokens and groups from the document tree *)

Definition is_some {A} (o : option A) : bool :=
  match o with Some _ => true | None => false end.

(** [!l.length] *)
Definition is_empty_list {A} (l : list A) : bool :=
  match l with [] => true | _ => false end.

(** [evaluate(node) as any], for a node that is an object. *)
Definition evaluate_object (node : Node) : list (string * JS) :=
  match evaluate node with JObj o => o | _ => [] end.

Definition jsonID_of (path : list string) : string :=
  ("#/" ++ join "/" path)%string.

Definition emptyMode (v : JS) (src : Source) : ModeState :=
  mkMode v None None None None JUndefined None src.

Section Normalise.

(** [a.localeCompare(b, 'en-us', { numeric: true })], of the platform. *)
Variable localeCompare : string -> string -> Z.

(** [wcmatch(patterns)(id)], of the wildcard-match package. *)
Variable wcmatch : list string -> string -> bool.

Definition numeric_lt (a b : string) : bool := (localeCompare a b <? 0)%Z.

(** The test that opens [tokenFromNode] and [tokenRawValuesFromNode]. *)
Definition isToken (node : Node) (path : list string) : bool :=
  match node with NObject _ => true | _ => false end
  && is_some (getObjMember (Some node) "$value")
  && negb (includes path "$extensions").

(** The filter at the end of the assembly. *)
Definition ignored (ignore : option Ignore) (deprecated : JS) (id : string)
  : bool :=
  match ignore with
  | None => false
  | Some ig =>
      (ig_deprecated ig && truthy deprecated)
      || match ig_tokens ig with
         | Some patterns => wcmatch patterns id
         | None => false
         end
  end.

(** The index after [tokenFromNode] has put the id of the token at [path]
    in the list of its group [g]. *)
Definition registered (path : list string) (g : Group) (groups : Groups)
  : Groups :=
  if includes (g_tokens g) (join "." path) then groups
  else assign (jsonID_of (removelast path))
         (set_tokens g (sort_by numeric_lt (g_tokens g ++ [join "." path])))
         groups.

(** The [$deprecated] of a token of the group [g]: its own unless that is
    nullish. *)
Definition inherited_deprecated (node : Node) (g : Group) : JS :=
  prop "$deprecated" (evaluate_object node) ?? g_deprecated g ?? JUndefined.

(** Generate a TokenNormalized from a Momoa node.  The state is the
    [groups] index, which the function updates in place. *)
Definition tokenFromNode (node : Node) (path : list string)
  (filename : option string) (ignore : option Ignore)
  : M Groups (option Token) :=
  (if negb (isToken node path) then ret None else
   let jsonID := jsonID_of path in
   let id := join "." path in
   let originalToken := evaluate_object node in
   let groupID := jsonID_of (removelast path) in
   groups <- get ;;
   let group := lookup groupID groups in
   match group with
   | Some g =>
       if includes (g_tokens g) id then ret tt
       else modify (assign groupID
                      (set_tokens g (sort_by numeric_lt (g_tokens g ++ [id]))))
   | None => ret tt
   end ;;;
   let nodeSource := mkSource filename (Some node) in
   type <- (let own := prop "$type" originalToken in
            if truthy own then ret own
            else g <- must "group.$type" group ;; ret (g_type g)) ;;
   let description := truthy_or (prop "$description" originalToken) JUndefined in
   deprecated <- (let own := prop "$deprecated" originalToken in
                  if nullish own
                  then g <- must "group.$deprecated" group ;;
                       ret (g_deprecated g ?? JUndefined)
                  else ret own) ;;
   let value := prop "$value" originalToken in
   let extensions := truthy_or (prop "$extensions" originalToken) JUndefined in
   let token :=
     mkToken id type description deprecated value extensions
       None None None None None
       (match group with Some _ => Some groupID | None => None end)
       JUndefined nodeSource jsonID
       [(".", emptyMode value
                (mkSource filename
                   (match getObjMember (Some node) "$value" with
                    | Some n => Some n
                    | None => Some node
                    end)))] in
   if ignored ignore (t_deprecated token) (t_id token) then ret None else
   match getObjMember (Some node) "$extensions" with
   | None => ret (Some token)
   | Some ext =>
       let modeNode := getObjMember (Some ext) "mode" in
       modes <- must "token.$extensions.mode"
                  (js_member (t_extensions token) "mode") ;;
       keys <- must "Object.keys(token.$extensions.mode)" (js_keys modes) ;;
       ret (Some
              (fold_left
                 (fun (tok : Token) (mode : string) =>
                    let modeValue :=
                      match js_member modes mode with
                      | Some v => v
                      | None => JUndefined
                      end in
                    set_mode tok
                      (assign mode
                         (emptyMode modeValue
                            (mkSource filename (getObjMember modeNode mode)))
                         (t_mode tok)))
                 keys token))
   end)%js.

End Normalise.

Record RawMode : Type := mkRawMode {
  raw_m_originalValue : JS;
  raw_m_source : Source
}.

Record TokenRawValues : Type := mkRaw {
  raw_jsonID : string;
  raw_originalValue : JS;
  raw_source : Source;
  raw_mode : list (string * RawMode)
}.

(** [(member.name as StringNode).value] *)
Definition name_value (n : Name) : string :=
  match n with NameString v => v | NameIdentifier _ => "undefined" end.

(** Generate originalValue and source from node *)
Definition tokenRawValuesFromNode (node : Node) (filename : string)
  (path : list string) : M unit (option TokenRawValues) :=
  (if negb (isToken node path) then ret None else
   let jsonID := jsonID_of path in
   let originalValue := evaluate node in
   let source := mkSource (Some filename) (Some node) in
   let dot :=
     mkRawMode (prop "$value" (evaluate_object node))
       (mkSource (Some filename) (getObjMember (Some node) "$value")) in
   match getObjMember (Some node) "$extensions" with
   | None => ret (Some (mkRaw jsonID originalValue source [(".", dot)]))
   | Some ext =>
       match getObjMember (Some ext) "mode" with
       | None => ret (Some (mkRaw jsonID originalValue source [(".", dot)]))
       | Some (NObject members) =>
           ret (Some
                  (mkRaw jsonID originalValue source
                     (fold_left
                        (fun acc m =>
                           assign (name_value (fst m))
                             (mkRawMode (evaluate (snd m))
                                (mkSource (Some filename) (Some (snd m))))
                             acc)
                        members [(".", dot)])))
       | Some _ => throw (TypeError "modes.members")
       end
   end)%js.

(** Arbitrary keys that should be associated with a token group *)
Definition GROUP_PROPERTIES : list string :=
  ["$deprecated"; "$description"; "$extensions"; "$type"].

Definition emptyGroup (id : string) : Group :=
  mkGroup id JUndefined JUndefined JUndefined JUndefined [].

(** [group[name] = v] for a name of [GROUP_PROPERTIES]. *)
Definition set_group_prop (name : string) (v : JS) (g : Group) : Group :=
  if String.eqb name "$deprecated" then
    mkGroup (g_id g) v (g_description g) (g_extensions g) (g_type g) (g_tokens g)
  else if String.eqb name "$description" then
    mkGroup (g_id g) (g_deprecated g) v (g_extensions g) (g_type g) (g_tokens g)
  else if String.eqb name "$extensions" then
    mkGroup (g_id g) (g_deprecated g) (g_description g) v (g_type g) (g_tokens g)
  else if String.eqb name "$type" then
    mkGroup (g_id g) (g_deprecated g) (g_description g) (g_extensions g) v (g_tokens g)
  else g.

(** One turn of the loop that copies the parent groups' properties. *)
Definition cascade_from (jsonID groupID : string) (groups : Groups) : Groups :=
  let isParentGroup :=
    Str.startsWith jsonID groupID && negb (String.eqb groupID jsonID) in
  if isParentGroup then
    match lookup jsonID groups, lookup groupID groups with
    | Some g, Some p =>
        assign jsonID
          (mkGroup (g_id g)
             (g_deprecated p ?? g_deprecated g)
             (g_description p ?? g_description g)
             (g_extensions g)
             (g_type p ?? g_type g)
             (g_tokens g))
          groups
    | _, _ => groups
    end
  else groups.

(** One turn of the loop that overrides the cascading values with local. *)
Definition override_from (jsonID : string) (m : Name * Node) (groups : Groups)
  : Groups :=
  match fst m with
  | NameString name =>
      if includes GROUP_PROPERTIES name then
        match lookup jsonID groups with
        | Some g => assign jsonID (set_group_prop name (evaluate (snd m)) g) groups
        | None => groups
        end
      else groups
  | NameIdentifier _ => groups
  end.

(** Generate a group from a node.  This method mutates the groups index as
    it goes because of group inheritance. *)
Definition groupFromNode (node : Node) (path : list string)
  : M Groups (option Group) :=
  (let id := join "." path in
   let jsonID := jsonID_of path in
   modify (fun groups =>
             if has jsonID groups then groups
             else assign jsonID (emptyGroup id) groups) ;;;
   groups <- get ;;
   let groupIDs := sort_by String.ltb (Object_keys groups) in
   modify (fun groups =>
             fold_left (fun gs groupID => cascade_from jsonID groupID gs)
               groupIDs groups) ;;;
   match node with
   | NObject members =>
       modify (fun groups =>
                 fold_left (fun gs m => override_from jsonID m gs)
                   members groups) ;;;
       groups <- get ;;
       ret (lookup jsonID groups)
   | _ => throw (TypeError "node.members")
   end)%js.

(** What one turn of the cascade does to one property, [proj], of the
    group at [jsonID]: the value [cur] becomes that of the group at
    [groupID] when that group is a parent group and its value is not
    nullish. *)
Definition cascade_value (proj : Group -> JS) (jsonID : string)
  (groups : Groups) (cur : JS) (groupID : string) : JS :=
  if Str.startsWith jsonID groupID && negb (String.eqb groupID jsonID)
  then match lookup groupID groups with
       | Some p => proj p ?? cur
       | None => cur
       end
  else cur.

(** What a group node declares for the property [name]: the value of the
    last of its members of that name, if it has one. *)
Fixpoint declared (name : string) (members : list (Name * Node)) : option JS :=
  match members with
  | [] => None
  | m :: r =>
      match declared name r with
      | Some v => Some v
      | None =>
          match fst m with
          | NameString n =>
              if String.eqb n name then Some (evaluate (snd m)) else None
          | NameIdentifier _ => None
          end
      end
  end.

(** A cascading property of a group, [mine], against what its node
    declares for it and the parent's value: the declared value when there
    is one; otherwise the parent's, when that is not nullish. *)
Definition inherits (local : option JS) (parent mine : JS) : Prop :=
  match local with
  | Some v => mine = v
  | None => nullish parent = false -> mine = parent
  end.

(* ================================================================== *)
(** ** The logger and the state of the two passes *)

(** [logger.error(entry)] writes the entry down and then either returns
    or throws: which of the two is the logger's business, not the
    resolver's. *)
Record Logger : Type := mkLogger {
  raises : LogEntry -> bool
}.

(** A logger that returns from every [error], and one that never does. *)
Definition collecting : Logger := mkLogger (fun _ => false).
Definition throwing : Logger := mkLogger (fun _ => true).

Record World : Type := mkWorld {
  tokens : Tokens;
  modeRefMap : ModeRefMap;
  log : list LogEntry
}.

Definition set_tokens_of (f : Tokens -> Tokens) (w : World) : World :=
  mkWorld (f (tokens w)) (modeRefMap w) (log w).

Definition set_refs_of (f : ModeRefMap -> ModeRefMap) (w : World) : World :=
  mkWorld (tokens w) (f (modeRefMap w)) (log w).

Definition logger_error (logger : Logger) (e : LogEntry) : M World unit :=
  fun w =>
    let w' := mkWorld (tokens w) (modeRefMap w) (log w ++ [e]) in
    if raises logger e then Throw (Raised e) w' else Ret tt w'.

(** Whether some entry of the log carries the message. *)
Definition logged (msg : string) (w : World) : bool :=
  existsb (fun e => String.eqb (message e) msg) (log w).

(* ================================================================== *)
(** ** Resolving aliases *)

Definition EXPECTED_NESTED_ALIAS : list (string * list (string * list string)) :=
  [ ("border",
      [ ("color", ["color"]); ("stroke", ["strokeStyle"]);
        ("width", ["dimension"]) ]);
    ("gradient",
      [ ("color", ["color"]); ("position", ["number"]) ]);
    ("shadow",
      [ ("color", ["color"]); ("offsetX", ["dimension"]);
        ("offsetY", ["dimension"]); ("blur", ["dimension"]);
        ("spread", ["dimension"]); ("inset", ["boolean"]) ]);
    ("strokeStyle",
      [ ("dashArray", ["dimension"]) ]);
    ("transition",
      [ ("duration", ["duration"]); ("delay", ["duration"]);
        ("timingFunction", ["cubicBezier"]) ]);
    ("typography",
      [ ("fontFamily", ["fontFamily"]); ("fontWeight", ["fontWeight"]);
        ("fontSize", ["dimension"]); ("lineHeight", ["dimension"; "number"]);
        ("letterSpacing", ["dimension"]) ]) ].

(** [String(v)], as a template literal and [join] apply it. *)
Fixpoint to_string (v : JS) : string :=
  match v with
  | JUndefined => "undefined"
  | JNull => "null"
  | JBool true => "true"
  | JBool false => "false"
  | JNum n => NilZero.string_of_int (Z.to_int n)
  | JStr s => s
  | JArr l =>
      join ","
        ((fix each (l : list JS) : list string :=
            match l with
            | [] => []
            | x :: r => (if nullish x then "" else to_string x) :: each r
            end) l)
  | JObj _ => "[object Object]"
  end.

(** [l.join(sep)] on an array of values. *)
Definition join_values (sep : string) (l : list JS) : string :=
  join sep (map (fun x => if nullish x then "" else to_string x) l).

(** [l.includes(v)].  The source compares composite values by reference;
    the embedding never takes two of them for the same. *)
Definition same_value (a b : JS) : bool :=
  match a, b with
  | JUndefined, JUndefined | JNull, JNull => true
  | JBool x, JBool y => Bool.eqb x y
  | JNum x, JNum y => (x =? y)%Z
  | JStr x, JStr y => String.eqb x y
  | _, _ => false
  end.

Definition includes_value (l : list JS) (v : JS) : bool :=
  existsb (same_value v) l.

(** [EXPECTED_NESTED_ALIAS[t]], for the head [t] of the expected types. *)
Definition nested_slots (t : JS) : option (list (string * list string)) :=
  match t with
  | JStr s => lookup s EXPECTED_NESTED_ALIAS
  | _ => None
  end.

(** [ref.replace(/\/\$value$/, '')] *)
Definition drop_value_suffix (ref : string) : string :=
  if Str.endsWith ref "/$value"
  then String.substring 0 (String.length ref - 7) ref
  else ref.

Section Resolve.

Variable logger : Logger.

(** What is fixed while one mode of one token is resolved. *)
Variable token : Token.
Variable mode : string.

(** The node of [aliasEntry]. *)
Definition aliasEntry_node : option Node :=
  getObjMember (src_node (t_source token)) "$value".

Definition cannot_alias (actual : JS) (expected : list JS) : string :=
  ("Cannot alias to $type " ++ Str.dquote ++ to_string actual ++ Str.dquote
   ++ " from $type " ++ Str.dquote ++ join_values " / " expected
   ++ Str.dquote ++ ".")%string.

(** [resolveInner(alias, refChain)]: the array [refChain] is filled in
    place by the source, so it is returned along with the result. *)
Fixpoint resolveInner (fuel : nat) (alias : string) (refChain : list string)
  : M World (string * list string) :=
  match fuel with
  | O => fun _ => OutOfFuel
  | S fuel' =>
      (let nextID := aliasToRef alias in
       (if match nextID with
           | Some ref => includes refChain ref
           | None => false
           end
        then logger_error logger
               (mkEntry "Circular alias detected." aliasEntry_node)
        else ret tt) ;;;
       w <- get ;;
       let nextToken :=
         match nextID with
         | Some ref => lookup (drop_value_suffix ref) (tokens w)
         | None => None
         end in
       (if is_some nextToken then ret tt
        else logger_error logger
               (mkEntry ("Could not resolve alias " ++ alias ++ ".")%string
                  aliasEntry_node)) ;;;
       ref <- must "nextID.$ref" nextID ;;
       let refChain := refChain ++ [ref] in
       next <- must "nextToken.mode" nextToken ;;
       state <- must "nextToken.mode[mode].originalValue"
                  (lookup mode (t_mode next)) ;;
       match m_originalValue state with
       | JStr s =>
           if isAlias (JStr s) then resolveInner fuel' s refChain
           else ret (t_jsonID next, refChain)
       | _ => ret (t_jsonID next, refChain)
       end)%js
  end.

Definition cubicBezier_elements (expectedTypes : option (list JS))
  : option (list JS) :=
  match expectedTypes with
  | Some l =>
      if includes_value l (JStr "cubicBezier") then Some [JStr "number"]
      else expectedTypes
  | None => None
  end.

(** [!expectedTypes?.length || !EXPECTED_NESTED_ALIAS[expectedTypes[0]]] *)
Definition slots_of (expectedTypes : option (list JS))
  : option (list (string * list string)) :=
  match expectedTypes with
  | Some (t :: _) => nested_slots t
  | _ => None
  end.

(** The part of [traverseAndResolve] that runs on a string. *)
Definition resolveString (fuel : nat) (value : string) (node : option Node)
  (expectedTypes : option (list JS)) (path : list string) : M World JS :=
  (if negb (isAlias (JStr value)) then
     (if negb (match expectedTypes with
               | Some l => includes_value l (JStr "string")
               | None => false
               end)
         && (Str.includes value "{" || Str.includes value "}")
      then logger_error logger (mkEntry "Invalid alias syntax." node)
      else ret tt) ;;;
     ret (JStr value)
   else
     r <- resolveInner fuel value [] ;;
     let resolvedID := fst r in
     let refChain := snd r in
     match expectedTypes with
     | Some ((_ :: _) as expected) =>
         w <- get ;;
         target <- must "tokens[resolvedID].$type"
                     (lookup resolvedID (tokens w)) ;;
         if includes_value expected (t_type target) then ret tt
         else logger_error logger
                (mkEntry (cannot_alias (t_type target) expected) node)
     | _ => ret tt
     end ;;;
     w <- get ;;
     refMap <- must "modeRefMap[mode][path]"
                 (match lookup mode (modeRefMap w) with
                  | Some (Some refMap) => Some refMap
                  | _ => None
                  end) ;;
     modify (set_refs_of
               (assign mode
                  (Some (assign (join "/" path)
                           (mkRef (src_filename (t_source token)) refChain)
                           refMap)))) ;;;
     w <- get ;;
     target <- must "tokens[resolvedID].mode" (lookup resolvedID (tokens w)) ;;
     ret (truthy_or
            (match lookup mode (t_mode target) with
             | Some state => m_value state
             | None => JUndefined
             end)
            (t_value target)))%js.

(** [for (const key of keys) value[key] = call(key)], where [calls]
    holds, for each key of [value], the call the loop makes for it. *)
Fixpoint run_keys (keys : list string) (calls : list (string * M World JS))
  (value : list (string * JS)) : M World (list (string * JS)) :=
  match keys with
  | [] => ret value
  | key :: r =>
      match lookup key calls with
      | Some call =>
          (x' <- call ;; run_keys r calls (assign key x' value))%js
      | None => run_keys r calls value
      end
  end.

(** [traverseAndResolve(value, { node, expectedTypes, path })].  An array
    or object is rebuilt with the values its positions were given. *)
Fixpoint traverseAndResolve (fuel : nat) (value : JS) (node : option Node)
  (expectedTypes : option (list JS)) (path : list string) {struct value}
  : M World JS :=
  match value with
  | JStr s => resolveString fuel s node expectedTypes path
  | JArr l =>
      (l' <- (fix each (l : list JS) (i : nat) : M World (list JS) :=
                match l with
                | [] => ret []
                | x :: r =>
                    x' <- (if negb (truthy x) then ret x
                           else
                             element <-
                               must "node.elements[i].value"
                                 (match node with
                                  | Some (NArray es) => nth_error es i
                                  | _ => None
                                  end) ;;
                             traverseAndResolve fuel x (Some element)
                               (cubicBezier_elements expectedTypes)
                               (path ++ [Str.of_nat i])) ;;
                    r' <- each r (S i) ;;
                    ret (x' :: r')
                end) l 0%nat ;;
       ret (JArr l'))%js
  | JObj o =>
      match slots_of expectedTypes with
      | None => ret value
      | Some slots =>
          (o' <- run_keys (Object_keys o)
                   ((fix each (o : list (string * JS))
                       : list (string * M World JS) :=
                       match o with
                       | [] => []
                       | (key, x) :: r =>
                           (key,
                            traverseAndResolve fuel x
                              (getObjMember node key)
                              (option_map (map JStr) (lookup key slots))
                              (path ++ [key]))
                             :: each r
                       end) o)
                   o ;;
           ret (JObj o'))%js
      end
  | JNull => throw (TypeError "Object.keys(value)")
  | JUndefined | JBool _ | JNum _ => ret value
  end.

(** The body of the loop over the modes of [token], whose key in the
    token set is [key]. *)
Definition resolveMode (fuel : nat) (key : string) : M World unit :=
  (w <- get ;;
   tok <- must "token" (lookup key (tokens w)) ;;
   state <- must "token.mode[mode].$value" (lookup mode (t_mode tok)) ;;
   finalValue <- traverseAndResolve fuel (m_value state) aliasEntry_node
                   (if truthy (t_type tok) then Some [t_type tok] else None)
                   [t_jsonID tok; "$value"] ;;
   w <- get ;;
   tok <- must "token" (lookup key (tokens w)) ;;
   state <- must "token.mode[mode]" (lookup mode (t_mode tok)) ;;
   let state' :=
     if truthy finalValue then set_m_value state finalValue else state in
   let tok' := set_mode tok (assign mode state' (t_mode tok)) in
   let tok'' :=
     if String.eqb mode "." then set_value tok' (m_value state') else tok' in
   modify (set_tokens_of (assign key tok'')))%js.

End Resolve.

(** One hop of an alias chain in [mode]: the ref of [alias], and the alias
    that the token it names holds as the original value of that mode. *)
Definition hop (ts : Tokens) (mode alias : string) : option (string * string) :=
  match aliasToRef alias with
  | Some ref =>
      match lookup (drop_value_suffix ref) ts with
      | Some next =>
          match lookup mode (t_mode next) with
          | Some state =>
              match m_originalValue state with
              | JStr s => if isAlias (JStr s) then Some (ref, s) else None
              | _ => None
              end
          | None => None
          end
      | None => None
      end
  | None => None
  end.

(** [n] hops from [alias]: the refs passed, in order, and the alias reached. *)
Fixpoint hops (ts : Tokens) (mode : string) (n : nat) (alias : string)
  : option (list string * string) :=
  match n with
  | O => Some ([], alias)
  | S n' =>
      match hop ts mode alias with
      | Some (ref, next) =>
          match hops ts mode n' next with
          | Some (refs, reached) => Some (ref :: refs, reached)
          | None => None
          end
      | None => None
      end
  end.

(** A computation that leaves the token set as it is, however it ends. *)
Definition keeps_tokens {A} (c : M World A) : Prop :=
  forall w,
    match c w with
    | Ret _ w' | Throw _ w' => tokens w' = tokens w
    | OutOfFuel => True
    end.

(** Resolve DTCG aliases *)
Definition resolveAliases (logger : Logger) (fuel : nat) : M World unit :=
  (w <- get ;;
   for_of (Object_entries (tokens w))
     (fun kt =>
        for_of (Object_keys (t_mode (snd kt)))
          (fun mode => resolveMode logger (snd kt) mode fuel (fst kt))))%js.

(* ================================================================== *)
(** ** Linking the alias graph *)

Definition set_dependencies (d : option (list string)) (t : Token) : Token :=
  mkToken (t_id t) (t_type t) (t_description t) (t_deprecated t) (t_value t)
    (t_extensions t) (t_aliasChain t) (t_aliasedBy t) (t_aliasOf t)
    (t_partialAliasOf t) d (t_group t) (t_originalValue t)
    (t_source t) (t_jsonID t) (t_mode t).

Definition set_aliasOf (a : option string) (t : Token) : Token :=
  mkToken (t_id t) (t_type t) (t_description t) (t_deprecated t) (t_value t)
    (t_extensions t) (t_aliasChain t) (t_aliasedBy t) a
    (t_partialAliasOf t) (t_dependencies t) (t_group t) (t_originalValue t)
    (t_source t) (t_jsonID t) (t_mode t).

Definition set_aliasChain (c : option (list (option string))) (t : Token)
  : Token :=
  mkToken (t_id t) (t_type t) (t_description t) (t_deprecated t) (t_value t)
    (t_extensions t) c (t_aliasedBy t) (t_aliasOf t)
    (t_partialAliasOf t) (t_dependencies t) (t_group t) (t_originalValue t)
    (t_source t) (t_jsonID t) (t_mode t).

Definition set_aliasedBy (b : option (list (option string))) (t : Token)
  : Token :=
  mkToken (t_id t) (t_type t) (t_description t) (t_deprecated t) (t_value t)
    (t_extensions t) (t_aliasChain t) b (t_aliasOf t)
    (t_partialAliasOf t) (t_dependencies t) (t_group t) (t_originalValue t)
    (t_source t) (t_jsonID t) (t_mode t).

Definition set_partialAliasOf (p : option Partial) (t : Token) : Token :=
  mkToken (t_id t) (t_type t) (t_description t) (t_deprecated t) (t_value t)
    (t_extensions t) (t_aliasChain t) (t_aliasedBy t) (t_aliasOf t)
    p (t_dependencies t) (t_group t) (t_originalValue t)
    (t_source t) (t_jsonID t) (t_mode t).

Definition set_m_partialAliasOf (p : option Partial) (m : ModeState)
  : ModeState :=
  mkMode (m_value m) (m_aliasOf m) (m_aliasChain m) (m_aliasedBy m)
    p (m_originalValue m) (m_dependencies m) (m_source m).

(** [tokens[k] = f(tokens[k])] for a token that is there. *)
Definition update_token (k : string) (f : Token -> Token) (ts : Tokens)
  : Tokens :=
  match lookup k ts with
  | Some t => assign k (f t) ts
  | None => ts
  end.

(** [ref.replace(/\/\$value\/?.*/, '')] *)
Definition getTokenRef (ref : string) : string :=
  match Str.before_first "/$value" ref with Some p => p | None => ref end.

(** [jsonID.replace(/.*\/\$value\/?/, '').split('/').filter(Boolean)] *)
Definition partial_path (jsonID : string) : list string :=
  let rest :=
    match Str.after_last "/$value" jsonID with
    | Some (String "/" r) => r
    | Some r => r
    | None => jsonID
    end in
  filter (fun s => negb (Str.is_empty s)) (Str.split "/" rest).

(** Truthiness of a [partialAliasOf] field. *)
Definition truthy_partial (p : option Partial) : bool :=
  match p with
  | Some (PNode _ _) => true
  | Some (PLeaf (Some s)) => negb (Str.is_empty s)
  | Some (PLeaf None) | None => false
  end.

(** [key in node]: [None] is the [TypeError] of [in] on what is not an
    object. *)
Definition js_in (key : string) (node : JS) : option bool :=
  match node with
  | JObj o => Some (has key o)
  | JArr l =>
      Some match Str.canonical_nat key with
           | Some n => (N.to_nat n <? List.length l)%nat
           | None => false
           end
  | _ => None
  end.

(** How the loop over the sub-path of a partial alias ends. *)
Inductive LoopEnd : Type :=
| Completed
| Broke
| Failed (e : Exn).

Section Graph.

Variable localeCompare : string -> string -> Z.
Variable logger : Logger.

(** [a.sort(...)] on an array that may hold [undefined]: those go last,
    without being compared. *)
Definition sort_ids (l : list (option string)) : list (option string) :=
  map Some
    (sort_by (numeric_lt localeCompare)
       (flat_map (fun x => match x with Some s => [s] | None => [] end) l))
  ++ filter (fun x => negb (is_some x)) l.

Definition includes_id (l : list (option string)) (x : option string) : bool :=
  existsb (fun y => match x, y with
                    | Some a, Some b => String.eqb a b
                    | None, None => true
                    | _, _ => false
                    end) l.

(** The loop over the sub-path [partial] of a partial alias: [node] walks
    the value, [sourceNode] the document tree and [partialAliasOf] the
    structure being filled, which is returned with what was written to
    it, the entry handed to the logger if any, and how the loop ended. *)
Fixpoint link_partial (ts : Tokens) (refChain : list string)
  (partial : list string) (node : JS) (sourceNode : option Node)
  (partialAliasOf : Partial) : Partial * option LogEntry * LoopEnd :=
  match partial with
  | [] => (partialAliasOf, None, Completed)
  | key :: rest =>
      let numeric := is_some (Str.canonical_nat key) in
      match js_in key node with
      | None => (partialAliasOf, None, Failed (TypeError "key in node"))
      | Some present =>
          let child :=
            match js_member node key with Some v => v | None => JUndefined end in
          let step : (JS * option Node) + Exn :=
            if present && negb (same_value child JUndefined) then
              match sourceNode with
              | None => inr (TypeError "sourceNode.type")
              | Some (NObject _) =>
                  inl (child,
                       if numeric then None else getObjMember sourceNode key)
              | Some (NArray es) =>
                  match (if numeric
                         then nth_error es
                                (match Str.canonical_nat key with
                                 | Some n => N.to_nat n
                                 | None => 0%nat
                                 end)
                         else None) with
                  | Some e => inl (child, Some e)
                  | None => inr (TypeError "sourceNode.elements[key].value")
                  end
              | Some _ => inl (child, sourceNode)
              end
            else inl (node, sourceNode) in
          match step with
          | inr e => (partialAliasOf, None, Failed e)
          | inl (node', sourceNode') =>
              match rest with
              | [] =>
                  (* last node: apply partial alias *)
                  let aliasedID := getTokenRef (last refChain "") in
                  if negb (has aliasedID ts) then
                    let entry :=
                      mkEntry ("Invalid alias: " ++ aliasedID)%string
                        sourceNode' in
                    (partialAliasOf, Some entry,
                     if raises logger entry then Failed (Raised entry)
                     else Broke)
                  else
                    match partialAliasOf with
                    | PNode arr props =>
                        (PNode arr
                           (assign key (PLeaf (refToTokenID aliasedID)) props),
                         None, Completed)
                    | PLeaf _ =>
                        (partialAliasOf, None,
                         Failed (TypeError "partialAliasOf[key] ="))
                    end
              | _ :: _ =>
                  (* otherwise, create deeper structure and continue *)
                  match partialAliasOf with
                  | PNode arr props =>
                      let props1 :=
                        if has key props then props
                        else assign key (PNode (isArray node') []) props in
                      match lookup key props1 with
                      | Some sub =>
                          let '(sub', entry, e) :=
                            link_partial ts refChain rest node' sourceNode' sub in
                          (PNode arr (assign key sub' props1), entry, e)
                      | None => (PNode arr props1, None, Completed)
                      end
                  | PLeaf _ =>
                      (partialAliasOf, None,
                       Failed (TypeError "key in partialAliasOf"))
                  end
              end
          end
      end
  end.

(** The partial-alias block of the loop body. *)
Definition link_partial_alias (mode jsonID rootRef : string)
  (refChain : list string) : M World unit :=
  (w <- get ;;
   let partial := partial_path jsonID in
   match lookup rootRef (tokens w) with
   | None => ret tt
   | Some root =>
       match lookup mode (t_mode root) with
       | None => ret tt
       | Some state =>
           if negb (is_empty_list partial) && truthy (m_value state)
              && typeof_object (m_value state)
           then
             let node := m_value state in
             let sourceNode := getObjMember (src_node (m_source state)) "$value" in
             let state' :=
               if truthy_partial (m_partialAliasOf state) then state
               else set_m_partialAliasOf
                      (Some (PNode (isArray (t_value root)) [])) state in
             let root' := set_mode root (assign mode state' (t_mode root)) in
             let '(filled, entry, e) :=
               link_partial (tokens w) refChain partial node sourceNode
                 (match t_partialAliasOf root' with
                  | Some p => p
                  | None => PLeaf None
                  end) in
             let root'' :=
               match t_partialAliasOf root' with
               | Some _ => set_partialAliasOf (Some filled) root'
               | None => root'
               end in
             modify (set_tokens_of (assign rootRef root'')) ;;;
             match entry with
             | Some en =>
                 modify (fun w => mkWorld (tokens w) (modeRefMap w)
                                    (log w ++ [en]))
             | None => ret tt
             end ;;;
             match e with
             | Failed ex => throw ex
             | _ => ret tt
             end
           else ret tt
       end
   end)%js.

(** The block that fills [aliasedBy], from the turn [i] of its loop on. *)
Fixpoint link_aliasedBy (aliasedByRefs : list string) (ts : Tokens)
  : Tokens :=
  match aliasedByRefs with
  | [] => ts
  | ref :: upstream =>
      let baseRef := getTokenRef ref in
      match lookup baseRef ts with
      | None => link_aliasedBy upstream ts
      | Some _ =>
          match upstream with
          | [] => ts
          | _ :: _ =>
              let add (ts : Tokens) (r : string) : Tokens :=
                update_token baseRef
                  (fun t =>
                     let cur := match t_aliasedBy t with
                                | Some l => l
                                | None => []
                                end in
                     let downstream := refToTokenID r in
                     if includes_id cur downstream
                     then set_aliasedBy (Some cur) t
                     else set_aliasedBy
                            (Some (sort_ids (cur ++ [downstream]))) t)
                  ts in
              link_aliasedBy upstream (fold_left add upstream ts)
          end
      end
  end.

(** The body of the loop over the entries of one mode's [refMap]. *)
Definition link_entry (mode jsonID : string) (refChain : list string)
  : M World unit :=
  (if is_empty_list refChain then ret tt else
   (* aliasChain + dependencies *)
   let rootRef := getTokenRef jsonID in
   modify (set_tokens_of
             (update_token rootRef
                (fun t =>
                   let cur := match t_dependencies t with
                              | Some l => l
                              | None => []
                              end in
                   set_dependencies
                     (Some (sort_by (numeric_lt localeCompare)
                              (cur ++ filter (fun r => negb (includes cur r))
                                        refChain))) t))) ;;;
   (* Top alias *)
   w <- get ;;
   let isTopLevelAlias :=
     Str.endsWith jsonID "/$value" || has jsonID (tokens w) in
   (if isTopLevelAlias then
      modify (set_tokens_of
                (update_token rootRef
                   (fun t =>
                      set_aliasChain (Some (map refToTokenID refChain))
                        (set_aliasOf (refToTokenID (last refChain "")) t))))
    else ret tt) ;;;
   (* Partial alias *)
   link_partial_alias mode jsonID rootRef refChain ;;;
   (* aliasedBy (reversed) *)
   modify (set_tokens_of (link_aliasedBy (rev (jsonID :: refChain)))) ;;;
   if String.eqb mode "." then
     w <- get ;;
     t <- must "tokens[jsonID].aliasChain" (lookup jsonID (tokens w)) ;;
     state <- must "tokens[jsonID].mode[mode].aliasChain"
                (lookup mode (t_mode t)) ;;
     modify (set_tokens_of
               (assign jsonID
                  (set_partialAliasOf (m_partialAliasOf state)
                     (set_dependencies (m_dependencies state)
                        (set_aliasOf (m_aliasOf state)
                           (set_aliasedBy (m_aliasedBy state)
                              (set_aliasChain (m_aliasChain state) t)))))))
   else ret tt)%js.

(** Link and reverse-link tokens in one pass. *)
Definition graphAliases : M World unit :=
  (w <- get ;;
   for_of (Object_keys (modeRefMap w))
     (fun mode =>
        w <- get ;;
        (match lookup mode (modeRefMap w) with
         | Some (Some _) => ret tt
         | _ => modify (set_refs_of (assign mode (Some [])))
         end) ;;;
        w <- get ;;
        let refMap := match lookup mode (modeRefMap w) with
                      | Some (Some refMap) => refMap
                      | _ => []
                      end in
        for_of (Object_entries refMap)
          (fun e => link_entry mode (fst e) (refChain (snd e)))))%js.

End Graph.

(* ================================================================== *)
(** ** Documents for the examples *)

(** The walker that calls [groupFromNode] and [tokenFromNode] on the nodes
    of a document is not among the sources.  An example lists the calls a
    walk of its document makes, groups before what they hold, and files
    each token under its [jsonID], with the original values that
    [tokenRawValuesFromNode] reads for it and its modes. *)
Module Examples.

Inductive Visit : Type :=
| Visit_group (node : Node) (path : list string)
| Visit_token (node : Node) (path : list string).

Definition set_originalValue (v : JS) (t : Token) : Token :=
  mkToken (t_id t) (t_type t) (t_description t) (t_deprecated t) (t_value t)
    (t_extensions t) (t_aliasChain t) (t_aliasedBy t) (t_aliasOf t)
    (t_partialAliasOf t) (t_dependencies t) (t_group t) v
    (t_source t) (t_jsonID t) (t_mode t).

Definition set_m_originalValue (v : JS) (m : ModeState) : ModeState :=
  mkMode (m_value m) (m_aliasOf m) (m_aliasChain m) (m_aliasedBy m)
    (m_partialAliasOf m) v (m_dependencies m) (m_source m).

Definition with_raw (raw : TokenRawValues) (t : Token) : Token :=
  set_originalValue (raw_originalValue raw)
    (set_mode t
       (map (fun ms =>
               (fst ms,
                match lookup (fst ms) (raw_mode raw) with
                | Some r => set_m_originalValue (raw_m_originalValue r) (snd ms)
                | None => snd ms
                end))
          (t_mode t))).

(** No two ids are compared and nothing is ignored in the examples that
    use these stand-ins for the platform's functions. *)
Definition no_compare : string -> string -> Z := fun _ _ => 0%Z.
Definition no_match : list string -> string -> bool := fun _ _ => false.

(** A comparison by code units, for the examples that compare two ids
    whose order every collation agrees on. *)
Definition by_code_units (a b : string) : Z :=
  match String.compare a b with Lt => (-1)%Z | Eq => 0%Z | Gt => 1%Z end.

Definition file : string := "file:///tokens.json".

Definition visit (localeCompare : string -> string -> Z)
  (wcmatch : list string -> string -> bool) (ignore : option Ignore)
  (acc : Tokens) (v : Visit) : M Groups Tokens :=
  match v with
  | Visit_group node path =>
      (groupFromNode node path ;;; ret acc)%js
  | Visit_token node path =>
      (t <- tokenFromNode localeCompare wcmatch node path (Some file) ignore ;;
       match t, tokenRawValuesFromNode node file path tt with
       | Some t, Ret (Some raw) _ => ret (assign (t_jsonID t) (with_raw raw t) acc)
       | Some t, _ => ret (assign (t_jsonID t) t acc)
       | None, _ => ret acc
       end)%js
  end.

Fixpoint walk (localeCompare : string -> string -> Z)
  (wcmatch : list string -> string -> bool) (ignore : option Ignore)
  (vs : list Visit) (acc : Tokens) : M Groups Tokens :=
  match vs with
  | [] => ret acc
  | v :: r =>
      (acc' <- visit localeCompare wcmatch ignore acc v ;;
       walk localeCompare wcmatch ignore r acc')%js
  end.

(** The token set of a document, or none if the walk threw. *)
Definition tokens_of (localeCompare : string -> string -> Z)
  (vs : list Visit) : Tokens :=
  match walk localeCompare no_match None vs [] [] with
  | Ret ts _ => ts
  | _ => []
  end.

(** The state the resolver starts from: an empty [refMap] for each of
    the modes. *)
Definition start (modes : list string) (ts : Tokens) : World :=
  mkWorld ts (map (fun m => (m, Some [])) modes) [].

(** Resolution, then linking. *)
Definition resolve_then_link (localeCompare : string -> string -> Z)
  (logger : Logger) (fuel : nat) : M World unit :=
  (resolveAliases logger fuel ;;; graphAliases localeCompare logger)%js.

Definition member (k : string) (v : Node) : Name * Node := (NameString k, v).

Definition token_node (type : string) (value : Node) : Node :=
  NObject [member "$value" value; member "$type" (NString type)].

(** [{ a: { $value: "{b}" }, b: { $value: "{a}" } }] *)
Definition cycle_a : Node := NObject [member "$value" (NString "{b}")].
Definition cycle_b : Node := NObject [member "$value" (NString "{a}")].
Definition cycle_doc : list Visit :=
  [ Visit_group (NObject [member "a" cycle_a; member "b" cycle_b]) [];
    Visit_token cycle_a ["a"];
    Visit_token cycle_b ["b"] ].
Definition cycle_world : World :=
  start ["."] (tokens_of no_compare cycle_doc).

(** [{ m: { $value: "{nope}", $type: "color" },
       color: { red: { $value: "#ff0000", $type: "color" },
                danger: { $value: "{color.red}", $type: "color" } } }] *)
Definition m_node : Node := token_node "color" (NString "{nope}").
Definition red_node : Node := token_node "color" (NString "#ff0000").
Definition danger_node : Node := token_node "color" (NString "{color.red}").
Definition color_group : Node :=
  NObject [member "red" red_node; member "danger" danger_node].
Definition missing_doc : list Visit :=
  [ Visit_group (NObject [member "m" m_node; member "color" color_group]) [];
    Visit_token m_node ["m"];
    Visit_group color_group ["color"];
    Visit_token red_node ["color"; "red"];
    Visit_token danger_node ["color"; "danger"] ].
Definition missing_world : World :=
  start ["."] (tokens_of by_code_units missing_doc).

(** [{ color: { red: { $value: "#ff0000", $type: "color" },
                danger: { $value: "{color.red}", $type: "color" } } }] *)
Definition simple_doc : list Visit :=
  [ Visit_group (NObject [member "color" color_group]) [];
    Visit_group color_group ["color"];
    Visit_token red_node ["color"; "red"];
    Visit_token danger_node ["color"; "danger"] ].
Definition simple_world : World :=
  start ["."] (tokens_of by_code_units simple_doc).

(** A token with a second mode, [dark], under [$extensions.mode]. *)
Definition with_dark (type : string) (value dark : Node) : Node :=
  NObject [ member "$value" value; member "$type" (NString type);
            member "$extensions"
              (NObject [member "mode" (NObject [member "dark" dark])]) ].

(** [color.danger] is an alias in its mode [dark] only. *)
Definition red_dark : Node :=
  with_dark "color" (NString "#ff0000") (NString "#aa0000").
Definition danger_dark : Node :=
  with_dark "color" (NString "#000000") (NString "{color.red}").
Definition dark_group : Node :=
  NObject [member "red" red_dark; member "danger" danger_dark].
Definition dark_doc : list Visit :=
  [ Visit_group (NObject [member "color" dark_group]) [];
    Visit_group dark_group ["color"];
    Visit_token red_dark ["color"; "red"];
    Visit_token danger_dark ["color"; "danger"] ].
Definition dark_world : World :=
  start ["."; "dark"] (tokens_of by_code_units dark_doc).


(** [x] is 5 and, in its mode [dark], 0; [y] is an alias of [x] in both
    modes. *)
Definition zero_x : Node := with_dark "number" (NNumber 5) (NNumber 0).
Definition zero_y : Node :=
  with_dark "number" (NString "{x}") (NString "{x}").
Definition zero_doc : list Visit :=
  [ Visit_group (NObject [member "x" zero_x; member "y" zero_y]) [];
    Visit_token zero_x ["x"];
    Visit_token zero_y ["y"] ].
Definition zero_world : World :=
  start ["."; "dark"] (tokens_of by_code_units zero_doc).

(** [x] is 0 and [y] an alias of [x]. *)
Definition nought_x : Node :=
  NObject [member "$value" (NNumber 0); member "$type" (NString "number")].
Definition nought_y : Node := token_node "number" (NString "{x}").
Definition nought_doc : list Visit :=
  [ Visit_group (NObject [member "x" nought_x; member "y" nought_y]) [];
    Visit_token nought_x ["x"];
    Visit_token nought_y ["y"] ].
Definition nought_world : World :=
  start ["."] (tokens_of by_code_units nought_doc).

(** The shadow whose colour is an alias. *)
Definition shadow_value : Node :=
  NObject [ member "color" (NString "{color.red}");
            member "offsetX" (NString "2px");
            member "offsetY" (NString "2px");
            member "blur" (NString "4px");
            member "spread" (NString "0");
            member "inset" (NBoolean false) ].
Definition shadow1 : Node := token_node "shadow" shadow_value.
Definition red_group : Node := NObject [member "red" red_node].
Definition shadow_doc : list Visit :=
  [ Visit_group (NObject [member "color" red_group; member "shadow1" shadow1]) [];
    Visit_group red_group ["color"];
    Visit_token red_node ["color"; "red"];
    Visit_token shadow1 ["shadow1"] ].
Definition shadow_world (localeCompare : string -> string -> Z) : World :=
  start ["."] (tokens_of localeCompare shadow_doc).

(** Groups [a] ([$type: "color"]), [a.b] ([$type: null]) and [a.b.c],
    indexed in that order after the root. *)
Definition group_c : Node := NObject [].
Definition group_b : Node :=
  NObject [member "$type" NNull; member "c" group_c].
Definition group_a : Node :=
  NObject [member "$type" (NString "color"); member "b" group_b].
Definition null_parent_walk : M Groups (option Group) :=
  (groupFromNode (NObject [member "a" group_a]) [] ;;;
   groupFromNode group_a ["a"] ;;;
   groupFromNode group_b ["a"; "b"] ;;;
   groupFromNode group_c ["a"; "b"; "c"])%js.

(** An index in which [a.b] already has a [$type] of its own. *)
Definition typed_groups : Groups :=
  [ ("#/", emptyGroup "");
    ("#/a", set_group_prop "$type" (JStr "color") (emptyGroup "a"));
    ("#/a/b", set_group_prop "$type" (JStr "dimension") (emptyGroup "a.b")) ].

(** A deprecated group and, in it, a token that says [$deprecated: false]. *)
Definition kept_token : Node :=
  NObject [ member "$value" (NString "#ff0000");
            member "$type" (NString "color");
            member "$deprecated" (NBoolean false) ].
Definition legacy_token : Node :=
  NObject [ member "$value" (NString "#00ff00");
            member "$type" (NString "color") ].
Definition deprecated_groups : Groups :=
  [ ("#/", emptyGroup "");
    ("#/old", set_group_prop "$deprecated" (JBool true) (emptyGroup "old")) ].
Definition ignore_deprecated : option Ignore := Some (mkIgnore None true).

(** The token filed under [key], and the state of one of its modes. *)
Definition token_at (key : string) (w : World) : Token :=
  match lookup key (tokens w) with
  | Some t => t
  | None =>
      mkToken "" JUndefined JUndefined JUndefined JUndefined JUndefined
        None None None None None None JUndefined (mkSource None None) "" []
  end.

Definition state_at (key mode : string) (w : World) : ModeState :=
  match lookup mode (t_mode (token_at key w)) with
  | Some state => state
  | None => emptyMode JUndefined (mkSource None None)
  end.

End Examples.

(* ================================================================== *)
(** ** The other helpers of the document tree *)

(** Any node a function of the helpers may be handed: a document, a value,
    a member of an object or an element of an array. *)
Inductive AnyNode : Type :=
| ADocument (body : Node)
| AValue (value : Node)
| AMember (member : Name * Node)
| AElement (value : Node).

(** White space that [parseInt] skips, among the code units below 256. *)
Definition is_space (c : ascii) : bool :=
  let n := nat_of_ascii c in
  ((9 <=? n)%nat && (n <=? 13)%nat) || (n =? 32)%nat || (n =? 160)%nat.

Fixpoint skip_spaces (s : string) : string :=
  match s with
  | String c r => if is_space c then skip_spaces r else s
  | EmptyString => EmptyString
  end.

Fixpoint leading_digits (s : string) : string :=
  match s with
  | String c r => if Str.is_digit c then String c (leading_digits r) else EmptyString
  | EmptyString => EmptyString
  end.

(** [Number.parseInt(s, 10)]; [None] is [NaN]. *)
Definition parseInt10 (s : string) : option Z :=
  let s := skip_spaces s in
  let signed :=
    match s with
    | String "-" r => (true, r)
    | String "+" r => (false, r)
    | _ => (false, s)
    end in
  let digits := leading_digits (snd signed) in
  if Str.is_empty digits then None
  else Some (if fst signed then - Z.of_N (Str.digits_value 0 digits)
             else Z.of_N (Str.digits_value 0 digits))%Z.

(** [elements[index]?.value] *)
Definition element_at (elements : list Node) (index : option Z) : option Node :=
  match index with
  | Some z => if (z <? 0)%Z then None else nth_error elements (Z.to_nat z)
  | None => None
  end.

(** [members.find((m) => m.name.type === 'String' && m.name.value === member)?.value] *)
Definition member_named (members : list (Name * Node)) (member : string)
  : option Node :=
  match find (fun m => match fst m with
                       | NameString v => String.eqb v member
                       | NameIdentifier _ => false
                       end) members with
  | Some m => Some (snd m)
  | None => None
  end.

(** [findNode] below a value node, for a path that is not empty. *)
Fixpoint findNode_below (path : list string) (node : Node) : option AnyNode :=
  match path with
  | [] => Some (AValue node)
  | key :: rest =>
      let nextNode :=
        match node with
        | NObject members => member_named members key
        | NArray elements => element_at elements (parseInt10 key)
        | _ => None
        end in
      match nextNode with
      | Some next =>
          match rest with
          | [] => Some (AValue next)
          | _ :: _ => findNode_below rest next
          end
      | None => None
      end
  end.

(** Find Momoa node by traversing paths *)
Definition findNode (node : AnyNode) (path : list string) : option AnyNode :=
  match path with
  | [] => Some node
  | _ :: _ =>
      match node with
      | ADocument body => findNode_below path body
      | AValue value => findNode_below path value
      | AMember _ | AElement _ => None
      end
  end.

(** Format ObjectNode members as key-value object: each value node with the
    index of its member. *)
Definition getObjMembers (node : Node) : list (string * (Node * nat)) :=
  match node with
  | NObject members =>
      snd (fold_left
             (fun (st : nat * list (string * (Node * nat))) m =>
                (S (fst st),
                 match fst m with
                 | NameString name => assign name (snd m, fst st) (snd st)
                 | NameIdentifier _ => snd st
                 end))
             members (0%nat, []))
  | _ => []
  end.

(** The loop of [getObjMembers], from a given index and table. *)
Definition index_members (members : list (Name * Node))
  (st : nat * list (string * (Node * nat))) : nat * list (string * (Node * nat)) :=
  fold_left
    (fun (st : nat * list (string * (Node * nat))) m =>
       (S (fst st),
        match fst m with
        | NameString name => assign name (snd m, fst st) (snd st)
        | NameIdentifier _ => snd st
        end))
    members st.

(* ================================================================== *)
(** ** Merging documents *)

(** The last member of the name [key], whatever the kind of the name. *)
Fixpoint last_member (key : string) (members : list (Name * Node))
  : option Node :=
  match members with
  | [] => None
  | m :: r =>
      match last_member key r with
      | Some v => Some v
      | None => if String.eqb (name_text (fst m)) key then Some (snd m) else None
      end
  end.

Definition string_named (m : Name * Node) : bool :=
  match fst m with NameString _ => true | NameIdentifier _ => false end.

(** Members as a JSON document has them when no name is repeated. *)
Definition plain_members (members : list (Name * Node)) : Prop :=
  forallb string_named members = true
  /\ NoDup (map (fun m => name_text (fst m)) members).

(** What the merging functions throw. *)
Inductive MergeError : Type :=
| NotSerializable (name : Name)   (** Member with key ... not JSON serializable *)
| MergeTypeError (at_ : string)   (** thrown by the language, at the named expression *)
| NoDocuments                     (** Can't merge 0 documents. *)
| NotObjects.                     (** mergeDocuments() can only merge top-level objects *)

(** [members.findIndex((prev) => prev.name.value === key)]; an identifier
    has no [value]. *)
Fixpoint findIndex (key : string) (members : list (Name * Node)) : option nat :=
  match members with
  | [] => None
  | m :: r =>
      if match fst m with
         | NameString v => String.eqb v key
         | NameIdentifier _ => false
         end
      then Some 0%nat
      else match findIndex key r with Some i => Some (S i) | None => None end
  end.

(** [members[i].value = v] *)
Fixpoint set_member_value (i : nat) (v : Node) (members : list (Name * Node))
  : list (Name * Node) :=
  match members, i with
  | [], _ => []
  | m :: r, O => (fst m, v) :: r
  | m :: r, S j => m :: set_member_value j v r
  end.

(** Merge Momoa Objects.  The value nodes of the embedding are the six of
    JSON.  On a member of [b] whose name [a] has and whose value is a node
    of another kind (momoa's [NaN] and [Infinity]) the source throws
    [Unhandled: ...], the [default] of its [switch]: such trees are not in
    [Node], so what is proved of [mergeObjects] is proved of the calls
    that return. *)
Fixpoint mergeObjects (a b : Node) {struct b} : MergeError + Node :=
  match a with
  | NObject a_members =>
      match b with
      | NObject b_members =>
          (fix loop (rest obj : list (Name * Node)) {struct rest}
             : MergeError + Node :=
             match rest with
             | [] => inr (NObject obj)
             | next :: rest' =>
                 match fst next with
                 | NameIdentifier _ => inl (NotSerializable (fst next))
                 | NameString key =>
                     match findIndex key obj with
                     | Some i =>
                         match snd next with
                         | NObject _ =>
                             match nth_error obj i with
                             | Some prev =>
                                 match mergeObjects (snd prev) (snd next) with
                                 | inr merged =>
                                     loop rest' (set_member_value i merged obj)
                                 | inl e => inl e
                                 end
                             | None => inl (MergeTypeError "obj.members[i].value")
                             end
                         | _ => loop rest' (set_member_value i (snd next) obj)
                         end
                     | None => loop rest' (obj ++ [next])
                     end
                 end
             end) b_members a_members
      | _ => inl (MergeTypeError "b.members")
      end
  | _ => inr b
  end.

Definition is_object (n : Node) : bool :=
  match n with NObject _ => true | _ => false end.

(** Merge multiple Momoa documents from different sources, each document
    given by its body. *)
Definition mergeDocuments (documents : list Node) : MergeError + Node :=
  match documents with
  | [] => inl NoDocuments
  | [document] => inr document
  | first :: rest =>
      if existsb (fun d => negb (is_object d)) documents then inl NotObjects
      else fold_left
             (fun final next =>
                match final with
                | inr body => mergeObjects body next
                | inl e => inl e
                end)
             rest (inr first)
  end.

(** The loop of [mergeObjects] over the members of [b]. *)
Fixpoint merge_members (rest obj : list (Name * Node)) : MergeError + Node :=
  match rest with
  | [] => inr (NObject obj)
  | next :: rest' =>
      match fst next with
      | NameIdentifier _ => inl (NotSerializable (fst next))
      | NameString key =>
          match findIndex key obj with
          | Some i =>
              match snd next with
              | NObject _ =>
                  match nth_error obj i with
                  | Some prev =>
                      match mergeObjects (snd prev) (snd next) with
                      | inr merged =>
                          merge_members rest' (set_member_value i merged obj)
                      | inl e => inl e
                      end
                  | None => inl (MergeTypeError "obj.members[i].value")
                  end
              | _ => merge_members rest' (set_member_value i (snd next) obj)
              end
          | None => merge_members rest' (obj ++ [next])
          end
      end
  end.

(** [plain_members] at every object of the tree. *)
Fixpoint plain (n : Node) : Prop :=
  match n with
  | NObject ms =>
      plain_members ms
      /\ (fix each (ms : list (Name * Node)) : Prop :=
            match ms with
            | [] => True
            | m :: r => plain (snd m) /\ each r
            end) ms
  | _ => True
  end.

Definition merged (r : MergeError + Node) : option Node :=
  match r with inr n => Some n | inl _ => None end.

(* ================================================================== *)
(** ** Vocabulary of the properties *)

(** The escaping [aliasToRef] applies to the id of an alias, as a whole and
    for one code unit. *)
Definition escape_pointer (id : string) : string :=
  Str.replace_all "." "/" (Str.replace_all "/" "~1" (Str.replace_all "~" "~0" id)).

Definition escape_unit (c : ascii) : string :=
  if Ascii.eqb c "~" then "~0"
  else if Ascii.eqb c "/" then "~1"
  else if Ascii.eqb c "." then "/"
  else String c EmptyString.

(** The properties that cascade from a group to the groups below it. *)
Inductive Cascading : Type :=
| Cascading_deprecated
| Cascading_description
| Cascading_type.

Definition cascading_name (c : Cascading) : string :=
  match c with
  | Cascading_deprecated => "$deprecated"
  | Cascading_description => "$description"
  | Cascading_type => "$type"
  end.

Definition cascading_value (c : Cascading) (g : Group) : JS :=
  match c with
  | Cascading_deprecated => g_deprecated g
  | Cascading_description => g_description g
  | Cascading_type => g_type g
  end.

(** The group at [path] as [groupFromNode] finds it, or as it makes it. *)
Definition own_group (path : list string) (groups : Groups) : Group :=
  match lookup (jsonID_of path) groups with
  | Some g => g
  | None => emptyGroup (join "." path)
  end.

(** [key] is a key of the index that [groupFromNode] takes for a parent of
    the group at [jsonID]. *)
Definition taken_for_parent (jsonID key : string) : bool :=
  Str.startsWith jsonID key && negb (String.eqb key jsonID).

(** The pieces [tokenFromNode] assembles a token from, given the group it
    found ([None] where the source reads a property of [undefined]). *)
Definition token_type (node : Node) (group : option Group) : option JS :=
  let own := prop "$type" (evaluate_object node) in
  if truthy own then Some own else option_map g_type group.

Definition token_deprecated (node : Node) (group : option Group) : option JS :=
  let own := prop "$deprecated" (evaluate_object node) in
  if nullish own then option_map (fun g => g_deprecated g ?? JUndefined) group
  else Some own.

Definition base_token (node : Node) (path : list string)
  (filename : option string) (group : option Group) (type deprecated : JS)
  : Token :=
  mkToken (join "." path) type
    (truthy_or (prop "$description" (evaluate_object node)) JUndefined)
    deprecated
    (prop "$value" (evaluate_object node))
    (truthy_or (prop "$extensions" (evaluate_object node)) JUndefined)
    None None None None None
    (match group with
     | Some _ => Some (jsonID_of (removelast path))
     | None => None
     end)
    JUndefined (mkSource filename (Some node)) (jsonID_of path)
    [(".", emptyMode (prop "$value" (evaluate_object node))
             (mkSource filename
                (match getObjMember (Some node) "$value" with
                 | Some n => Some n
                 | None => Some node
                 end)))].

Definition mode_state (filename : option string) (ext : Node) (modes : JS)
  (mode : string) : ModeState :=
  emptyMode (match js_member modes mode with
             | Some v => v
             | None => JUndefined
             end)
    (mkSource filename (getObjMember (getObjMember (Some ext) "mode") mode)).

Definition with_modes (f : string -> ModeState) (keys : list string)
  (t : Token) : Token :=
  fold_left (fun tok mode => set_mode tok (assign mode (f mode) (t_mode tok)))
    keys t.

(** The outcome of [tokenFromNode] on a token node, piece by piece, given
    the group it found and the index as the registration left it. *)
Definition tokenFromNode_outcome_of
  (wcmatch : list string -> string -> bool)
  (node : Node) (path : list string) (filename : option string)
  (ignore : option Ignore) (group : option Group) (gs : Groups)
  : Outcome Groups (option Token) :=
  match token_type node group with
  | None => Throw (TypeError "group.$type") gs
  | Some type =>
      match token_deprecated node group with
      | None => Throw (TypeError "group.$deprecated") gs
      | Some deprecated =>
          let token := base_token node path filename group type deprecated in
          if ignored wcmatch ignore deprecated (join "." path) then Ret None gs
          else
            match getObjMember (Some node) "$extensions" with
            | None => Ret (Some token) gs
            | Some ext =>
                match js_member (t_extensions token) "mode" with
                | None => Throw (TypeError "token.$extensions.mode") gs
                | Some modes =>
                    match js_keys modes with
                    | None =>
                        Throw (TypeError "Object.keys(token.$extensions.mode)") gs
                    | Some keys =>
                        Ret (Some (with_modes (mode_state filename ext modes)
                                     keys token)) gs
                    end
                end
            end
      end
  end.

(** A computation that, started with fewer tokens than [fuel], ends and
    leaves the token set as it is. *)
Definition ends (fuel : nat) {A} (c : M World A) : Prop :=
  forall w,
    (List.length (tokens w) < fuel)%nat ->
    match c w with
    | Ret _ w' | Throw _ w' => tokens w' = tokens w
    | OutOfFuel => False
    end.

(** The same, for a computation that may replace tokens, not add any. *)
Definition ends_in_size (fuel : nat) {A} (c : M World A) : Prop :=
  forall w,
    (List.length (tokens w) < fuel)%nat ->
    match c w with
    | Ret _ w' | Throw _ w' =>
        List.length (tokens w') = List.length (tokens w)
    | OutOfFuel => False
    end.

Module Chain.

(** [{ a: { $value: "{b}" }, b: { $value: "{c}" }, c: { $value: "#ff0000" } }],
    each of [$type: "color"]. *)
Definition a_node : Node := Examples.token_node "color" (NString "{b}").
Definition b_node : Node := Examples.token_node "color" (NString "{c}").
Definition c_node : Node := Examples.token_node "color" (NString "#ff0000").
Definition doc : list Examples.Visit :=
  [ Examples.Visit_group
      (NObject [Examples.member "a" a_node; Examples.member "b" b_node;
                Examples.member "c" c_node]) [];
    Examples.Visit_token a_node ["a"];
    Examples.Visit_token b_node ["b"];
    Examples.Visit_token c_node ["c"] ].
Definition world : World :=
  Examples.start ["."] (Examples.tokens_of Examples.by_code_units doc).

End Chain.

(** What of a mode and of a token the linking of aliases has no business
    with: everything but the alias fields. *)
Definition mode_core (m : ModeState) : JS * JS * Source :=
  (m_value m, m_originalValue m, m_source m).

Definition token_core (t : Token)
  : string * JS * JS * JS * JS * JS * option string * JS * Source * string
    * list (string * (JS * JS * Source)) :=
  (t_id t, t_type t, t_description t, t_deprecated t, t_value t,
   t_extensions t, t_group t, t_originalValue t, t_source t, t_jsonID t,
   map (fun km => (fst km, mode_core (snd km))) (t_mode t)).

(** The token set [ts'] has the keys of [ts], in the same order, and under
    each key a token with the same core. *)
Definition same_cores (ts ts' : Tokens) : Prop :=
  map (fun kt => (fst kt, token_core (snd kt))) ts'
  = map (fun kt => (fst kt, token_core (snd kt))) ts.

(** A computation that ends and only touches alias fields. *)
Definition only_annotates {A} (c : M World A) : Prop :=
  forall w,
    match c w with
    | Ret _ w' | Throw _ w' => same_cores (tokens w) (tokens w')
    | OutOfFuel => False
    end.

(** A computation that throws whenever the token set has nothing under
    [key]. *)
Definition throws_without (key : string) {A} (c : M World A) : Prop :=
  forall w,
    lookup key (tokens w) = None ->
    match c w with Throw _ _ => True | _ => False end.

Module Samples.

(** What a call returned and the state it left, for the calls of the
    examples that return. *)
Definition returned {S A} (o : Outcome S (option A)) (default : A) : A :=
  match o with Ret (Some a) _ => a | _ => default end.

Definition state_after {S A} (o : Outcome S A) (default : S) : S :=
  match o with Ret _ s | Throw _ s => s | OutOfFuel => default end.

Definition no_token : Token :=
  mkToken "" JUndefined JUndefined JUndefined JUndefined JUndefined
    None None None None None None JUndefined (mkSource None None) "" [].

Definition no_raw : TokenRawValues :=
  mkRaw "" JUndefined (mkSource None None) [].

(** [{ x: 1, y: { p: 1 } }] and [{ y: { q: 2 }, z: 3 }] *)
Definition left_members : list (Name * Node) :=
  [ Examples.member "x" (NNumber 1);
    Examples.member "y" (NObject [Examples.member "p" (NNumber 1)]) ].
Definition right_members : list (Name * Node) :=
  [ Examples.member "y" (NObject [Examples.member "q" (NNumber 2)]);
    Examples.member "z" (NNumber 3) ].
Definition both_members : list (Name * Node) :=
  [ Examples.member "x" (NNumber 1);
    Examples.member "y"
      (NObject [Examples.member "p" (NNumber 1);
                Examples.member "q" (NNumber 2)]);
    Examples.member "z" (NNumber 3) ].

(** [{ a: 1, b: 2, a: 3 }] *)
Definition repeated_members : list (Name * Node) :=
  [ Examples.member "a" (NNumber 1); Examples.member "b" (NNumber 2);
    Examples.member "a" (NNumber 3) ].

(** A token with [$extensions] that has no [mode]. *)
Definition vendor_members : list (Name * Node) :=
  [ Examples.member "$value" (NString "#ffffff");
    Examples.member "$type" (NString "color");
    Examples.member "$extensions"
      (NObject [Examples.member "vendor" (NString "x")]) ].

Definition root_only : Groups := [("#/", emptyGroup "")].

Definition dark_members : list (Name * Node) :=
  [ Examples.member "$value" (NString "#000000");
    Examples.member "$type" (NString "color");
    Examples.member "$extensions"
      (NObject [Examples.member "mode"
                  (NObject [Examples.member "dark" (NString "#111111")])]) ].

Definition dark_token : Token :=
  returned
    (tokenFromNode Examples.no_compare Examples.no_match
       (NObject dark_members) ["a"] (Some Examples.file) None
       root_only)
    no_token.

Definition dark_raw : TokenRawValues :=
  returned
    (tokenRawValuesFromNode (NObject dark_members) Examples.file ["a"] tt)
    no_raw.

Definition dark_groups : Groups :=
  state_after
    (tokenFromNode Examples.no_compare Examples.no_match
       (NObject dark_members) ["a"] (Some Examples.file) None
       root_only)
    [].

End Samples.

(* ================================================================== *)
(** ** What resolution leaves alone *)

(** What of a mode and of a token the resolution of aliases has no
    business with: everything but the values, and [$extensions], which
    holds the values of the modes. *)
Definition mode_rest (m : ModeState)
  : option string * option (list (option string))
    * option (list (option string)) * option Partial * JS
    * option (list string) * Source :=
  (m_aliasOf m, m_aliasChain m, m_aliasedBy m, m_partialAliasOf m,
   m_originalValue m, m_dependencies m, m_source m).

Definition token_rest (t : Token)
  : string * JS * JS * JS * option (list (option string))
    * option (list (option string)) * option string * option Partial
    * option (list string) * option string * JS * Source * string
    * list (string * (option string * option (list (option string))
                      * option (list (option string)) * option Partial * JS
                      * option (list string) * Source)) :=
  (t_id t, t_type t, t_description t, t_deprecated t,
   t_aliasChain t, t_aliasedBy t, t_aliasOf t, t_partialAliasOf t,
   t_dependencies t, t_group t, t_originalValue t, t_source t, t_jsonID t,
   map (fun km => (fst km, mode_rest (snd km))) (t_mode t)).

(** The token set [ts'] has the keys of [ts], in the same order, and under
    each key a token that differs at most in its values. *)
Definition same_rest (ts ts' : Tokens) : Prop :=
  map (fun kt => (fst kt, token_rest (snd kt))) ts'
  = map (fun kt => (fst kt, token_rest (snd kt))) ts.

(** A computation that only touches values, however it ends. *)
Definition only_values {A} (c : M World A) : Prop :=
  forall w,
    match c w with
    | Ret _ w' | Throw _ w' => same_rest (tokens w) (tokens w')
    | OutOfFuel => True
    end.

Module Shadow.

Definition world : World := Examples.shadow_world Examples.by_code_units.

(** The value of the shadow, resolved. *)
Definition run : Outcome World JS :=
  traverseAndResolve collecting (Examples.token_at "#/shadow1" world) "." 10
    (evaluate Examples.shadow_value) (Some Examples.shadow_value)
    (Some [JStr "shadow"]) ["#/shadow1"; "$value"] world.

Definition value_of (o : Outcome World JS) : JS :=
  match o with Ret v _ => v | _ => JUndefined end.

End Shadow.

(* ================================================================== *)
(** ** A cycle behind an alias that resolves *)

(** [{ c: { $value: "#fff" }, d: { $value: "{c}" },
       a: { $value: "{b}" }, b: { $value: "{a}" } }] *)
Module Late.
Definition c_node : Node := NObject [Examples.member "$value" (NString "#fff")].
Definition d_node : Node := NObject [Examples.member "$value" (NString "{c}")].
Definition doc : list Examples.Visit :=
  [ Examples.Visit_group
      (NObject [Examples.member "c" c_node; Examples.member "d" d_node;
                Examples.member "a" Examples.cycle_a;
                Examples.member "b" Examples.cycle_b]) [];
    Examples.Visit_token c_node ["c"];
    Examples.Visit_token d_node ["d"];
    Examples.Visit_token Examples.cycle_a ["a"];
    Examples.Visit_token Examples.cycle_b ["b"] ].
Definition world : World :=
  Examples.start ["."] (Examples.tokens_of Examples.no_compare doc).
End Late.

(* ================================================================== *)
(** ** Tokens two groups below a deprecated group *)

(** [{ old: { $deprecated: true,
              sub: { kept: { $value: "#ff0000", $type: "color",
                             $deprecated: false },
                     legacy: { $value: "#00ff00", $type: "color" } } } }] *)
Module Inherited.
Definition sub_group : Node :=
  NObject [ Examples.member "kept" Examples.kept_token;
            Examples.member "legacy" Examples.legacy_token ].
Definition old_group : Node :=
  NObject [ Examples.member "$deprecated" (NBoolean true);
            Examples.member "sub" sub_group ].
Definition doc : list Examples.Visit :=
  [ Examples.Visit_group (NObject [Examples.member "old" old_group]) [];
    Examples.Visit_group old_group ["old"];
    Examples.Visit_group sub_group ["old"; "sub"];
    Examples.Visit_token Examples.kept_token ["old"; "sub"; "kept"];
    Examples.Visit_token Examples.legacy_token ["old"; "sub"; "legacy"] ].
Definition walked : Outcome Groups Tokens :=
  Examples.walk Examples.no_compare Examples.no_match None doc [] [].
End Inherited.

(* ================================================================== *)
(** * Properties *)

(** ** Tables and sorting *)

Lemma lookup_assign_same {A} (k : string) (v : A) (o : list (string * A)) :
  lookup k (assign k v o) = Some v.
Proof.
  induction o as [|[k' v'] r IH]; simpl.
  - now rewrite String.eqb_refl.
  - destruct (String.eqb k k') eqn:E; simpl.
    + now rewrite String.eqb_refl.
    + now rewrite E.
Qed.

Lemma lookup_assign_other {A} (k k0 : string) (v : A) (o : list (string * A)) :
  k0 <> k -> lookup k0 (assign k v o) = lookup k0 o.
Proof.
  intros N. induction o as [|[k' v'] r IH]; simpl.
  - apply String.eqb_neq in N. now rewrite N.
  - destruct (String.eqb k k') eqn:E; simpl.
    + apply String.eqb_eq in E. subst k'.
      apply String.eqb_neq in N. now rewrite N.
    + destruct (String.eqb k0 k'); auto.
Qed.

Lemma lookup_in_keys {A} (k : string) (v : A) (o : list (string * A)) :
  lookup k o = Some v -> In k (map fst o).
Proof.
  induction o as [|[k' v'] r IH]; simpl; [discriminate|].
  destruct (String.eqb k k') eqn:E.
  - apply String.eqb_eq in E. auto.
  - auto.
Qed.

Lemma in_insert_by lt (x y : string) (l : list string) :
  In y (insert_by lt x l) <-> y = x \/ In y l.
Proof.
  induction l as [|z r IH]; simpl.
  - intuition.
  - destruct (lt x z); simpl; rewrite ?IH; intuition.
Qed.

Lemma in_sort_by lt (y : string) (l : list string) :
  In y (sort_by lt l) <-> In y l.
Proof.
  unfold sort_by.
  assert (G : forall acc, In y (fold_left (fun a x => insert_by lt x a) l acc)
                          <-> In y acc \/ In y l).
  { induction l as [|x r IH]; intros acc; simpl.
    - intuition.
    - rewrite IH, in_insert_by. intuition. }
  rewrite G. simpl. intuition.
Qed.

Lemma includes_true (l : list string) (x : string) :
  includes l x = true <-> In x l.
Proof.
  unfold includes. rewrite existsb_exists. split.
  - intros [y [Hy E]]. apply String.eqb_eq in E. now subst.
  - intros H. exists x. split; auto. apply String.eqb_refl.
Qed.

(* ================================================================== *)
(** ** Tokens from nodes *)

Lemma fold_set_mode_deprecated {A} (f : Token -> A -> list (string * ModeState))
  (l : list A) (t : Token) :
  t_deprecated (fold_left (fun tok x => set_mode tok (f tok x)) l t)
  = t_deprecated t.
Proof.
  revert t. induction l as [|x r IH]; intros t; simpl; auto.
  now rewrite IH.
Qed.

Section NormaliseFacts.

Variable localeCompare : string -> string -> Z.
Variable wcmatch : list string -> string -> bool.

Lemma registered_has_id path g groups :
  lookup (jsonID_of (removelast path)) groups = Some g ->
  exists g', lookup (jsonID_of (removelast path)) (registered localeCompare path g groups)
             = Some g'
             /\ includes (g_tokens g') (join "." path) = true.
Proof.
  intros Hg. unfold registered.
  destruct (includes (g_tokens g) (join "." path)) eqn:E.
  - exists g. auto.
  - eexists. split; [apply lookup_assign_same|].
    simpl. apply includes_true, in_sort_by, in_or_app. right. now left.
Qed.

Lemma registered_frame path g groups k :
  k <> jsonID_of (removelast path) ->
  lookup k (registered localeCompare path g groups) = lookup k groups.
Proof.
  intros Hk. unfold registered.
  destruct (includes (g_tokens g) (join "." path)); auto.
  now apply lookup_assign_other.
Qed.

(** Every outcome of [tokenFromNode] on a token node whose group is in
    the index: the id has been put in the group's list; the token is
    dropped exactly when the filter says so, on the [$deprecated] the
    token inherits; a token that is returned has that [$deprecated]; and
    the only throw is that of reading the modes of [$extensions]. *)
Lemma tokenFromNode_outcome node path filename ignore groups g :
  isToken node path = true ->
  lookup (jsonID_of (removelast path)) groups = Some g ->
  (ignored wcmatch ignore (inherited_deprecated node g) (join "." path) = true ->
   tokenFromNode localeCompare wcmatch node path filename ignore groups
   = Ret None (registered localeCompare path g groups))
  /\ (ignored wcmatch ignore (inherited_deprecated node g) (join "." path)
      = false ->
      match tokenFromNode localeCompare wcmatch node path filename ignore
              groups with
      | Ret (Some t) gs =>
          gs = registered localeCompare path g groups
          /\ t_deprecated t = inherited_deprecated node g
      | Ret None _ => False
      | Throw _ gs =>
          gs = registered localeCompare path g groups
          /\ getObjMember (Some node) "$extensions" <> None
      | OutOfFuel => False
      end).
Proof.
  intros Htok Hg.
  unfold tokenFromNode, inherited_deprecated, registered.
  rewrite Htok. cbn [negb].
  unfold bind, get, modify, must, ret, throw. rewrite Hg.
  assert (Hd : forall b, nullish (prop "$deprecated" (evaluate_object node)) = b ->
               (if b then g_deprecated g ?? JUndefined
                else prop "$deprecated" (evaluate_object node))
               = prop "$deprecated" (evaluate_object node)
                 ?? g_deprecated g ?? JUndefined).
  { intros b Hb. unfold nullish_or at 2. now rewrite Hb. }
  split; intros Hig;
    (destruct (includes (g_tokens g) (join "." path));
     destruct (truthy (prop "$type" (evaluate_object node)));
     unfold nullish_or at 1 in Hig;
     destruct (nullish (prop "$deprecated" (evaluate_object node))) eqn:En;
     specialize (Hd _ eq_refl);
     cbv beta iota zeta; cbn [t_deprecated t_id]; rewrite Hig;
     try reflexivity;
     (destruct (getObjMember (Some node) "$extensions");
      [|split; [reflexivity|exact Hd]]);
     cbn [t_extensions];
     (destruct (js_member _ "mode") as [modes|];
      [|split; [reflexivity|discriminate]]);
     (destruct (js_keys modes); [|split; [reflexivity|discriminate]]);
     (split; [reflexivity|]);
     rewrite fold_set_mode_deprecated; exact Hd).
Qed.

End NormaliseFacts.

(** C10: a token node that the ignore configuration drops (by its resolved
    [$deprecated] or by its id) makes [tokenFromNode] return [undefined],
    so no token and no mode entry is created; but the id was put in the
    list of the enclosing group before the filter ran, and is in that list
    afterwards. *)
Theorem tokenFromNode_ignored_still_registered
  (localeCompare : string -> string -> Z)
  (wcmatch : list string -> string -> bool)
  (node : Node) (path : list string) (filename : option string)
  (ignore : option Ignore) (groups : Groups) (g : Group) :
  isToken node path = true ->
  lookup (jsonID_of (removelast path)) groups = Some g ->
  ignored wcmatch ignore (inherited_deprecated node g) (join "." path) = true ->
  exists groups' g',
    tokenFromNode localeCompare wcmatch node path filename ignore groups
    = Ret None groups'
    /\ lookup (jsonID_of (removelast path)) groups' = Some g'
    /\ includes (g_tokens g') (join "." path) = true
    /\ (forall k, k <> jsonID_of (removelast path) ->
                  lookup k groups' = lookup k groups).
Proof.
  intros Htok Hg Hig.
  destruct (tokenFromNode_outcome localeCompare wcmatch node path filename
              ignore groups g Htok Hg) as [Hdrop _].
  destruct (registered_has_id localeCompare path g groups Hg) as [g' [Hl Hin]].
  exists (registered localeCompare path g groups), g'.
  repeat split; auto.
  intros k Hk. now apply registered_frame.
Qed.

Lemma tokenFromNode_ignored_still_registered_witness :
  exists groups' g',
    tokenFromNode Examples.no_compare Examples.no_match Examples.legacy_token
      ["old"; "legacy"] None Examples.ignore_deprecated
      Examples.deprecated_groups
    = Ret None groups'
    /\ lookup "#/old" groups' = Some g'
    /\ includes (g_tokens g') "old.legacy" = true
    /\ (forall k, k <> "#/old" ->
                  lookup k groups' = lookup k Examples.deprecated_groups).
Proof.
  apply (tokenFromNode_ignored_still_registered Examples.no_compare
           Examples.no_match Examples.legacy_token ["old"; "legacy"] None
           Examples.ignore_deprecated Examples.deprecated_groups
           (set_group_prop "$deprecated" (JBool true) (emptyGroup "old")));
    reflexivity.
Defined.

(** C9: the [$deprecated] of the token that [tokenFromNode] returns is
    [own ?? group.$deprecated]: the value the token's node declares unless
    that is nullish (absent or [null]), and only then that of the
    enclosing group, which the cascade of [groupFromNode] has filled.  So
    a token that says [$deprecated: false] has [false] whatever its group
    says ([true] included), and only a nullish value inherits.  The filter
    on deprecated tokens reads the same value: a token of its own [false]
    is dropped only if a pattern of [ignore.tokens] matches its id.  The
    only throw is that of reading the modes of [$extensions]. *)
Theorem tokenFromNode_deprecated_own_else_group
  (localeCompare : string -> string -> Z)
  (wcmatch : list string -> string -> bool)
  (node : Node) (path : list string) (filename : option string)
  (ignore : option Ignore) (groups : Groups) (g : Group) :
  isToken node path = true ->
  lookup (jsonID_of (removelast path)) groups = Some g ->
  match tokenFromNode localeCompare wcmatch node path filename ignore groups with
  | Ret (Some t) _ =>
      t_deprecated t
      = prop "$deprecated" (evaluate_object node) ?? g_deprecated g ?? JUndefined
      /\ (prop "$deprecated" (evaluate_object node) = JBool false ->
          t_deprecated t = JBool false)
      /\ (nullish (prop "$deprecated" (evaluate_object node)) = false ->
          t_deprecated t = prop "$deprecated" (evaluate_object node))
      /\ (nullish (prop "$deprecated" (evaluate_object node)) = true ->
          t_deprecated t = g_deprecated g ?? JUndefined)
  | Ret None _ =>
      ignored wcmatch ignore
        (prop "$deprecated" (evaluate_object node) ?? g_deprecated g ?? JUndefined)
        (join "." path) = true
      /\ (prop "$deprecated" (evaluate_object node) = JBool false ->
          exists ig patterns,
            ignore = Some ig /\ ig_tokens ig = Some patterns
            /\ wcmatch patterns (join "." path) = true)
  | Throw _ _ => getObjMember (Some node) "$extensions" <> None
  | OutOfFuel => False
  end.
Proof.
  intros Htok Hg.
  destruct (tokenFromNode_outcome localeCompare wcmatch node path filename
              ignore groups g Htok Hg) as [Hdrop Hkeep].
  unfold inherited_deprecated in Hdrop, Hkeep.
  destruct (ignored wcmatch ignore
              (prop "$deprecated" (evaluate_object node)
               ?? g_deprecated g ?? JUndefined) (join "." path)) eqn:Hig.
  - rewrite (Hdrop eq_refl). split; [reflexivity|]. intros Hown.
    rewrite Hown in Hig. change (JBool false ?? g_deprecated g ?? JUndefined)
      with (JBool false) in Hig.
    unfold ignored in Hig. destruct ignore as [ig|]; [|discriminate].
    cbn [truthy] in Hig. rewrite andb_false_r in Hig. cbn [orb] in Hig.
    destruct (ig_tokens ig) as [patterns|] eqn:Hp; [|discriminate].
    exists ig, patterns. auto.
  - specialize (Hkeep eq_refl).
    destruct (tokenFromNode localeCompare wcmatch node path filename ignore
                groups) as [[t|] gs|e gs|]; try tauto.
    destruct Hkeep as [_ Ht]. rewrite Ht. split; [reflexivity|].
    split; [|split].
    + intros Hown. now rewrite Hown.
    + intros Hn. unfold nullish_or at 1. now rewrite Hn.
    + intros Hn. unfold nullish_or at 1. now rewrite Hn.
Qed.

Lemma tokenFromNode_deprecated_own_else_group_witness :
  match tokenFromNode Examples.no_compare Examples.no_match
          Examples.kept_token ["old"; "kept"] None Examples.ignore_deprecated
          Examples.deprecated_groups with
  | Ret (Some t) _ =>
      t_deprecated t
      = prop "$deprecated" (evaluate_object Examples.kept_token)
        ?? g_deprecated
             (set_group_prop "$deprecated" (JBool true) (emptyGroup "old"))
        ?? JUndefined
      /\ (prop "$deprecated" (evaluate_object Examples.kept_token) = JBool false ->
          t_deprecated t = JBool false)
      /\ (nullish (prop "$deprecated" (evaluate_object Examples.kept_token))
          = false ->
          t_deprecated t = prop "$deprecated" (evaluate_object Examples.kept_token))
      /\ (nullish (prop "$deprecated" (evaluate_object Examples.kept_token))
          = true ->
          t_deprecated t
          = g_deprecated
              (set_group_prop "$deprecated" (JBool true) (emptyGroup "old"))
            ?? JUndefined)
  | Ret None _ =>
      ignored Examples.no_match Examples.ignore_deprecated
        (prop "$deprecated" (evaluate_object Examples.kept_token)
         ?? g_deprecated
              (set_group_prop "$deprecated" (JBool true) (emptyGroup "old"))
         ?? JUndefined)
        (join "." ["old"; "kept"]) = true
      /\ (prop "$deprecated" (evaluate_object Examples.kept_token) = JBool false ->
          exists ig patterns,
            Examples.ignore_deprecated = Some ig /\ ig_tokens ig = Some patterns
            /\ Examples.no_match patterns (join "." ["old"; "kept"]) = true)
  | Throw _ _ => getObjMember (Some Examples.kept_token) "$extensions" <> None
  | OutOfFuel => False
  end.
Proof.
  apply (tokenFromNode_deprecated_own_else_group Examples.no_compare
           Examples.no_match Examples.kept_token ["old"; "kept"] None
           Examples.ignore_deprecated Examples.deprecated_groups
           (set_group_prop "$deprecated" (JBool true) (emptyGroup "old")));
    reflexivity.
Defined.

(** The two tokens of the deprecated group [old]: the one that says
    [$deprecated: false] keeps [false] and passes the filter on deprecated
    tokens; the one that says nothing has the group's [true], and the
    filter drops it. *)
Example own_false_stays_and_absent_inherits :
  match tokenFromNode Examples.no_compare Examples.no_match
          Examples.kept_token ["old"; "kept"] None Examples.ignore_deprecated
          Examples.deprecated_groups with
  | Ret (Some t) _ => t_deprecated t = JBool false
  | _ => False
  end
  /\ match tokenFromNode Examples.no_compare Examples.no_match
             Examples.legacy_token ["old"; "legacy"] None None
             Examples.deprecated_groups with
     | Ret (Some t) _ => t_deprecated t = JBool true
     | _ => False
     end
  /\ match tokenFromNode Examples.no_compare Examples.no_match
             Examples.legacy_token ["old"; "legacy"] None
             Examples.ignore_deprecated Examples.deprecated_groups with
     | Ret None _ => True
     | _ => False
     end.
Proof. vm_compute. repeat split; reflexivity. Qed.

(** The same from the walk of a document: the group [old] says
    [$deprecated: true], its group [sub] says nothing and has [true] from
    the cascade; of the two tokens of [sub], the one that says [false] has
    [false] and the one that says nothing has [true]. *)
Example deprecated_two_groups_up :
  match Inherited.walked with
  | Ret ts groups =>
      option_map g_deprecated (lookup "#/old/sub" groups) = Some (JBool true)
      /\ option_map t_deprecated (lookup "#/old/sub/kept" ts)
         = Some (JBool false)
      /\ option_map t_deprecated (lookup "#/old/sub/legacy" ts)
         = Some (JBool true)
  | _ => False
  end.
Proof. vm_compute. repeat split; reflexivity. Qed.

(* ================================================================== *)
(** ** The order of the group keys *)

Lemma ascii_compare_refl (a : ascii) : Ascii.compare a a = Eq.
Proof. unfold Ascii.compare. apply N.compare_refl. Qed.

Lemma prefix_append (a b : string) : String.prefix a (a ++ b) = true.
Proof.
  induction a as [|c a IH]; simpl; [destruct b; reflexivity|].
  destruct (ascii_dec c c); [exact IH|congruence].
Qed.

Lemma prefix_leb (a b : string) :
  String.prefix a b = true -> String.leb a b = true.
Proof.
  revert b. induction a as [|c a IH]; intros b H.
  - destruct b; reflexivity.
  - destruct b as [|d b]; simpl in H; [discriminate|].
    destruct (ascii_dec c d) as [->|]; [|discriminate].
    specialize (IH b H). unfold String.leb in *. simpl.
    rewrite ascii_compare_refl. exact IH.
Qed.

Lemma prefix_trans (a b c : string) :
  String.prefix a b = true -> String.prefix b c = true ->
  String.prefix a c = true.
Proof.
  revert b c. induction a as [|x a IH]; intros b c H1 H2;
    [destruct c; reflexivity|].
  destruct b as [|y b]; simpl in H1; [discriminate|].
  destruct c as [|z c]; simpl in H2; [discriminate|].
  destruct (ascii_dec x y) as [->|]; [|discriminate].
  destruct (ascii_dec y z) as [->|]; [|discriminate].
  simpl. destruct (ascii_dec z z); [|congruence]. eauto.
Qed.

Lemma compare_trans_lt (a b c : string) :
  String.compare a b = Lt -> String.compare b c = Lt ->
  String.compare a c = Lt.
Proof.
  revert b c. induction a as [|x a IH]; intros [|y b] [|z c]; simpl;
    try congruence.
  unfold Ascii.compare.
  destruct (N.compare_spec (N_of_ascii x) (N_of_ascii y)) as [E1|L1|G1];
    destruct (N.compare_spec (N_of_ascii y) (N_of_ascii z)) as [E2|L2|G2];
    try congruence; intros H1 H2.
  - rewrite E1, E2, N.compare_refl. eauto.
  - rewrite E1. now apply N.compare_lt_iff in L2 as ->.
  - rewrite <- E2. now apply N.compare_lt_iff in L1 as ->.
  - assert (L : (N_of_ascii x < N_of_ascii z)%N) by lia.
    now apply N.compare_lt_iff in L as ->.
Qed.

Lemma string_compare_refl (a : string) : String.compare a a = Eq.
Proof.
  induction a as [|x a IH]; simpl; auto. now rewrite ascii_compare_refl.
Qed.

Lemma leb_trans (a b c : string) :
  String.leb a b = true -> String.leb b c = true -> String.leb a c = true.
Proof.
  unfold String.leb. intros H1 H2.
  destruct (String.compare a b) eqn:E1; try discriminate;
    destruct (String.compare b c) eqn:E2; try discriminate.
  - apply String.compare_eq_iff in E1, E2. subst.
    now rewrite string_compare_refl.
  - apply String.compare_eq_iff in E1. subst. now rewrite E2.
  - apply String.compare_eq_iff in E2. subst. now rewrite E1.
  - now rewrite (compare_trans_lt _ _ _ E1 E2).
Qed.

Lemma ltb_leb (a b : string) : String.ltb a b = true -> String.leb a b = true.
Proof.
  unfold String.ltb, String.leb. destruct (String.compare a b); congruence.
Qed.

Lemma not_ltb_leb (a b : string) :
  String.ltb a b = false -> String.leb b a = true.
Proof.
  unfold String.ltb, String.leb. rewrite (String.compare_antisym b a).
  destruct (String.compare a b); simpl; congruence.
Qed.

Lemma insert_by_ascending (x : string) (l : list string) :
  ascending l -> ascending (insert_by String.ltb x l).
Proof.
  unfold ascending. induction 1 as [|y r Hs IH Hall]; simpl.
  - constructor; constructor.
  - destruct (String.ltb x y) eqn:E.
    + constructor; [constructor; assumption|].
      constructor; [now apply ltb_leb|].
      eapply Forall_impl; [|exact Hall].
      intros z Hz. eapply leb_trans; [apply ltb_leb; eassumption|exact Hz].
    + constructor; [exact IH|].
      apply Forall_forall. intros z Hz. apply in_insert_by in Hz.
      destruct Hz as [->|Hz]; [now apply not_ltb_leb|].
      rewrite Forall_forall in Hall. auto.
Qed.

Lemma sort_by_ascending (l : list string) : ascending (sort_by String.ltb l).
Proof.
  unfold sort_by.
  assert (G : forall acc, ascending acc ->
                ascending (fold_left (fun a x => insert_by String.ltb x a) l acc)).
  { induction l as [|x r IH]; intros acc Ha; simpl; auto.
    apply IH. now apply insert_by_ascending. }
  apply G. constructor.
Qed.

Lemma in_insert_index (k k0 : string) (n : N) (l : list (string * N)) :
  In k0 (map fst (insert_index k n l)) <-> k0 = k \/ In k0 (map fst l).
Proof.
  induction l as [|[k' n'] r IH]; simpl.
  - intuition.
  - destruct (n <? n')%N; simpl; rewrite ?IH; intuition.
Qed.

Lemma in_Object_keys {A} (k : string) (o : list (string * A)) :
  In k (Object_keys o) <-> In k (map fst o).
Proof.
  unfold Object_keys. rewrite in_app_iff, filter_In.
  induction (map fst o) as [|x r IH]; simpl.
  - tauto.
  - destruct (string_dec x k) as [->|N].
    + destruct (Str.canonical_nat k) eqn:E.
      * rewrite in_insert_index. intuition congruence.
      * intuition congruence.
    + assert (N' : k <> x) by congruence.
      destruct (Str.canonical_nat x) eqn:E.
      * rewrite in_insert_index. intuition congruence.
      * intuition congruence.
Qed.

(* ================================================================== *)
(** ** Groups from nodes *)

Lemma cascade_value_ext proj J (T T' : Groups) cur k :
  (forall k', k' <> J -> lookup k' T' = lookup k' T) ->
  cascade_value proj J T' cur k = cascade_value proj J T cur k.
Proof.
  intros H. unfold cascade_value.
  destruct (String.eqb k J) eqn:E.
  - now rewrite andb_false_r.
  - apply String.eqb_neq in E. now rewrite (H k E).
Qed.

Lemma fold_cascade_value_ext proj J (T T' : Groups) l cur :
  (forall k', k' <> J -> lookup k' T' = lookup k' T) ->
  fold_left (cascade_value proj J T') l cur
  = fold_left (cascade_value proj J T) l cur.
Proof.
  intros H. revert cur. induction l as [|k r IH]; intros cur; simpl; auto.
  now rewrite IH, (cascade_value_ext proj J T T' cur k H).
Qed.

(** The loop over the sorted keys only changes the group at [J], and there
    each of the three properties as [cascade_value] says. *)
Lemma cascade_fold J l :
  forall (T : Groups) g0,
    lookup J T = Some g0 ->
    (forall k, k <> J ->
       lookup k (fold_left (fun gs k => cascade_from J k gs) l T) = lookup k T)
    /\ lookup J (fold_left (fun gs k => cascade_from J k gs) l T)
       = Some (mkGroup (g_id g0)
                 (fold_left (cascade_value g_deprecated J T) l (g_deprecated g0))
                 (fold_left (cascade_value g_description J T) l (g_description g0))
                 (g_extensions g0)
                 (fold_left (cascade_value g_type J T) l (g_type g0))
                 (g_tokens g0)).
Proof.
  induction l as [|k r IH]; intros T g0 Hg; simpl.
  - split; auto. rewrite Hg. now destruct g0.
  - unfold cascade_from at 2 4. unfold cascade_value at 2 4 6.
    destruct (Str.startsWith J k && negb (String.eqb k J)) eqn:Ep.
    + rewrite Hg. destruct (lookup k T) as [p|] eqn:Hp.
      * set (g1 := mkGroup (g_id g0) (g_deprecated p ?? g_deprecated g0)
                     (g_description p ?? g_description g0) (g_extensions g0)
                     (g_type p ?? g_type g0) (g_tokens g0)).
        assert (Hfr : forall k', k' <> J -> lookup k' (assign J g1 T) = lookup k' T)
          by (intros; now apply lookup_assign_other).
        destruct (IH (assign J g1 T) g1 (lookup_assign_same J g1 T)) as [F V].
        split.
        -- intros k' Hk'. now rewrite F, Hfr.
        -- rewrite V. simpl.
           now rewrite !(fold_cascade_value_ext _ J T (assign J g1 T)) by exact Hfr.
      * now apply IH.
    + now apply IH.
Qed.

Lemma ascending_tail (l1 l2 : list string) (x : string) :
  ascending (l1 ++ x :: l2) -> Forall (fun y => String.leb x y = true) l2.
Proof.
  unfold ascending. induction l1 as [|a l1 IH]; simpl; intros H.
  - now apply StronglySorted_inv in H.
  - apply StronglySorted_inv in H. tauto.
Qed.

(** In ascending order of the keys, the parent's value is the last one
    taken, when no other group's key lies between the parent's and [J]. *)
Lemma cascade_last proj J (T : Groups) keys pk p init :
  ascending keys -> In pk keys ->
  Str.startsWith J pk = true -> pk <> J ->
  lookup pk T = Some p -> nullish (proj p) = false ->
  (forall k, In k keys -> Str.startsWith J k = true -> k <> J ->
             Str.startsWith pk k = true) ->
  fold_left (cascade_value proj J T) keys init = proj p.
Proof.
  intros Hs Hin Hpre Hne Hp Hnn Hbetween.
  destruct (in_split _ _ Hin) as [l1 [l2 ->]].
  rewrite fold_left_app. simpl.
  assert (Hstep : forall c, cascade_value proj J T c pk = proj p).
  { intros c. unfold cascade_value. rewrite Hpre, Hp.
    apply String.eqb_neq in Hne. rewrite Hne. simpl.
    unfold nullish_or. now rewrite Hnn. }
  rewrite Hstep.
  pose proof (ascending_tail _ _ _ Hs) as Ht.
  assert (Hrest : forall k, In k l2 -> cascade_value proj J T (proj p) k = proj p).
  { intros k Hk. unfold cascade_value.
    destruct (Str.startsWith J k && negb (String.eqb k J)) eqn:Ep; auto.
    apply andb_true_iff in Ep. destruct Ep as [E1 E2].
    apply negb_true_iff, String.eqb_neq in E2.
    assert (Hkp : Str.startsWith pk k = true).
    { apply Hbetween; auto. apply in_or_app. right. now right. }
    rewrite Forall_forall in Ht.
    assert (k = pk).
    { apply String.leb_antisym; [now apply prefix_leb|now apply Ht]. }
    subst k. rewrite Hp. unfold nullish_or. now rewrite Hnn. }
  clear Hs Hin Hbetween Ht. induction l2 as [|k r IH]; simpl; auto.
  rewrite (Hrest k) by now left. apply IH. intros k' Hk'. apply Hrest. now right.
Qed.

Section Override.

(** A property of a group and the name it is set by. *)
Variable proj : Group -> JS.
Variable pname : string.
Hypothesis proj_set : forall n v g,
    proj (set_group_prop n v g) = if String.eqb n pname then v else proj g.
Hypothesis pname_known : includes GROUP_PROPERTIES pname = true.

Lemma override_from_proj J m (T : Groups) g :
  lookup J T = Some g ->
  exists g',
    lookup J (override_from J m T) = Some g'
    /\ proj g' = match fst m with
                 | NameString n =>
                     if String.eqb n pname then evaluate (snd m) else proj g
                 | NameIdentifier _ => proj g
                 end.
Proof.
  intros Hg. unfold override_from. destruct (fst m) as [n|n].
  - destruct (includes GROUP_PROPERTIES n) eqn:Ei.
    + rewrite Hg. eexists. split; [apply lookup_assign_same|apply proj_set].
    + exists g. split; auto.
      destruct (String.eqb n pname) eqn:E; auto.
      apply String.eqb_eq in E. subst n. congruence.
  - exists g. auto.
Qed.

Lemma override_fold J members :
  forall (T : Groups) g,
    lookup J T = Some g ->
    exists g',
      lookup J (fold_left (fun gs m => override_from J m gs) members T)
      = Some g'
      /\ proj g' = match declared pname members with
                   | Some v => v
                   | None => proj g
                   end.
Proof.
  induction members as [|m r IH]; intros T g Hg; simpl.
  - exists g. auto.
  - destruct (override_from_proj J m T g Hg) as [g1 [H1 P1]].
    destruct (IH _ _ H1) as [g2 [H2 P2]].
    exists g2. split; auto. rewrite P2, P1.
    destruct (declared pname r); auto.
    destruct (fst m); auto. destruct (String.eqb value pname); auto.
Qed.

End Override.

Lemma override_frame J members :
  forall (T : Groups) k,
    k <> J ->
    lookup k (fold_left (fun gs m => override_from J m gs) members T)
    = lookup k T.
Proof.
  induction members as [|m r IH]; intros T k Hk; simpl; auto.
  rewrite IH by auto. unfold override_from.
  destruct (fst m); auto. destruct (includes GROUP_PROPERTIES value); auto.
  destruct (lookup J T); auto. now apply lookup_assign_other.
Qed.

Lemma set_group_prop_type n v g :
  g_type (set_group_prop n v g) = if String.eqb n "$type" then v else g_type g.
Proof.
  unfold set_group_prop.
  destruct (String.eqb n "$deprecated") eqn:E1;
    [apply String.eqb_eq in E1; subst; reflexivity|].
  destruct (String.eqb n "$description") eqn:E2;
    [apply String.eqb_eq in E2; subst; reflexivity|].
  destruct (String.eqb n "$extensions") eqn:E3;
    [apply String.eqb_eq in E3; subst; reflexivity|].
  destruct (String.eqb n "$type"); reflexivity.
Qed.

Lemma set_group_prop_description n v g :
  g_description (set_group_prop n v g)
  = if String.eqb n "$description" then v else g_description g.
Proof.
  unfold set_group_prop.
  destruct (String.eqb n "$deprecated") eqn:E1;
    [apply String.eqb_eq in E1; subst; reflexivity|].
  destruct (String.eqb n "$description") eqn:E2; [reflexivity|].
  destruct (String.eqb n "$extensions"); [reflexivity|].
  destruct (String.eqb n "$type"); reflexivity.
Qed.

Lemma set_group_prop_deprecated n v g :
  g_deprecated (set_group_prop n v g)
  = if String.eqb n "$deprecated" then v else g_deprecated g.
Proof.
  unfold set_group_prop.
  destruct (String.eqb n "$deprecated") eqn:E1; [reflexivity|].
  destruct (String.eqb n "$description"); [reflexivity|].
  destruct (String.eqb n "$extensions"); [reflexivity|].
  destruct (String.eqb n "$type"); reflexivity.
Qed.

Lemma in_keys_assign {A} (k k0 : string) (v : A) (o : list (string * A)) :
  In k0 (map fst (assign k v o)) -> k0 = k \/ In k0 (map fst o).
Proof.
  induction o as [|[k' v'] r IH]; simpl.
  - intuition.
  - destruct (String.eqb k k') eqn:E; simpl.
    + apply String.eqb_eq in E. subst. intuition.
    + intuition.
Qed.

Lemma string_app_assoc (a b c : string) :
  ((a ++ b) ++ c)%string = (a ++ b ++ c)%string.
Proof. induction a as [|ch a IH]; simpl; [reflexivity|now rewrite IH]. Qed.

Lemma concat_snoc (sep : string) (init : list string) (x : string) :
  init <> [] ->
  String.concat sep (init ++ [x])
  = (String.concat sep init ++ sep ++ x)%string.
Proof.
  induction init as [|a [|b r] IH]; intros H; [congruence| |].
  - reflexivity.
  - change (String.concat sep ((a :: b :: r) ++ [x]))
      with (a ++ sep ++ String.concat sep ((b :: r) ++ [x]))%string.
    rewrite IH by discriminate.
    change (String.concat sep (a :: b :: r))
      with (a ++ sep ++ String.concat sep (b :: r))%string.
    now rewrite !string_app_assoc.
Qed.

Lemma append_same_left (c s : string) : (c ++ s)%string = c -> s = ""%string.
Proof.
  induction c as [|ch c IH]; simpl; intros H; auto.
  injection H. auto.
Qed.

(** The key of a group's parent is a proper prefix of the group's key. *)
Lemma parent_key_prefix (init : list string) (x : string) :
  (init = [] -> x <> ""%string) ->
  Str.startsWith (jsonID_of (init ++ [x])) (jsonID_of init) = true
  /\ jsonID_of init <> jsonID_of (init ++ [x]).
Proof.
  intros Hx. unfold Str.startsWith, jsonID_of, join.
  destruct init as [|a r].
  - simpl. split.
    + destruct x; reflexivity.
    + intros H. injection H as H. symmetry in H. now apply Hx.
  - rewrite concat_snoc by discriminate.
    generalize (String.concat "/" (a :: r)). intros c. simpl. split.
    + apply prefix_append.
    + intros H. injection H as H. symmetry in H.
      apply append_same_left in H. discriminate.
Qed.

(** C4 (as amended): [groupFromNode] on the node of a group whose parent
    group is in the index, every other key of the index that is a string
    prefix of the group's key being a string prefix of the parent's key
    too, changes no other group and leaves in the group, for each of
    [$type], [$description] and [$deprecated], the value its node declares
    when it declares one, and otherwise the parent's value whenever that is
    not nullish. *)
Theorem groupFromNode_cascade (members : list (Name * Node))
  (init : list string) (x : string) (groups : Groups) (p : Group) :
  (init = [] -> x <> ""%string) ->
  lookup (jsonID_of init) groups = Some p ->
  (forall k, In k (map fst groups) ->
             Str.startsWith (jsonID_of (init ++ [x])) k = true ->
             k <> jsonID_of (init ++ [x]) ->
             Str.startsWith (jsonID_of init) k = true) ->
  exists g groups',
    groupFromNode (NObject members) (init ++ [x]) groups = Ret (Some g) groups'
    /\ lookup (jsonID_of (init ++ [x])) groups' = Some g
    /\ (forall k, k <> jsonID_of (init ++ [x]) ->
                  lookup k groups' = lookup k groups)
    /\ inherits (declared "$type" members) (g_type p) (g_type g)
    /\ inherits (declared "$description" members) (g_description p)
         (g_description g)
    /\ inherits (declared "$deprecated" members) (g_deprecated p)
         (g_deprecated g).
Proof.
  intros Hx Hp Hbetween.
  destruct (parent_key_prefix init x Hx) as [Hpre Hne].
  set (J := jsonID_of (init ++ [x])) in *.
  set (pk := jsonID_of init) in *.
  set (T1 := if has J groups then groups
             else assign J (emptyGroup (join "." (init ++ [x]))) groups).
  assert (Hf1 : forall k, k <> J -> lookup k T1 = lookup k groups).
  { intros k Hk. unfold T1. destruct (has J groups); auto.
    now apply lookup_assign_other. }
  assert (Hg0 : exists g0, lookup J T1 = Some g0).
  { unfold T1, has. destruct (lookup J groups) as [g0|] eqn:E.
    - exists g0. exact E.
    - eexists. apply lookup_assign_same. }
  destruct Hg0 as [g0 Hg0].
  assert (Hk1 : forall k, In k (map fst T1) -> k = J \/ In k (map fst groups)).
  { intros k. unfold T1. destruct (has J groups); auto.
    apply in_keys_assign. }
  set (keys := sort_by String.ltb (Object_keys T1)).
  assert (Hp1 : lookup pk T1 = Some p) by (rewrite Hf1; auto).
  assert (Hin : In pk keys).
  { unfold keys. apply in_sort_by, in_Object_keys.
    eapply lookup_in_keys; eauto. }
  assert (Hb : forall k, In k keys -> Str.startsWith J k = true -> k <> J ->
                         Str.startsWith pk k = true).
  { intros k Hk Hs Hn. unfold keys in Hk.
    apply in_sort_by, in_Object_keys, Hk1 in Hk.
    destruct Hk as [->|Hk]; [congruence|]. now apply Hbetween. }
  destruct (cascade_fold J keys T1 g0 Hg0) as [Hf2 Hg1].
  set (T2 := fold_left (fun gs k => cascade_from J k gs) keys T1) in *.
  set (T3 := fold_left (fun gs m => override_from J m gs) members T2).
  destruct (override_fold g_type "$type" set_group_prop_type eq_refl
              J members T2 _ Hg1) as [g [Hg Ht]].
  destruct (override_fold g_description "$description"
              set_group_prop_description eq_refl J members T2 _ Hg1)
    as [g' [Hg' Hd]].
  destruct (override_fold g_deprecated "$deprecated"
              set_group_prop_deprecated eq_refl J members T2 _ Hg1)
    as [g'' [Hg'' He]].
  fold T3 in Hg, Hg', Hg''.
  assert (g' = g) by congruence. assert (g'' = g) by congruence. subst g' g''.
  exists g, T3. repeat split.
  - change (Ret (lookup J T3) T3 = Ret (Some g) T3). now rewrite Hg.
  - exact Hg.
  - intros k Hk. unfold T3. rewrite override_frame by auto.
    unfold T2. rewrite Hf2 by auto. now apply Hf1.
  - unfold inherits. rewrite Ht. destruct (declared "$type" members); auto.
    intros Hnn. simpl.
    apply (cascade_last g_type J T1 keys pk p); auto. apply sort_by_ascending.
  - unfold inherits. rewrite Hd. destruct (declared "$description" members); auto.
    intros Hnn. simpl.
    apply (cascade_last g_description J T1 keys pk p); auto.
    apply sort_by_ascending.
  - unfold inherits. rewrite He. destruct (declared "$deprecated" members); auto.
    intros Hnn. simpl.
    apply (cascade_last g_deprecated J T1 keys pk p); auto.
    apply sort_by_ascending.
Qed.

Lemma groupFromNode_cascade_witness :
  exists g groups',
    groupFromNode (NObject [Examples.member "$description" (NString "blues")])
      (["a"] ++ ["b"]) Examples.typed_groups
    = Ret (Some g) groups'
    /\ lookup (jsonID_of (["a"] ++ ["b"])) groups' = Some g
    /\ (forall k, k <> jsonID_of (["a"] ++ ["b"]) ->
                  lookup k groups' = lookup k Examples.typed_groups)
    /\ inherits
         (declared "$type" [Examples.member "$description" (NString "blues")])
         (g_type (set_group_prop "$type" (JStr "color") (emptyGroup "a")))
         (g_type g)
    /\ inherits
         (declared "$description"
            [Examples.member "$description" (NString "blues")])
         (g_description (set_group_prop "$type" (JStr "color") (emptyGroup "a")))
         (g_description g)
    /\ inherits
         (declared "$deprecated"
            [Examples.member "$description" (NString "blues")])
         (g_deprecated (set_group_prop "$type" (JStr "color") (emptyGroup "a")))
         (g_deprecated g).
Proof.
  apply (groupFromNode_cascade
           [Examples.member "$description" (NString "blues")] ["a"] "b"
           Examples.typed_groups
           (set_group_prop "$type" (JStr "color") (emptyGroup "a"))).
  - discriminate.
  - reflexivity.
  - intros k [<-|[<-|[<-|[]]]] Hs Hn; try reflexivity.
    now contradiction Hn.
Defined.

(** Why the keys between the two are kept out: the test [startsWith] of the
    loop takes the key of a sibling for that of an ancestor.  With the root
    ([$type: "dimension"]) and the group [color] ([$type: "color"]) in the
    index, the group [colors], which declares nothing, is given the
    [$type] of [color] and not that of its parent. *)
Example sibling_key_is_taken_for_an_ancestor :
  Str.startsWith "#/colors" "#/color" = true
  /\ Str.startsWith "#/" "#/color" = false
  /\ match groupFromNode (NObject []) ["colors"]
             [ ("#/", set_group_prop "$type" (JStr "dimension") (emptyGroup ""));
               ("#/color",
                set_group_prop "$type" (JStr "color") (emptyGroup "color")) ] with
     | Ret (Some g) _ => g_type g = JStr "color"
     | _ => False
     end.
Proof. vm_compute. repeat split; reflexivity. Qed.

(** C4 as stated fails.  With groups [a] ([$type: "color"]), [a.b]
    ([$type: null]) and [a.b.c] (no [$type] of its own) indexed in walk
    order, [a.b.c] has the [$type] of [a], not that of its parent: a
    nullish value of the parent is stepped over.  And an ancestor's value is
    copied over a value the group already has: re-indexed with a node that
    declares nothing, [a.b] goes from ["dimension"] to ["color"]. *)
Lemma cascade_is_not_parent_or_nullish_only :
  match Examples.null_parent_walk [] with
  | Ret (Some c) groups =>
      declared "$type" [] = None
      /\ option_map g_type (lookup "#/a/b" groups) = Some JNull
      /\ g_type c = JStr "color"
  | _ => False
  end
  /\ option_map g_type (lookup "#/a/b" Examples.typed_groups)
     = Some (JStr "dimension")
  /\ match groupFromNode (NObject []) ["a"; "b"] Examples.typed_groups with
     | Ret (Some g) _ => g_type g = JStr "color"
     | _ => False
     end.
Proof. vm_compute. repeat split; reflexivity. Qed.

(* ================================================================== *)
(** ** The resolver leaves the token set to its caller *)

Lemma keeps_ret {A} (a : A) : keeps_tokens (ret a).
Proof. intros w. reflexivity. Qed.

Lemma keeps_throw {A} (e : Exn) : keeps_tokens (@throw World A e).
Proof. intros w. reflexivity. Qed.

Lemma keeps_get : keeps_tokens (@get World).
Proof. intros w. reflexivity. Qed.

Lemma keeps_must {A} (at_ : string) (o : option A) :
  keeps_tokens (@must World A at_ o).
Proof. destruct o; [apply keeps_ret|apply keeps_throw]. Qed.

Lemma keeps_logger_error (logger : Logger) (e : LogEntry) :
  keeps_tokens (logger_error logger e).
Proof. intros w. unfold logger_error. destruct (raises logger e); reflexivity. Qed.

Lemma keeps_set_refs (f : ModeRefMap -> ModeRefMap) :
  keeps_tokens (modify (set_refs_of f)).
Proof. intros w. reflexivity. Qed.

Lemma keeps_bind {A B} (c : M World A) (k : A -> M World B) :
  keeps_tokens c -> (forall a, keeps_tokens (k a)) -> keeps_tokens (bind c k).
Proof.
  intros Hc Hk w. unfold bind. specialize (Hc w).
  destruct (c w) as [a w'|e w'|]; auto.
  specialize (Hk a w'). destruct (k a w'); congruence.
Qed.

Create HintDb keeps.
#[local] Hint Resolve keeps_ret keeps_throw keeps_get keeps_must
  keeps_logger_error keeps_set_refs : keeps.

Ltac keeps_step :=
  match goal with
  | |- keeps_tokens (bind _ _) => apply keeps_bind; [|intros ?]
  | |- keeps_tokens (if ?b then _ else _) => destruct b
  | |- keeps_tokens (match ?x with _ => _ end) => destruct x
  | |- keeps_tokens _ => solve [auto with keeps]
  end.

Section ResolveFacts.

Variable logger : Logger.
Variable token : Token.
Variable mode : string.

Lemma resolveInner_keeps fuel :
  forall alias refChain,
    keeps_tokens (resolveInner logger token mode fuel alias refChain).
Proof.
  induction fuel as [|fuel IH]; intros alias refChain.
  - intros w. exact I.
  - cbn [resolveInner]. repeat keeps_step; apply IH.
Qed.

Lemma resolveString_keeps fuel value node expectedTypes path :
  keeps_tokens
    (resolveString logger token mode fuel value node expectedTypes path).
Proof.
  unfold resolveString.
  destruct (negb (isAlias (JStr value))).
  - repeat keeps_step.
  - apply keeps_bind; [apply resolveInner_keeps|intros r].
    repeat keeps_step.
Qed.

Lemma run_keys_keeps keys calls :
  (forall key call, lookup key calls = Some call -> keeps_tokens call) ->
  forall value, keeps_tokens (run_keys keys calls value).
Proof.
  intros Hc. induction keys as [|key r IH]; intros value; cbn [run_keys].
  - apply keeps_ret.
  - destruct (lookup key calls) as [call|] eqn:E; [|apply IH].
    apply keeps_bind; [eapply Hc; eassumption|intros x; apply IH].
Qed.

Lemma traverseAndResolve_keeps fuel :
  forall value node expectedTypes path,
    keeps_tokens
      (traverseAndResolve logger token mode fuel value node expectedTypes path).
Proof.
  fix IH 1. intros value node expectedTypes path.
  destruct value as [| |b|n|s|l|o]; cbn [traverseAndResolve];
    try apply keeps_ret; try apply keeps_throw.
  - apply resolveString_keeps.
  - apply keeps_bind; [|intros; apply keeps_ret].
    generalize 0%nat.
    induction l as [|x r IHl]; intros i.
    + apply keeps_ret.
    + apply keeps_bind.
      * destruct (negb (truthy x)); [apply keeps_ret|].
        apply keeps_bind; [apply keeps_must|intros; apply IH].
      * intros x'. apply keeps_bind; [apply IHl|intros; apply keeps_ret].
  - destruct (slots_of expectedTypes) as [slots|]; [|apply keeps_ret].
    apply keeps_bind; [|intros; apply keeps_ret].
    apply run_keys_keeps.
    induction o as [|[key x] r IHo]; intros k call Hk.
    + discriminate.
    + cbn [lookup] in Hk. destruct (String.eqb k key).
      * injection Hk as <-. apply IH.
      * eapply IHo. exact Hk.
Qed.

End ResolveFacts.

(* ================================================================== *)
(** ** What becomes of the resolved value *)

(** C7: once the value of mode [m] of a token has been resolved to
    [finalValue], the mode's [$value] is [finalValue] if that is truthy and
    the value it had otherwise; for mode ['.'] the root [$value] is then
    the mode's, for another mode it is what it was. *)
Theorem resolveMode_replaces_iff_truthy (logger : Logger) (token : Token)
  (mode : string) (fuel : nat) (key : string) (w w1 : World) (tok : Token)
  (state : ModeState) (finalValue : JS) :
  lookup key (tokens w) = Some tok ->
  lookup mode (t_mode tok) = Some state ->
  traverseAndResolve logger token mode fuel (m_value state)
    (aliasEntry_node token)
    (if truthy (t_type tok) then Some [t_type tok] else None)
    [t_jsonID tok; "$value"] w
  = Ret finalValue w1 ->
  exists w2 tok2 state2,
    resolveMode logger token mode fuel key w = Ret tt w2
    /\ lookup key (tokens w2) = Some tok2
    /\ lookup mode (t_mode tok2) = Some state2
    /\ m_value state2 = (if truthy finalValue then finalValue else m_value state)
    /\ (mode = "." -> t_value tok2 = m_value state2)
    /\ (mode <> "." -> t_value tok2 = t_value tok).
Proof.
  intros Htok Hstate Hres.
  pose proof (traverseAndResolve_keeps logger token mode fuel (m_value state)
                (aliasEntry_node token)
                (if truthy (t_type tok) then Some [t_type tok] else None)
                [t_jsonID tok; "$value"] w) as Hk.
  rewrite Hres in Hk.
  set (state' := if truthy finalValue then set_m_value state finalValue
                 else state).
  set (tok' := set_mode tok (assign mode state' (t_mode tok))).
  set (tok'' := if String.eqb mode "." then set_value tok' (m_value state')
                else tok').
  exists (set_tokens_of (assign key tok'') w1), tok'', state'.
  assert (Hm : lookup mode (t_mode tok'') = Some state').
  { unfold tok'', tok'. destruct (String.eqb mode "."); cbn;
      apply lookup_assign_same. }
  repeat split.
  - unfold resolveMode, bind, get, must, ret, modify.
    rewrite Htok, Hstate, Hres, Hk, Htok, Hstate. reflexivity.
  - cbn. apply lookup_assign_same.
  - exact Hm.
  - unfold state'. destruct (truthy finalValue); reflexivity.
  - intros ->. unfold tok''. cbn. reflexivity.
  - intros Hne. apply String.eqb_neq in Hne. unfold tok''. rewrite Hne.
    reflexivity.
Qed.

Lemma resolveMode_replaces_iff_truthy_witness :
  exists w2 tok2 state2,
    resolveMode collecting
      (Examples.token_at "#/color/danger" Examples.simple_world) "." 10
      "#/color/danger" Examples.simple_world
    = Ret tt w2
    /\ lookup "#/color/danger" (tokens w2) = Some tok2
    /\ lookup "." (t_mode tok2) = Some state2
    /\ m_value state2
       = (if truthy (JStr "#ff0000") then JStr "#ff0000"
          else m_value (Examples.state_at "#/color/danger" "."
                          Examples.simple_world))
    /\ ("." = "." -> t_value tok2 = m_value state2)
    /\ ("." <> "." ->
        t_value tok2
        = t_value (Examples.token_at "#/color/danger" Examples.simple_world)).
Proof.
  eapply (resolveMode_replaces_iff_truthy collecting
            (Examples.token_at "#/color/danger" Examples.simple_world) "." 10
            "#/color/danger" Examples.simple_world _
            (Examples.token_at "#/color/danger" Examples.simple_world)
            (Examples.state_at "#/color/danger" "." Examples.simple_world)
            (JStr "#ff0000")).
  - reflexivity.
  - reflexivity.
  - lazy. reflexivity.
Defined.

(** The falsy side on a document: [y] is an alias of [x], whose value is
    0; the alias resolves, the ref chain is recorded, and [y] keeps the
    alias as its value. *)
Example falsy_result_keeps_the_alias :
  match resolveAliases collecting 10 Examples.nought_world with
  | Ret _ w =>
      log w = []
      /\ lookup "." (modeRefMap w)
         = Some (Some [("#/y/$value",
                        mkRef (Some Examples.file) ["#/x/$value"])])
      /\ m_value (Examples.state_at "#/y" "." w) = JStr "{x}"
      /\ t_value (Examples.token_at "#/y" w) = JStr "{x}"
  | _ => False
  end.
Proof. vm_compute. repeat split; reflexivity. Qed.

(** Nothing in [resolveAliases] catches an exception: one thrown while a
    mode's value is traversed ends the turn of the loop for that mode, and
    one thrown by the first turn of a loop ends the loop. *)
Lemma resolveMode_throws (logger : Logger) (token : Token) (mode : string)
  (fuel : nat) (key : string) (w w' : World) (tok : Token)
  (state : ModeState) (e : Exn) :
  lookup key (tokens w) = Some tok ->
  lookup mode (t_mode tok) = Some state ->
  traverseAndResolve logger token mode fuel (m_value state)
    (aliasEntry_node token)
    (if truthy (t_type tok) then Some [t_type tok] else None)
    [t_jsonID tok; "$value"] w
  = Throw e w' ->
  resolveMode logger token mode fuel key w = Throw e w'.
Proof.
  intros Htok Hstate Hres.
  unfold resolveMode, bind, get, must, ret.
  now rewrite Htok, Hstate, Hres.
Qed.

Lemma for_of_throws {A} (x : A) (r : list A) (body : A -> M World unit)
  (w w' : World) (e : Exn) :
  body x w = Throw e w' -> for_of (x :: r) body w = Throw e w'.
Proof. intros H. cbn [for_of]. unfold bind. now rewrite H. Qed.

(* ================================================================== *)
(** ** Chains of aliases *)

Lemma hop_same_ref (ts : Tokens) (mode a a' : string) :
  aliasToRef a = aliasToRef a' -> hop ts mode a = hop ts mode a'.
Proof. intros H. unfold hop. now rewrite H. Qed.

Lemma hop_ref (ts : Tokens) (mode a r b : string) :
  hop ts mode a = Some (r, b) -> aliasToRef a = Some r.
Proof.
  unfold hop. destruct (aliasToRef a) as [ref|]; [|discriminate].
  destruct (lookup _ ts) as [next|]; [|discriminate].
  destruct (lookup mode _) as [state|]; [|discriminate].
  destruct (m_originalValue state) as [| | | |s| |]; try discriminate.
  destruct (isAlias (JStr s)); [|discriminate].
  intros H. now injection H as -> _.
Qed.

Lemma hops_S (ts : Tokens) (mode : string) (n : nat) (a : string) :
  hops ts mode (S n) a
  = match hop ts mode a with
    | Some (ref, next) =>
        match hops ts mode n next with
        | Some (refs, reached) => Some (ref :: refs, reached)
        | None => None
        end
    | None => None
    end.
Proof. reflexivity. Qed.

Lemma hops_snoc (ts : Tokens) (mode : string) (i : nat) : forall a,
  hops ts mode (S i) a
  = match hops ts mode i a with
    | Some (rs, x) =>
        match hop ts mode x with
        | Some (r, b) => Some (rs ++ [r], b)
        | None => None
        end
    | None => None
    end.
Proof.
  induction i as [|i IH]; intros a.
  - cbn [hops]. destruct (hop ts mode a) as [[r b]|]; reflexivity.
  - rewrite (hops_S ts mode (S i) a), (hops_S ts mode i a).
    destruct (hop ts mode a) as [[r b]|]; [|reflexivity].
    rewrite IH. destruct (hops ts mode i b) as [[rs x]|]; [|reflexivity].
    cbn [app]. destruct (hop ts mode x) as [[r' b']|]; reflexivity.
Qed.

Lemma hops_before (ts : Tokens) (mode a : string) (n : nat) :
  forall refs reached,
    hops ts mode n a = Some (refs, reached) ->
    forall i, (i <= n)%nat -> exists rs x, hops ts mode i a = Some (rs, x).
Proof.
  induction n as [|n IH]; intros refs reached H i Hi.
  - replace i with 0%nat by lia. now exists refs, reached.
  - destruct (Nat.eq_dec i (S n)) as [->|Hne]; [now exists refs, reached|].
    rewrite hops_snoc in H.
    destruct (hops ts mode n a) as [[rs x]|] eqn:E; [|discriminate].
    apply (IH rs x eq_refl i). lia.
Qed.

Lemma hops_revisited (ts : Tokens) (mode a ref : string) (n : nat) :
  forall refs reached,
    hops ts mode n a = Some (refs, reached) ->
    In ref refs ->
    exists j rs x b,
      (S j <= n)%nat
      /\ hops ts mode j a = Some (rs, x)
      /\ hop ts mode x = Some (ref, b)
      /\ hops ts mode (S j) a = Some (rs ++ [ref], b).
Proof.
  induction n as [|n IH]; intros refs reached H Hin.
  - cbn in H. injection H as <- _. contradiction.
  - pose proof H as H'. rewrite hops_snoc in H.
    destruct (hops ts mode n a) as [[rs x]|] eqn:E; [|discriminate].
    destruct (hop ts mode x) as [[r b]|] eqn:Eh; [|discriminate].
    injection H as <- <-.
    apply in_app_or in Hin. destruct Hin as [Hin|[<-|[]]].
    + destruct (IH rs x eq_refl Hin) as (j & rs' & x' & b' & Hj & H1 & H2 & H3).
      exists j, rs', x', b'. repeat split; try assumption. lia.
    + exists n, rs, x, b. repeat split; try assumption. lia.
Qed.

(* ================================================================== *)
(** ** Diagnostics of the resolver *)

Section Diagnostics.

Variable logger : Logger.
Variable token : Token.
Variable mode : string.



(** C2 (as amended): at an alias site whose target is not in the token
    set, the resolver hands the logger the message [Could not resolve alias
    ...] and the run then ends with an exception, the logger's or the
    [TypeError] of reading the missing token: neither the token set nor
    the [modeRefMap] has changed, so the site keeps its value and no ref
    chain is recorded for it. *)
Theorem unresolved_alias_aborts (fuel : nat) (alias ref : string)
  (node : option Node) (expectedTypes : option (list JS)) (path : list string)
  (w : World) :
  isAlias (JStr alias) = true ->
  aliasToRef alias = Some ref ->
  lookup (drop_value_suffix ref) (tokens w) = None ->
  traverseAndResolve logger token mode (S fuel) (JStr alias) node
    expectedTypes path w
  = Throw
      (if raises logger
            (mkEntry ("Could not resolve alias " ++ alias ++ ".")%string
               (aliasEntry_node token))
       then Raised (mkEntry ("Could not resolve alias " ++ alias ++ ".")%string
                      (aliasEntry_node token))
       else TypeError "nextToken.mode")
      (mkWorld (tokens w) (modeRefMap w)
         (log w ++ [mkEntry ("Could not resolve alias " ++ alias ++ ".")%string
                      (aliasEntry_node token)])).
Proof.
  intros Ha Hr Hl.
  cbn [traverseAndResolve]. unfold resolveString. rewrite Ha. cbn [negb].
  cbn [resolveInner]. rewrite Hr. cbn [includes existsb].
  unfold bind, get, must, ret, modify, logger_error.
  rewrite Hl. cbn [is_some].
  destruct (raises logger _); reflexivity.
Qed.

(** From the alias [alias] with [pre] already in the chain, [n] hops reach
    an alias whose ref is in the chain by then: if the logger throws on
    the report of a circular alias, [resolveInner] ends with that throw, a
    single entry added to the log. *)
Lemma resolveInner_cycle (n : nat) :
  forall (fuel : nat) (alias : string) (pre refs : list string)
         (reached ref : string) (w : World),
    raises logger (mkEntry "Circular alias detected." (aliasEntry_node token))
    = true ->
    hops (tokens w) mode n alias = Some (refs, reached) ->
    aliasToRef reached = Some ref ->
    In ref (pre ++ refs) ->
    (n < fuel)%nat ->
    resolveInner logger token mode fuel alias pre w
    = Throw (Raised (mkEntry "Circular alias detected." (aliasEntry_node token)))
        (mkWorld (tokens w) (modeRefMap w)
           (log w ++ [mkEntry "Circular alias detected." (aliasEntry_node token)])).
Proof.
  induction n as [|n IH]; intros fuel alias pre refs reached ref w Hl Hh Hr Hin Hf.
  - cbn in Hh. injection Hh as <- <-. rewrite app_nil_r in Hin.
    destruct fuel as [|fuel]; [lia|]. cbn [resolveInner]. rewrite Hr.
    apply includes_true in Hin. rewrite Hin.
    unfold bind, logger_error. now rewrite Hl.
  - cbn [hops] in Hh. unfold hop in Hh.
    destruct (aliasToRef alias) as [r|] eqn:Er; [|discriminate].
    destruct (lookup (drop_value_suffix r) (tokens w)) as [next|] eqn:En;
      [|discriminate].
    destruct (lookup mode (t_mode next)) as [state|] eqn:Es; [|discriminate].
    destruct (m_originalValue state) as [| | | |s| |] eqn:Eo; try discriminate.
    destruct (isAlias (JStr s)) eqn:Ea; [|discriminate].
    destruct (hops (tokens w) mode n s) as [[refs' reached']|] eqn:Eh;
      [|discriminate].
    injection Hh as <- <-.
    destruct fuel as [|fuel]; [lia|]. cbn [resolveInner]. rewrite Er.
    destruct (includes pre r) eqn:Ei.
    + unfold bind, logger_error. now rewrite Hl.
    + unfold bind, get, must, ret. rewrite En. cbn [is_some].
      rewrite Es, Eo, Ea.
      apply (IH fuel s (pre ++ [r]) refs' reached' ref w Hl Eh Hr); [|lia].
      rewrite <- app_assoc. exact Hin.
Qed.

(** From an alias of a set of aliases each of which has a hop into the
    set, with a logger that returns from the report of a circular alias,
    the recursion of [resolveInner] gets deeper than any bound. *)
Lemma resolveInner_goes_round (ts : Tokens) (on_cycle : string -> Prop) :
  (forall x, on_cycle x ->
     exists r b, hop ts mode x = Some (r, b) /\ on_cycle b) ->
  raises logger (mkEntry "Circular alias detected." (aliasEntry_node token))
  = false ->
  forall (fuel : nat) (x : string) (pre : list string) (w : World),
    on_cycle x -> tokens w = ts ->
    resolveInner logger token mode fuel x pre w = OutOfFuel.
Proof.
  intros Hclosed Hl. induction fuel as [|fuel IH]; intros x pre w Hx Hw;
    [reflexivity|].
  destruct (Hclosed x Hx) as (r & b & Hh & Hb).
  unfold hop in Hh.
  destruct (aliasToRef x) as [ref|] eqn:Er; [|discriminate].
  destruct (lookup (drop_value_suffix ref) ts) as [next|] eqn:En;
    [|discriminate].
  destruct (lookup mode (t_mode next)) as [state|] eqn:Es; [|discriminate].
  destruct (m_originalValue state) as [| | | |s| |] eqn:Eo; try discriminate.
  destruct (isAlias (JStr s)) eqn:Ea; [|discriminate].
  injection Hh as -> ->.
  cbn [resolveInner]. rewrite Er.
  destruct (includes pre r).
  - unfold bind, get, must, ret, logger_error. rewrite Hl.
    cbn [tokens]. rewrite Hw, En. cbn [is_some]. rewrite Es, Eo, Ea.
    apply IH; [exact Hb|reflexivity].
  - unfold bind, get, must, ret. rewrite Hw, En. cbn [is_some].
    rewrite Es, Eo, Ea. apply IH; [exact Hb|exact Hw].
Qed.

Lemma revisit_closes_the_chain (ts : Tokens) (n : nat) (alias : string)
  (refs : list string) (reached ref : string) :
  hops ts mode n alias = Some (refs, reached) ->
  aliasToRef reached = Some ref ->
  In ref refs ->
  forall x,
    (exists i rs, (i <= n)%nat /\ hops ts mode i alias = Some (rs, x)) ->
    exists r b,
      hop ts mode x = Some (r, b)
      /\ exists i rs, (i <= n)%nat /\ hops ts mode i alias = Some (rs, b).
Proof.
  intros Hh Hr Hin x (i & rs & Hi & Hx).
  destruct (Nat.eq_dec i n) as [->|Hne].
  - (* the alias reached: its ref was passed before *)
    rewrite Hh in Hx. injection Hx as <- <-.
    destruct (hops_revisited ts mode alias ref n refs reached Hh Hin)
      as (j & rs' & y & b & Hj & Hy & Hhop & Hnext).
    exists ref, b. split.
    + rewrite (hop_same_ref ts mode reached y); [exact Hhop|].
      rewrite Hr. symmetry. exact (hop_ref _ _ _ _ _ Hhop).
    + exists (S j), (rs' ++ [ref]). split; assumption.
  - destruct (hops_before ts mode alias n refs reached Hh (S i)) as (rs' & b & Hb);
      [lia|].
    pose proof Hb as Hb'. rewrite hops_snoc, Hx in Hb.
    destruct (hop ts mode x) as [[r b']|] eqn:Eh; [|discriminate].
    injection Hb as <- <-.
    exists r, b'. split; [reflexivity|].
    exists (S i), (rs ++ [r]). split; [lia|exact Hb'].
Qed.

(** C1 (as amended): at an alias site, when the chain of original values
    that starts at the alias comes, after [n] hops, to an alias whose ref
    it has already passed, the resolver reports [Circular alias
    detected.] and what follows is the logger's doing.  If the logger
    throws on that report, the site ends with that throw under every
    bound above [n] on the depth of the recursion: since the site was
    entered the token set and the [modeRefMap] have not changed and the
    log has the one entry more.  If the logger returns from that report,
    the site ends under no bound on the depth of the recursion:
    [resolveInner] goes past the cycle point and round the cycle, one call
    in the other. *)
Theorem circular_alias_is_left_to_the_logger (n : nat)
  (alias : string) (refs : list string) (reached ref : string)
  (node : option Node) (expectedTypes : option (list JS)) (path : list string)
  (w : World) :
  isAlias (JStr alias) = true ->
  hops (tokens w) mode n alias = Some (refs, reached) ->
  aliasToRef reached = Some ref ->
  In ref refs ->
  (raises logger (mkEntry "Circular alias detected." (aliasEntry_node token))
   = true ->
   forall fuel, (n < fuel)%nat ->
     traverseAndResolve logger token mode fuel (JStr alias) node expectedTypes
       path w
     = Throw (Raised (mkEntry "Circular alias detected." (aliasEntry_node token)))
         (mkWorld (tokens w) (modeRefMap w)
            (log w
             ++ [mkEntry "Circular alias detected." (aliasEntry_node token)])))
  /\ (raises logger (mkEntry "Circular alias detected." (aliasEntry_node token))
      = false ->
      forall fuel,
        traverseAndResolve logger token mode fuel (JStr alias) node
          expectedTypes path w
        = OutOfFuel).
Proof.
  intros Ha Hh Hr Hin. split.
  - intros Hl fuel Hf.
    cbn [traverseAndResolve]. unfold resolveString. rewrite Ha. cbn [negb].
    unfold bind at 1.
    now rewrite (resolveInner_cycle n fuel alias [] refs reached ref w).
  - intros Hl fuel.
    cbn [traverseAndResolve]. unfold resolveString. rewrite Ha. cbn [negb].
    unfold bind at 1.
    rewrite (resolveInner_goes_round (tokens w)
               (fun x => exists i rs,
                  (i <= n)%nat /\ hops (tokens w) mode i alias = Some (rs, x))
               (revisit_closes_the_chain (tokens w) n alias refs reached ref
                  Hh Hr Hin)
               Hl fuel alias [] w); [reflexivity| |reflexivity].
    exists 0%nat, []. split; [lia|reflexivity].
Qed.

End Diagnostics.



Lemma unresolved_alias_aborts_witness :
  traverseAndResolve collecting (Examples.token_at "#/m" Examples.missing_world)
    "." 1 (JStr "{nope}") (Some (NString "{nope}")) (Some [JStr "color"])
    ["#/m"; "$value"] Examples.missing_world
  = Throw (TypeError "nextToken.mode")
      (mkWorld (tokens Examples.missing_world)
         (modeRefMap Examples.missing_world)
         (log Examples.missing_world
            ++ [mkEntry "Could not resolve alias {nope}."
                  (Some (NString "{nope}"))])).
Proof.
  apply (unresolved_alias_aborts collecting
           (Examples.token_at "#/m" Examples.missing_world) "." 0 "{nope}"
           "#/nope/$value" (Some (NString "{nope}")) (Some [JStr "color"])
           ["#/m"; "$value"] Examples.missing_world);
    reflexivity.
Defined.

(** C2 as stated fails.  In a document whose first token is an alias of a
    token that does not exist, [resolveAliases] throws, with a logger that
    returns as with one that throws, and the alias after it, whose target
    exists, is left unresolved. *)
Lemma unresolved_alias_throws_and_stops :
  match resolveAliases collecting 10 Examples.missing_world with
  | Throw e w =>
      e = TypeError "nextToken.mode"
      /\ logged "Could not resolve alias {nope}." w = true
      /\ t_value (Examples.token_at "#/color/danger" w) = JStr "{color.red}"
  | _ => False
  end
  /\ match resolveAliases throwing 10 Examples.missing_world with
     | Throw e w =>
         e = Raised (mkEntry "Could not resolve alias {nope}."
                       (Some (NString "{nope}")))
         /\ t_value (Examples.token_at "#/color/danger" w) = JStr "{color.red}"
     | _ => False
     end.
Proof. vm_compute. repeat split; reflexivity. Qed.

Lemma circular_alias_is_left_to_the_logger_witness :
  traverseAndResolve throwing (Examples.token_at "#/a" Examples.cycle_world)
    "." 3 (JStr "{b}") (Some (NString "{b}")) None ["#/a"; "$value"]
    Examples.cycle_world
  = Throw (Raised (mkEntry "Circular alias detected." (Some (NString "{b}"))))
      (mkWorld (tokens Examples.cycle_world) (modeRefMap Examples.cycle_world)
         (log Examples.cycle_world
            ++ [mkEntry "Circular alias detected." (Some (NString "{b}"))]))
  /\ traverseAndResolve collecting
       (Examples.token_at "#/a" Examples.cycle_world)
       "." 1000 (JStr "{b}") (Some (NString "{b}")) None ["#/a"; "$value"]
       Examples.cycle_world
     = OutOfFuel.
Proof.
  split.
  - apply (proj1 (circular_alias_is_left_to_the_logger throwing
                    (Examples.token_at "#/a" Examples.cycle_world) "." 2 "{b}"
                    ["#/b/$value"; "#/a/$value"] "{b}" "#/b/$value"
                    (Some (NString "{b}")) None ["#/a"; "$value"]
                    Examples.cycle_world eq_refl eq_refl eq_refl
                    (or_introl eq_refl))
             eq_refl 3%nat).
    lia.
  - exact (proj2 (circular_alias_is_left_to_the_logger collecting
                    (Examples.token_at "#/a" Examples.cycle_world) "." 2 "{b}"
                    ["#/b/$value"; "#/a/$value"] "{b}" "#/b/$value"
                    (Some (NString "{b}")) None ["#/a"; "$value"]
                    Examples.cycle_world eq_refl eq_refl eq_refl
                    (or_introl eq_refl))
             eq_refl 1000%nat).
Defined.

(** The whole run on the cycle, with a logger that throws. *)
Example cycle_run_with_throwing_logger :
  match resolveAliases throwing 3 Examples.cycle_world with
  | Throw e w =>
      e = Raised (mkEntry "Circular alias detected." (Some (NString "{b}")))
      /\ map message (log w) = ["Circular alias detected."]
      /\ t_value (Examples.token_at "#/a" w) = JStr "{b}"
      /\ t_value (Examples.token_at "#/b" w) = JStr "{a}"
  | _ => False
  end.
Proof. vm_compute. repeat split; reflexivity. Qed.

(** With a logger that returns, the chain [a -> b -> a] is followed
    without end: each turn reports, pushes the ref and goes on. *)
Lemma collecting_cycle_goes_on (token : Token) (fuel : nat) :
  forall (chain : list string) (w : World),
    tokens w = tokens Examples.cycle_world ->
    resolveInner collecting token "." fuel "{a}" chain w = OutOfFuel
    /\ resolveInner collecting token "." fuel "{b}" chain w = OutOfFuel.
Proof.
  induction fuel as [|fuel IH]; intros chain w Hw; [split; reflexivity|].
  split.
  - cbn [resolveInner].
    change (aliasToRef "{a}") with (Some "#/a/$value").
    unfold bind, get, must, ret, logger_error. cbn [raises collecting].
    destruct (includes chain "#/a/$value");
      cbn [tokens]; rewrite Hw;
      change (lookup (drop_value_suffix "#/a/$value") (tokens Examples.cycle_world))
        with (Some (Examples.token_at "#/a" Examples.cycle_world));
      cbn [is_some];
      change (lookup "." (t_mode (Examples.token_at "#/a" Examples.cycle_world)))
        with (Some (Examples.state_at "#/a" "." Examples.cycle_world));
      change (m_originalValue (Examples.state_at "#/a" "." Examples.cycle_world))
        with (JStr "{b}");
      change (isAlias (JStr "{b}")) with true;
      cbv beta iota; apply IH; first [exact Hw|reflexivity].
  - cbn [resolveInner].
    change (aliasToRef "{b}") with (Some "#/b/$value").
    unfold bind, get, must, ret, logger_error. cbn [raises collecting].
    destruct (includes chain "#/b/$value");
      cbn [tokens]; rewrite Hw;
      change (lookup (drop_value_suffix "#/b/$value") (tokens Examples.cycle_world))
        with (Some (Examples.token_at "#/b" Examples.cycle_world));
      cbn [is_some];
      change (lookup "." (t_mode (Examples.token_at "#/b" Examples.cycle_world)))
        with (Some (Examples.state_at "#/b" "." Examples.cycle_world));
      change (m_originalValue (Examples.state_at "#/b" "." Examples.cycle_world))
        with (JStr "{a}");
      change (isAlias (JStr "{a}")) with true;
      cbv beta iota; apply IH; first [exact Hw|reflexivity].
Qed.

(** The statement is of the site, not of the run: in a run, the sites
    before the cycle have been resolved by the time of the throw.  On
    [{ c: "#fff", d: "{c}", a: "{b}", b: "{a}" }], with a logger that
    throws, the run ends at the site of [a] with [d] already given the
    value of [c] and its ref chain recorded. *)
Example cycle_behind_a_resolved_alias :
  t_value (Examples.token_at "#/d" Late.world) = JStr "{c}"
  /\ match resolveAliases throwing 3 Late.world with
     | Throw e w =>
         e = Raised (mkEntry "Circular alias detected." (Some (NString "{b}")))
         /\ map message (log w) = ["Circular alias detected."]
         /\ t_value (Examples.token_at "#/d" w) = JStr "#fff"
         /\ t_value (Examples.token_at "#/a" w) = JStr "{b}"
         /\ modeRefMap w <> modeRefMap Late.world
     | _ => False
     end.
Proof. vm_compute. repeat split; try reflexivity. discriminate. Qed.

(** With a logger that returns, the third call of [resolveInner] at the
    site of [a] finds the ref of [b] in the chain, reports, and goes on as
    if nothing had been found: it pushes the ref a second time and calls
    [resolveInner] on the next alias. *)
Lemma returning_logger_passes_the_cycle_point (fuel : nat) :
  resolveInner collecting (Examples.token_at "#/a" Examples.cycle_world) "."
    (S (S (S fuel))) "{b}" [] Examples.cycle_world
  = resolveInner collecting (Examples.token_at "#/a" Examples.cycle_world) "."
      fuel "{a}" ["#/b/$value"; "#/a/$value"; "#/b/$value"]
      (mkWorld (tokens Examples.cycle_world) (modeRefMap Examples.cycle_world)
         [mkEntry "Circular alias detected." (Some (NString "{b}"))]).
Proof. reflexivity. Qed.

(** C1 as stated fails.  On [{ a: "{b}", b: "{a}" }] the report of the
    circular alias is made in the third call of [resolveInner]: a logger
    that throws ends the run there.  With a logger whose [error] returns,
    the traversal does not stop at that point: the third call goes on to a
    fourth, the report in the log, and whatever the bound on the depth of
    the recursion, [resolveInner] is still calling itself when the bound is
    reached.  Nothing in [resolveInner] returns after the report; such a
    run ends only when the engine gives out (the [RangeError] of a full
    call stack), and not at the cycle point. *)
Lemma returning_logger_goes_past_the_cycle_point :
  match resolveAliases throwing 3 Examples.cycle_world with
  | Throw e w =>
      e = Raised (mkEntry "Circular alias detected." (Some (NString "{b}")))
      /\ map message (log w) = ["Circular alias detected."]
  | _ => False
  end
  /\ ~ (exists depth,
          resolveInner collecting
            (Examples.token_at "#/a" Examples.cycle_world) "."
            (S (S (S depth))) "{b}" [] Examples.cycle_world
          <> resolveInner collecting
               (Examples.token_at "#/a" Examples.cycle_world) "."
               depth "{a}" ["#/b/$value"; "#/a/$value"; "#/b/$value"]
               (mkWorld (tokens Examples.cycle_world)
                  (modeRefMap Examples.cycle_world)
                  [mkEntry "Circular alias detected." (Some (NString "{b}"))]))
  /\ ~ (exists depth,
          resolveAliases collecting depth Examples.cycle_world <> OutOfFuel).
Proof.
  split; [vm_compute; split; reflexivity|]. split.
  - intros [depth H]. apply H. apply returning_logger_passes_the_cycle_point.
  - intros [fuel H]. apply H. clear H.
    cbv - [resolveInner].
    match goal with
    | |- context [resolveInner ?l ?t ?m fuel ?a ?c ?w] =>
        assert (E : resolveInner l t m fuel a c w = OutOfFuel)
          by (apply (collecting_cycle_goes_on t fuel c w); reflexivity);
        rewrite E
    end.
    reflexivity.
Qed.

(* ================================================================== *)
(** ** Runs of the two passes on the example documents *)

(** C6, on the code: [x] is 5 and, in mode [dark], 0; [y] is an alias of
    [x].  Resolved in mode [dark], [y] is given 5, the root value of [x],
    and not the 0 that [x] has in that mode. *)
Theorem falsy_mode_value_falls_back_to_root :
  m_value (Examples.state_at "#/x" "dark" Examples.zero_world) = JNum 0
  /\ t_value (Examples.token_at "#/x" Examples.zero_world) = JNum 5
  /\ match traverseAndResolve collecting
             (Examples.token_at "#/y" Examples.zero_world) "dark" 10
             (JStr "{x}") (Some (NString "{x}")) (Some [JStr "number"])
             ["#/y"; "$value"] Examples.zero_world with
     | Ret v _ => v = JNum 5
     | _ => False
     end
  /\ match resolveAliases collecting 10 Examples.zero_world with
     | Ret _ w =>
         log w = []
         /\ m_value (Examples.state_at "#/x" "dark" w) = JNum 0
         /\ m_value (Examples.state_at "#/y" "dark" w) = JNum 5
     | _ => False
     end.
Proof. vm_compute. repeat split; reflexivity. Qed.

(** C3, on the code.  On the simple alias [color.danger -> color.red],
    linking throws at the promotion of mode ['.']: it looks the token up
    under the id of the alias site, [#/color/danger/$value], which is no
    key of the token set.  And when [color.danger] is an alias in mode
    [dark] only, linking writes [aliasOf], [aliasChain] and
    [dependencies] on the root of the token, and nothing on the mode. *)
Theorem promotion_uses_site_id_and_modes_write_root
  (localeCompare : string -> string -> Z) (logger : Logger) :
  match Examples.resolve_then_link localeCompare logger 10
          Examples.simple_world with
  | Throw e w =>
      e = TypeError "tokens[jsonID].aliasChain"
      /\ log w = []
      /\ lookup "#/color/danger/$value" (tokens w) = None
      /\ map fst (tokens w) = ["#/color/red"; "#/color/danger"]
  | _ => False
  end
  /\ match Examples.resolve_then_link localeCompare logger 10
             Examples.dark_world with
     | Ret _ w =>
         m_value (Examples.state_at "#/color/danger" "." w) = JStr "#000000"
         /\ t_aliasOf (Examples.token_at "#/color/danger" w) = Some "color.red"
         /\ t_aliasChain (Examples.token_at "#/color/danger" w)
            = Some [Some "color.red"]
         /\ t_dependencies (Examples.token_at "#/color/danger" w)
            = Some ["#/color/red/$value"]
         /\ m_aliasOf (Examples.state_at "#/color/danger" "dark" w) = None
         /\ m_aliasOf (Examples.state_at "#/color/danger" "." w) = None
     | _ => False
     end.
Proof. vm_compute. repeat split; reflexivity. Qed.

(** C8, on the code.  On the shadow whose colour is an alias of
    [color.red], resolution records the site [#/shadow1/$value/color] and
    linking throws in the partial-alias block, at [sourceNode.type]: the
    source node of the mode is the [$value] node already, so asking it for
    a member [$value] gives [undefined].  The token is left without
    [partialAliasOf]; the mode has the empty object the block starts from. *)
Theorem shadow_partial_alias_throws
  (localeCompare : string -> string -> Z) (logger : Logger) :
  match Examples.resolve_then_link localeCompare logger 10
          (Examples.shadow_world localeCompare) with
  | Throw e w =>
      e = TypeError "sourceNode.type"
      /\ log w = []
      /\ lookup "." (modeRefMap w)
         = Some (Some [("#/shadow1/$value/color",
                        mkRef (Some Examples.file) ["#/color/red/$value"])])
      /\ t_partialAliasOf (Examples.token_at "#/shadow1" w) = None
      /\ m_partialAliasOf (Examples.state_at "#/shadow1" "." w)
         = Some (PNode false [])
  | _ => False
  end.
Proof. vm_compute. repeat split; reflexivity. Qed.

(* ================================================================== *)
(** ** References and members *)

Lemma replace_all_app c by_ a b :
  Str.replace_all c by_ (a ++ b)%string
  = (Str.replace_all c by_ a ++ Str.replace_all c by_ b)%string.
Proof.
  induction a as [|d a IH]; simpl; [reflexivity|].
  destruct (Ascii.eqb c d); simpl; rewrite IH; [|reflexivity].
  now rewrite string_app_assoc.
Qed.

Lemma replace_all_other c by_ d r :
  c <> d ->
  Str.replace_all c by_ (String d r) = String d (Str.replace_all c by_ r).
Proof.
  intros H. cbn [Str.replace_all].
  destruct (Ascii.eqb_spec c d); [contradiction|reflexivity].
Qed.

Lemma escape_pointer_cons c s :
  escape_pointer (String c s) = (escape_unit c ++ escape_pointer s)%string.
Proof.
  unfold escape_pointer, escape_unit.
  destruct (Ascii.eqb_spec c "~") as [->|H1]; [reflexivity|].
  destruct (Ascii.eqb_spec c "/") as [->|H2]; [reflexivity|].
  destruct (Ascii.eqb_spec c ".") as [->|H3]; [reflexivity|].
  rewrite !replace_all_other by congruence. reflexivity.
Qed.

Lemma escape_pointer_injective a : forall b,
  escape_pointer a = escape_pointer b -> a = b.
Proof.
  induction a as [|c a IH]; intros [|d b] H.
  - reflexivity.
  - rewrite escape_pointer_cons in H. unfold escape_unit in H.
    destruct (Ascii.eqb d "~"), (Ascii.eqb d "/"), (Ascii.eqb d "."); discriminate H.
  - rewrite escape_pointer_cons in H. unfold escape_unit in H.
    destruct (Ascii.eqb c "~"), (Ascii.eqb c "/"), (Ascii.eqb c "."); discriminate H.
  - rewrite !escape_pointer_cons in H. unfold escape_unit in H.
    destruct (Ascii.eqb_spec c "~") as [->|C1];
      [|destruct (Ascii.eqb_spec c "/") as [->|C2];
        [|destruct (Ascii.eqb_spec c ".") as [->|C3]]];
    (destruct (Ascii.eqb_spec d "~") as [->|D1];
      [|destruct (Ascii.eqb_spec d "/") as [->|D2];
        [|destruct (Ascii.eqb_spec d ".") as [->|D3]]]);
    simpl in H; try discriminate H;
    try (injection H as H; f_equal; now apply IH);
    try (injection H as E H; congruence);
    try (injection H as E H; subst; f_equal; now apply IH).
Qed.

Lemma aliasToRef_escape alias ref :
  aliasToRef alias = Some ref ->
  ref = ("#/" ++ escape_pointer (parseAlias alias) ++ "/$value")%string.
Proof.
  unfold aliasToRef. destruct (String.eqb _ _); [discriminate|].
  intros H. injection H as <-. reflexivity.
Qed.

Lemma string_length_app (a b : string) :
  String.length (a ++ b)%string = (String.length a + String.length b)%nat.
Proof. induction a as [|c a IH]; simpl; [reflexivity|now rewrite IH]. Qed.

Lemma append_same_right (s a b : string) :
  (a ++ s = b ++ s)%string -> a = b.
Proof.
  revert b. induction a as [|c a IH]; intros [|d b] H; simpl in H.
  - reflexivity.
  - exfalso. apply (f_equal String.length) in H. simpl in H.
    rewrite string_length_app in H. lia.
  - exfalso. apply (f_equal String.length) in H. simpl in H.
    rewrite string_length_app in H. lia.
  - injection H as -> H. f_equal. now apply IH.
Qed.

(** X1: two aliases that [aliasToRef] turns into the same reference name the
    same token: the escaping of the id ([~] to [~0], [/] to [~1], then [.]
    to [/]) loses nothing. *)
Theorem aliasToRef_injective (a b ref : string) :
  aliasToRef a = Some ref -> aliasToRef b = Some ref ->
  parseAlias a = parseAlias b.
Proof.
  intros Ha Hb. apply aliasToRef_escape in Ha. apply aliasToRef_escape in Hb.
  rewrite Ha in Hb. simpl in Hb. injection Hb as Hb.
  apply append_same_right in Hb. now apply escape_pointer_injective.
Qed.

Lemma rev_string_app a b :
  Str.rev_string (a ++ b)%string = (Str.rev_string b ++ Str.rev_string a)%string.
Proof.
  induction a as [|c a IH]; simpl.
  - induction (Str.rev_string b) as [|d r IHr]; simpl; [reflexivity|now rewrite <- IHr].
  - rewrite IH. now rewrite string_app_assoc.
Qed.

Lemma substring_app_left a b :
  String.substring 0 (String.length a) (a ++ b)%string = a.
Proof.
  induction a as [|c a IH]; simpl.
  - destruct b; reflexivity.
  - now rewrite IH.
Qed.

Lemma drop_value_suffix_app x :
  drop_value_suffix (x ++ "/$value")%string = x.
Proof.
  unfold drop_value_suffix, Str.endsWith.
  rewrite rev_string_app, prefix_append.
  rewrite string_length_app. simpl String.length.
  replace (String.length x + 7 - 7)%nat with (String.length x) by lia.
  apply substring_app_left.
Qed.

Lemma evaluate_NObject ms :
  evaluate (NObject ms)
  = JObj (fold_left
            (fun acc m => assign (name_text (fst m)) (evaluate (snd m)) acc)
            ms []).
Proof.
  simpl. f_equal. generalize (@nil (string * JS)).
  induction ms as [|[k v] r IH]; intros acc; simpl; [reflexivity|apply IH].
Qed.

Lemma lookup_fold_assign k ms : forall acc,
  lookup k (fold_left
              (fun acc m => assign (name_text (fst m)) (evaluate (snd m)) acc)
              ms acc)
  = match last_member k ms with
    | Some v => Some (evaluate v)
    | None => lookup k acc
    end.
Proof.
  induction ms as [|m r IH]; intros acc; simpl; [reflexivity|].
  rewrite IH. destruct (last_member k r); [reflexivity|].
  destruct (String.eqb_spec (name_text (fst m)) k) as [->|N].
  - apply lookup_assign_same.
  - apply lookup_assign_other. congruence.
Qed.

Lemma last_member_none k ms :
  ~ In k (map (fun m => name_text (fst m)) ms) -> last_member k ms = None.
Proof.
  induction ms as [|m r IH]; simpl; intros H; [reflexivity|].
  rewrite IH by tauto.
  destruct (String.eqb_spec (name_text (fst m)) k); [tauto|reflexivity].
Qed.

Lemma last_member_plain k ms :
  plain_members ms -> last_member k ms = member_named ms k.
Proof.
  unfold plain_members, member_named. intros [Hs Hd].
  induction ms as [|[n v] r IH]; simpl in *; [reflexivity|].
  apply andb_prop in Hs. destruct Hs as [Hn Hs].
  inversion Hd as [|? ? Hx Hd']; subst.
  destruct n as [s|s]; [|discriminate Hn]. simpl in *.
  destruct (String.eqb_spec s k) as [->|N].
  - now rewrite last_member_none.
  - rewrite IH by assumption.
    destruct (find _ r); reflexivity.
Qed.

Lemma getObjMember_member_named ms k :
  getObjMember (Some (NObject ms)) k = member_named ms k.
Proof. reflexivity. Qed.

(** X2: when the names of an object node are strings, none of them twice,
    [getObjMember] and [evaluate] agree on every key: the property of the
    evaluated object is the evaluation of the member [getObjMember]
    returns, and [undefined] exactly when it returns none. *)
Theorem getObjMember_agrees_with_evaluate
  (members : list (Name * Node)) (key : string) :
  plain_members members ->
  prop key (evaluate_object (NObject members))
  = match getObjMember (Some (NObject members)) key with
    | Some v => evaluate v
    | None => JUndefined
    end.
Proof.
  intros H. unfold evaluate_object. rewrite evaluate_NObject. unfold prop.
  rewrite lookup_fold_assign, getObjMember_member_named.
  rewrite (last_member_plain key members H).
  destruct (member_named members key); reflexivity.
Qed.

Lemma index_members_last k v i ms : forall i0 acc,
  lookup k (snd (index_members ms (i0, acc))) = Some (v, i) ->
  (lookup k acc = Some (v, i)
   /\ forall j v', nth_error ms j <> Some (NameString k, v'))
  \/ (i0 <= i
      /\ nth_error ms (i - i0) = Some (NameString k, v)
      /\ forall j v', i - i0 < j -> nth_error ms j <> Some (NameString k, v')).
Proof.
  induction ms as [|[n x] r IH]; intros i0 acc H.
  - left. split; [exact H|]. intros [|j] v'; discriminate.
  - simpl in H. destruct (IH _ _ H) as [[Hl Hn]|(Hle & Hnth & Hn)].
    + destruct n as [s|s]; simpl in Hl.
      * destruct (String.eqb_spec k s) as [->|N].
        -- rewrite lookup_assign_same in Hl. injection Hl as <- <-.
           right. split; [lia|]. rewrite Nat.sub_diag. split; [reflexivity|].
           intros [|j] v' Hj; [lia|]. apply Hn.
        -- rewrite lookup_assign_other in Hl by congruence.
           left. split; [exact Hl|].
           intros [|j] v'; simpl; [congruence|apply Hn].
      * left. split; [exact Hl|].
        intros [|j] v'; simpl; [congruence|apply Hn].
    + right. split; [lia|].
      replace (i - i0) with (S (i - S i0)) by lia. split; [exact Hnth|].
      intros [|j] v' Hj; [lia|]. simpl. apply Hn. lia.
Qed.

(** X3: an entry of [getObjMembers] is the value node of the last member with
    that string name, together with the index of that member. *)
Theorem getObjMembers_last (members : list (Name * Node)) (key : string)
  (value : Node) (index : nat) :
  lookup key (getObjMembers (NObject members)) = Some (value, index) ->
  nth_error members index = Some (NameString key, value)
  /\ forall j v, index < j -> nth_error members j <> Some (NameString key, v).
Proof.
  intros H. apply index_members_last in H.
  destruct H as [[Hl _]|(_ & Hnth & Hn)]; [discriminate Hl|].
  rewrite Nat.sub_0_r in Hnth, Hn. split; assumption.
Qed.

Lemma index_members_defined k ms : forall i0 acc,
  is_some (lookup k (snd (index_members ms (i0, acc))))
  = is_some (member_named ms k) || is_some (lookup k acc).
Proof.
  unfold member_named.
  induction ms as [|[n x] r IH]; intros i0 acc; simpl; [reflexivity|].
  change (fold_left _ r ?st) with (index_members r st).
  rewrite IH. destruct n as [s|s]; simpl.
  - destruct (String.eqb_spec s k) as [->|N]; simpl.
    + rewrite lookup_assign_same. simpl. apply orb_true_r.
    + rewrite lookup_assign_other by congruence. reflexivity.
  - reflexivity.
Qed.

(** X4: [getObjMembers] has an entry for exactly the keys for which
    [getObjMember] finds a member; on a node that is not an object neither
    finds anything. *)
Theorem getObjMembers_same_keys (node : Node) (key : string) :
  is_some (lookup key (getObjMembers node))
  = is_some (getObjMember (Some node) key).
Proof.
  destruct node; try reflexivity.
  unfold getObjMembers. change (fold_left _ members ?st) with (index_members members st).
  rewrite index_members_defined, getObjMember_member_named. simpl.
  apply orb_false_r.
Qed.

Lemma findNode_below_app p : forall q node,
  p <> [] ->
  findNode_below (p ++ q) node
  = match findNode_below p node with
    | Some n => findNode n q
    | None => None
    end.
Proof.
  induction p as [|k p IH]; intros q node Hp; [congruence|].
  simpl.
  destruct (match node with
            | NObject members => member_named members k
            | NArray elements => element_at elements (parseInt10 k)
            | _ => None
            end) as [next|]; [|reflexivity].
  destruct p as [|k' p].
  - simpl. destruct q; reflexivity.
  - change ((k' :: p) ++ q) with (k' :: (p ++ q)) at 1. cbv iota beta.
    change (k' :: (p ++ q)) with ((k' :: p) ++ q).
    apply IH. discriminate.
Qed.

(** X5: [findNode] along a path is [findNode] along its first part and then
    along the rest, from the node found; it is [undefined] as soon as a
    part finds nothing.  An empty path finds the node itself. *)
Theorem findNode_app (node : AnyNode) (p q : list string) :
  findNode node (p ++ q)
  = match findNode node p with
    | Some n => findNode n q
    | None => None
    end.
Proof.
  destruct p as [|k p]; [reflexivity|].
  unfold findNode at 1 3. change ((k :: p) ++ q) with (k :: (p ++ q)).
  cbv iota beta. change (k :: (p ++ q)) with ((k :: p) ++ q).
  destruct node; try reflexivity; apply findNode_below_app; discriminate.
Qed.

Lemma is_digit_uint_head d :
  match NilZero.string_of_uint d with
  | String c _ => Str.is_digit c = true /\ is_space c = false
                  /\ c <> "-"%char /\ c <> "+"%char
  | EmptyString => d = Decimal.Nil
  end.
Proof.
  destruct d; simpl; try reflexivity;
    (split; [reflexivity|split; [reflexivity|split; discriminate]]).
Qed.

Lemma leading_digits_empty d rest :
  match rest with String c _ => Str.is_digit c = false | EmptyString => True end ->
  leading_digits (NilEmpty.string_of_uint d ++ rest)%string
  = NilEmpty.string_of_uint d.
Proof.
  intros Hr.
  induction d; cbn [NilEmpty.string_of_uint append leading_digits];
    try (match goal with
         | |- context [Str.is_digit ?c] =>
             replace (Str.is_digit c) with true by reflexivity
         end; now rewrite IHd).
  destruct rest as [|c r]; cbn [leading_digits]; [reflexivity|now rewrite Hr].
Qed.

Lemma leading_digits_uint d rest :
  match rest with String c _ => Str.is_digit c = false | EmptyString => True end ->
  leading_digits (NilZero.string_of_uint d ++ rest)%string
  = NilZero.string_of_uint d.
Proof.
  intros Hr. destruct d; try (now apply leading_digits_empty).
  cbn [NilZero.string_of_uint append leading_digits].
  replace (Str.is_digit "0") with true by reflexivity.
  destruct rest as [|c r]; cbn [leading_digits]; [reflexivity|now rewrite Hr].
Qed.

Lemma digits_value_empty d : forall acc,
  Str.digits_value (N.of_nat acc) (NilEmpty.string_of_uint d)
  = N.of_nat (Nat.of_uint_acc d acc).
Proof.
  induction d; intros acc; cbn [NilEmpty.string_of_uint Str.digits_value Nat.of_uint_acc];
    try reflexivity;
    rewrite <- IHd; f_equal; rewrite Nat.tail_mul_spec;
    match goal with
    | |- context [N_of_ascii ?c] =>
        let v := eval vm_compute in (N_of_ascii c) in
        change (N_of_ascii c) with v
    end; lia.
Qed.

Lemma digits_value_uint d :
  Str.digits_value 0 (NilZero.string_of_uint d) = N.of_nat (Nat.of_uint d).
Proof.
  destruct d; try (apply (digits_value_empty _ 0)). reflexivity.
Qed.

Lemma parseInt10_of_nat i rest :
  match rest with String c _ => Str.is_digit c = false | EmptyString => True end ->
  parseInt10 (Str.of_nat i ++ rest)%string = Some (Z.of_nat i).
Proof.
  intros Hr. unfold parseInt10, Str.of_nat.
  pose proof (is_digit_uint_head (Nat.to_uint i)) as Hh.
  pose proof (leading_digits_uint (Nat.to_uint i) rest Hr) as Hl.
  pose proof (digits_value_uint (Nat.to_uint i)) as Hv.
  destruct (NilZero.string_of_uint (Nat.to_uint i)) as [|c r] eqn:E.
  - exfalso. rewrite Hh in E. discriminate E.
  - destruct Hh as (Hd & Hs & Hm & Hp).
    cbn [append skip_spaces]. rewrite Hs.
    assert (Hsig : match String c (r ++ rest) with
                   | String "-" r0 => (true, r0)
                   | String "+" r0 => (false, r0)
                   | _ => (false, String c (r ++ rest))
                   end = (false, String c (r ++ rest))).
    { destruct c as [[] [] [] [] [] [] [] []]; try reflexivity; congruence. }
    rewrite Hsig. cbn [fst snd].
    change (String c (r ++ rest)%string) with (String c r ++ rest)%string.
    rewrite Hl. cbn [Str.is_empty].
    rewrite Hv, DecimalNat.Unsigned.of_to. f_equal. lia.
Qed.

(** X6: below an array node, a key that is the decimal spelling of an index
    finds the element at that index, and nothing when the index is out of
    range. *)
Theorem findNode_array_index (elements : list Node) (i : nat) :
  findNode (AValue (NArray elements)) [Str.of_nat i]
  = option_map AValue (nth_error elements i).
Proof.
  unfold findNode, findNode_below.
  pose proof (parseInt10_of_nat i EmptyString I) as H.
  replace (Str.of_nat i ++ "")%string with (Str.of_nat i) in H.
  2:{ generalize (Str.of_nat i). intros s. induction s; simpl; congruence. }
  rewrite H. unfold element_at.
  destruct (Z.ltb_spec (Z.of_nat i) 0); [lia|].
  rewrite Nat2Z.id. destruct (nth_error elements i); reflexivity.
Qed.

(* ================================================================== *)
(** ** Merging *)

Lemma mergeObjects_loop a_members b_members :
  mergeObjects (NObject a_members) (NObject b_members)
  = merge_members b_members a_members.
Proof.
  simpl. generalize a_members.
  induction b_members as [|next rest IH]; intros obj; [reflexivity|].
  simpl. destruct (fst next); [|reflexivity].
  destruct (findIndex value obj); [|apply IH].
  destruct (snd next); try apply IH.
  destruct (nth_error obj n); [|reflexivity].
  destruct (mergeObjects _ _); [reflexivity|apply IH].
Qed.

Lemma Node_nested_ind (P : Node -> Prop)
  (HO : forall ms, Forall (fun m => P (snd m)) ms -> P (NObject ms))
  (HA : forall es, Forall P es -> P (NArray es))
  (HS : forall s, P (NString s))
  (HN : forall z, P (NNumber z))
  (HB : forall b, P (NBoolean b))
  (HU : P NNull) :
  forall n, P n.
Proof.
  fix IH 1. intros [ms|es|s|z|b|].
  - apply HO. induction ms as [|m r IHr]; constructor; [apply IH|exact IHr].
  - apply HA. induction es as [|e r IHr]; constructor; [apply IH|exact IHr].
  - apply HS.
  - apply HN.
  - apply HB.
  - apply HU.
Qed.

Lemma findIndex_some key obj : forall i,
  findIndex key obj = Some i ->
  exists v, nth_error obj i = Some (NameString key, v)
            /\ member_named obj key = Some v.
Proof.
  unfold member_named.
  induction obj as [|[n x] r IH]; intros i H; simpl in H; [discriminate|].
  destruct n as [s|s]; simpl.
  - destruct (String.eqb_spec s key) as [->|N].
    + injection H as <-. exists x. split; reflexivity.
    + destruct (findIndex key r) as [j|] eqn:E; [|discriminate].
      injection H as <-. destruct (IH j eq_refl) as (v & Hn & Hm).
      exists v. split; assumption.
  - destruct (findIndex key r) as [j|] eqn:E; [|discriminate].
    injection H as <-. destruct (IH j eq_refl) as (v & Hn & Hm).
    exists v. split; assumption.
Qed.

Lemma findIndex_none key obj :
  findIndex key obj = None -> member_named obj key = None.
Proof.
  unfold member_named.
  induction obj as [|[n x] r IH]; intros H; simpl in *; [reflexivity|].
  destruct n as [s|s]; simpl in *.
  - destruct (String.eqb s key); [discriminate|].
    destruct (findIndex key r); [discriminate|]. now apply IH.
  - destruct (findIndex key r); [discriminate|]. now apply IH.
Qed.

Lemma member_named_set_same key v obj : forall i,
  findIndex key obj = Some i ->
  member_named (set_member_value i v obj) key = Some v.
Proof.
  unfold member_named.
  induction obj as [|[n x] r IH]; intros i H; simpl in H; [discriminate|].
  destruct n as [s|s]; simpl in *.
  - destruct (String.eqb s key) eqn:E.
    + injection H as <-. simpl. now rewrite E.
    + destruct (findIndex key r) as [j|]; [|discriminate].
      injection H as <-. simpl. rewrite E. now apply IH.
  - destruct (findIndex key r) as [j|]; [|discriminate].
    injection H as <-. simpl. now apply IH.
Qed.

Lemma member_named_set_other key k v obj : forall i,
  findIndex key obj = Some i -> k <> key ->
  member_named (set_member_value i v obj) k = member_named obj k.
Proof.
  unfold member_named.
  induction obj as [|[n x] r IH]; intros i H N; simpl in H; [discriminate|].
  destruct n as [s|s]; simpl in *.
  - destruct (String.eqb_spec s key) as [->|E].
    + injection H as <-. simpl.
      destruct (String.eqb_spec key k); [congruence|reflexivity].
    + destruct (findIndex key r) as [j|]; [|discriminate].
      injection H as <-. simpl. destruct (String.eqb s k); [reflexivity|].
      now apply IH.
  - destruct (findIndex key r) as [j|]; [|discriminate].
    injection H as <-. simpl. now apply IH.
Qed.

Lemma member_named_app obj m k :
  member_named (obj ++ [m]) k
  = match member_named obj k with
    | Some v => Some v
    | None => member_named [m] k
    end.
Proof.
  unfold member_named.
  induction obj as [|[n x] r IH]; simpl; [reflexivity|].
  destruct n as [s|s]; simpl; [destruct (String.eqb s k); [reflexivity|]|]; apply IH.
Qed.

Lemma map_fst_set_member_value v obj : forall i,
  map fst (set_member_value i v obj) = map fst obj.
Proof.
  induction obj as [|m r IH]; intros [|i]; simpl; try reflexivity.
  now rewrite IH.
Qed.

Lemma member_named_not_in key ms :
  ~ In (NameString key) (map fst ms) -> member_named ms key = None.
Proof.
  unfold member_named.
  induction ms as [|[n x] r IH]; simpl; intros H; [reflexivity|].
  destruct n as [s|s]; simpl.
  - destruct (String.eqb_spec s key) as [->|N]; [tauto|]. apply IH. tauto.
  - apply IH. tauto.
Qed.

Lemma merge_members_member rest : forall obj result key,
  NoDup (map fst rest) ->
  merge_members rest obj = inr result ->
  getObjMember (Some result) key
  = match member_named rest key with
    | None => member_named obj key
    | Some vb =>
        match member_named obj key with
        | None => Some vb
        | Some va => if is_object vb then merged (mergeObjects va vb) else Some vb
        end
    end.
Proof.
  induction rest as [|[n x] rest IH]; intros obj result key Hd H.
  - simpl in H. injection H as <-. reflexivity.
  - simpl in Hd. inversion Hd as [|? ? Hn Hd']; subst.
    simpl in H. destruct n as [s|s]; [|discriminate H].
    assert (Hrest : s = key -> member_named rest key = None).
    { intros <-. now apply member_named_not_in. }
    unfold member_named at 1. simpl find.
    destruct (String.eqb_spec s key) as [->|N].
    + (* the member of this turn *)
      cbn [snd]. specialize (Hrest eq_refl).
      destruct (findIndex key obj) as [i|] eqn:Ei.
      * destruct (findIndex_some _ _ _ Ei) as (va & Hnth & Hva).
        rewrite Hva.
        destruct x as [xm| | | | |]; cbn [is_object];
          try (rewrite (IH _ _ key Hd' H), Hrest;
               now apply member_named_set_same).
        rewrite Hnth in H. cbn [snd] in H.
        destruct (mergeObjects va (NObject xm)) as [e|m]; [discriminate H|].
        rewrite (IH _ _ key Hd' H), Hrest. cbn [merged].
        now apply member_named_set_same.
      * rewrite (findIndex_none _ _ Ei).
        rewrite (IH _ _ key Hd' H), Hrest, member_named_app.
        rewrite (findIndex_none _ _ Ei). unfold member_named. simpl.
        now rewrite String.eqb_refl.
    + change (match find _ rest with Some m => Some (snd m) | None => None end)
        with (member_named rest key).
      assert (Hobj : forall obj', merge_members rest obj' = inr result ->
                member_named obj' key = member_named obj key ->
                getObjMember (Some result) key
                = match member_named rest key with
                  | None => member_named obj key
                  | Some vb =>
                      match member_named obj key with
                      | None => Some vb
                      | Some va =>
                          if is_object vb then merged (mergeObjects va vb)
                          else Some vb
                      end
                  end).
      { intros obj' H' E. rewrite (IH _ _ key Hd' H'), E. reflexivity. }
      destruct (findIndex s obj) as [i|] eqn:Ei.
      * destruct x as [xm| | | | |];
          try (apply (Hobj _ H); apply member_named_set_other with (key := s);
               [exact Ei|congruence]).
        cbn [snd] in H. destruct (nth_error obj i) as [prev|]; [|discriminate H].
        destruct (mergeObjects (snd prev) (NObject xm)) as [e|m]; [discriminate H|].
        apply (Hobj _ H).
        apply member_named_set_other with (key := s); [exact Ei|congruence].
      * apply (Hobj _ H). rewrite member_named_app.
        destruct (member_named obj key); [reflexivity|].
        unfold member_named. simpl.
        destruct (String.eqb_spec s key); [congruence|reflexivity].
Qed.

Lemma merge_result_member (a_members b_members : list (Name * Node))
  (result : Node) (key : string) :
  NoDup (map fst b_members) ->
  mergeObjects (NObject a_members) (NObject b_members) = inr result ->
  getObjMember (Some result) key
  = match getObjMember (Some (NObject b_members)) key with
    | None => getObjMember (Some (NObject a_members)) key
    | Some vb =>
        match getObjMember (Some (NObject a_members)) key with
        | None => Some vb
        | Some va => if is_object vb then merged (mergeObjects va vb) else Some vb
        end
    end.
Proof.
  intros Hd H. rewrite mergeObjects_loop in H.
  rewrite !getObjMember_member_named. now apply merge_members_member.
Qed.

(** X7: what [mergeObjects] leaves under a key, when no name is repeated in
    [b]: a key that only [a] has keeps the value of [a]; one that only [b]
    has gets the value of [b]; on a key of both the value of [b] wins,
    unless it is an object, which is merged into the value of [a]. *)
Theorem mergeObjects_member (a_members b_members : list (Name * Node))
  (result : Node) (key : string) :
  NoDup (map fst b_members) ->
  mergeObjects (NObject a_members) (NObject b_members) = inr result ->
  getObjMember (Some result) key
  = match getObjMember (Some (NObject b_members)) key with
    | None => getObjMember (Some (NObject a_members)) key
    | Some vb =>
        match getObjMember (Some (NObject a_members)) key with
        | None => Some vb
        | Some va => if is_object vb then merged (mergeObjects va vb) else Some vb
        end
    end.
Proof.
  intros Hd H. rewrite mergeObjects_loop in H.
  rewrite !getObjMember_member_named. now apply merge_members_member.
Qed.

Lemma findIndex_none_not_in key obj :
  findIndex key obj = None -> ~ In (NameString key) (map fst obj).
Proof.
  induction obj as [|[n x] r IH]; simpl; intros H; [tauto|].
  destruct n as [s|s]; simpl in *.
  - destruct (String.eqb_spec s key) as [->|N]; [discriminate|].
    destruct (findIndex key r); [discriminate|].
    intros [E|Hin]; [congruence|now apply IH].
  - destruct (findIndex key r); [discriminate|].
    intros [E|Hin]; [discriminate|now apply IH].
Qed.

Lemma merge_members_names rest : forall obj result,
  merge_members rest obj = inr result ->
  exists members extra,
    result = NObject members
    /\ map fst members = map fst obj ++ extra
    /\ forall n, In n extra -> In n (map fst rest) /\ ~ In n (map fst obj).
Proof.
  induction rest as [|[n x] rest IH]; intros obj result H; simpl in H.
  - injection H as <-. exists obj, []. rewrite app_nil_r.
    repeat split; try reflexivity; contradiction.
  - destruct n as [s|s]; [|discriminate H].
    assert (Hset : forall i v,
               merge_members rest (set_member_value i v obj) = inr result ->
               exists members extra,
                 result = NObject members
                 /\ map fst members = map fst obj ++ extra
                 /\ forall n, In n extra ->
                      In n (map fst ((NameString s, x) :: rest))
                      /\ ~ In n (map fst obj)).
    { intros i v H'. destruct (IH _ _ H') as (ms & extra & -> & Hm & He).
      exists ms, extra. rewrite map_fst_set_member_value in Hm, He.
      split; [reflexivity|]. split; [exact Hm|].
      intros n Hn. destruct (He n Hn) as (Hin & Hout).
      split; [now right|exact Hout]. }
    destruct (findIndex s obj) as [i|] eqn:Ei.
    + destruct x as [xm| | | | |]; cbn [snd] in H;
        try (exact (Hset i _ H)).
      destruct (nth_error obj i) as [prev|]; [|discriminate H].
      destruct (mergeObjects (snd prev) (NObject xm)) as [e|m]; [discriminate H|].
      exact (Hset i m H).
    + destruct (IH _ _ H) as (ms & extra & -> & Hm & He).
      exists ms, (NameString s :: extra).
      split; [reflexivity|]. split.
      * rewrite Hm, map_app, <- app_assoc. reflexivity.
      * intros n [<-|Hn].
        -- split; [now left|now apply findIndex_none_not_in].
        -- destruct (He n Hn) as (Hin & Hout). split; [now right|].
           intros Hc. apply Hout. rewrite map_app. apply in_or_app. now left.
Qed.

(** X8: a merge keeps the members of [a] in their places and order, and
    appends the members of [b] whose names [a] did not have. *)
Theorem mergeObjects_keeps_order (a_members b_members : list (Name * Node))
  (result : Node) :
  mergeObjects (NObject a_members) (NObject b_members) = inr result ->
  exists members extra,
    result = NObject members
    /\ map fst members = map fst a_members ++ extra
    /\ forall n, In n extra ->
         In n (map fst b_members) /\ ~ In n (map fst a_members).
Proof.
  rewrite mergeObjects_loop. apply merge_members_names.
Qed.

Lemma findIndex_in key v ms :
  NoDup (map fst ms) -> In (NameString key, v) ms ->
  exists i, findIndex key ms = Some i
            /\ nth_error ms i = Some (NameString key, v).
Proof.
  induction ms as [|[n x] r IH]; simpl; intros Hd Hin; [contradiction|].
  inversion Hd as [|? ? Hn Hd']; subst.
  destruct Hin as [E|Hin].
  - injection E as -> ->. simpl. rewrite String.eqb_refl. now exists 0%nat.
  - destruct n as [s|s]; simpl.
    + destruct (String.eqb_spec s key) as [->|N].
      * exfalso. apply Hn. change (NameString key) with (fst (NameString key, v)).
        now apply in_map.
      * destruct (IH Hd' Hin) as (i & -> & Hi). now exists (S i).
    + destruct (IH Hd' Hin) as (i & -> & Hi). now exists (S i).
Qed.

Lemma set_member_value_same ms : forall i n v,
  nth_error ms i = Some (n, v) -> set_member_value i v ms = ms.
Proof.
  induction ms as [|m r IH]; intros [|i] n v H; simpl in *; try discriminate.
  - injection H as ->. reflexivity.
  - f_equal. now apply (IH i n v).
Qed.

Lemma merge_members_same ms rest :
  NoDup (map fst ms) ->
  incl rest ms ->
  Forall (fun m => string_named m = true
                   /\ forall r, mergeObjects (snd m) (snd m) = inr r ->
                                r = snd m) rest ->
  forall r, merge_members rest ms = inr r -> r = NObject ms.
Proof.
  intros Hd. induction rest as [|[n x] rest IH]; intros Hin Hall r Hr.
  - simpl in Hr. now injection Hr as <-.
  - inversion Hall as [|? ? [Hn Hx] Hall']; subst.
    destruct n as [s|s]; [|discriminate Hn]. cbn [snd] in Hx.
    assert (Hm : In (NameString s, x) ms) by (apply Hin; now left).
    destruct (findIndex_in _ _ _ Hd Hm) as (i & Ei & Hnth).
    assert (Hrest : merge_members rest ms = inr r -> r = NObject ms).
    { apply IH; [|exact Hall']. intros m Hm'. apply Hin. now right. }
    simpl in Hr. rewrite Ei, Hnth in Hr. cbn [snd] in Hr.
    destruct x as [xm| | | | |];
      try (rewrite (set_member_value_same _ _ _ _ Hnth) in Hr; now apply Hrest).
    destruct (mergeObjects (NObject xm) (NObject xm)) as [e|v] eqn:Ev;
      [discriminate Hr|].
    rewrite (Hx v eq_refl) in Hr.
    rewrite (set_member_value_same _ _ _ _ Hnth) in Hr. now apply Hrest.
Qed.

Lemma plain_members_of ms :
  plain (NObject ms) ->
  plain_members ms /\ Forall (fun m => plain (snd m)) ms.
Proof.
  intros [Hp Hall]. split; [exact Hp|]. clear Hp.
  induction ms as [|m r IH]; constructor.
  - apply Hall.
  - apply IH. apply Hall.
Qed.

Lemma plain_members_nodup ms :
  plain_members ms -> NoDup (map fst ms).
Proof.
  intros [Hs Hd]. induction ms as [|[n x] r IH]; simpl in *; constructor.
  - inversion Hd as [|? ? Hn Hd']; subst. intros Hin. apply Hn.
    apply in_map_iff in Hin. destruct Hin as ([n' x'] & E & Hin).
    simpl in E. subst n'. apply in_map_iff. exists (n, x'). split; [reflexivity|exact Hin].
  - apply andb_prop in Hs. inversion Hd; subst. apply IH; tauto.
Qed.

(** X10: merging a tree with itself, when the merge returns, returns the
    tree, when no object of it repeats a name and all names are strings.
    (Of a tree in which a member's value is a node of none of the six
    kinds of JSON, on which the source throws [Unhandled], nothing is
    said: for it the merge does not return.) *)
Theorem mergeObjects_idempotent (a r : Node) :
  plain a -> mergeObjects a a = inr r -> r = a.
Proof.
  revert r. induction a as [ms IH| | | | |] using Node_nested_ind;
    intros r Hp Hr; try (simpl in Hr; now injection Hr as <-).
  destruct (plain_members_of ms Hp) as [Hpm Hall].
  rewrite mergeObjects_loop in Hr. revert r Hr. apply merge_members_same.
  - now apply plain_members_nodup.
  - apply incl_refl.
  - destruct Hpm as [Hs _]. rewrite forallb_forall in Hs.
    rewrite Forall_forall in *. intros m Hm. split; [now apply Hs|].
    intros r. apply IH; [exact Hm|]. now apply Hall.
Qed.

Lemma fold_merge_error e l :
  fold_left
    (fun final next =>
       match final with
       | inr body => mergeObjects body next
       | inl e => inl e
       end) l (inl e) = inl e.
Proof. induction l; simpl; [reflexivity|assumption]. Qed.

(** X11: in [mergeDocuments] the last document decides every key to which it
    gives a value that is not an object: conflicts are overridden by the
    later document. *)
Theorem mergeDocuments_last_wins (documents : list Node)
  (last_members : list (Name * Node)) (result : Node) (key : string) (v : Node) :
  NoDup (map fst last_members) ->
  getObjMember (Some (NObject last_members)) key = Some v ->
  is_object v = false ->
  mergeDocuments (documents ++ [NObject last_members]) = inr result ->
  getObjMember (Some result) key = Some v.
Proof.
  intros Hd Hk Hv H.
  destruct documents as [|first rest].
  - simpl in H. injection H as <-. exact Hk.
  - unfold mergeDocuments in H.
    change ((first :: rest) ++ [NObject last_members])
      with (first :: (rest ++ [NObject last_members])) in H.
    destruct (rest ++ [NObject last_members]) as [|d l] eqn:El.
    { destruct rest; discriminate El. }
    rewrite <- El in H. clear El d l.
    destruct (existsb _ _); [discriminate H|].
    rewrite fold_left_app in H. simpl in H.
    destruct (fold_left _ rest (inr first)) as [e|body]; [discriminate H|].
    destruct body as [bm| | | | |];
      try (simpl in H; injection H as <-; exact Hk).
    rewrite (merge_result_member _ _ _ key Hd H), Hk.
    destruct (getObjMember (Some (NObject bm)) key); [|reflexivity].
    now rewrite Hv.
Qed.

(* ================================================================== *)
(** ** Groups, on any index *)

Lemma set_group_prop_extensions n v g :
  g_extensions (set_group_prop n v g)
  = if String.eqb n "$extensions" then v else g_extensions g.
Proof.
  unfold set_group_prop.
  destruct (String.eqb n "$deprecated") eqn:E1;
    [apply String.eqb_eq in E1; subst; reflexivity|].
  destruct (String.eqb n "$description") eqn:E2;
    [apply String.eqb_eq in E2; subst; reflexivity|].
  destruct (String.eqb n "$extensions"); [reflexivity|].
  destruct (String.eqb n "$type"); reflexivity.
Qed.

Lemma set_group_prop_keeps n v g :
  g_id (set_group_prop n v g) = g_id g
  /\ g_tokens (set_group_prop n v g) = g_tokens g.
Proof.
  unfold set_group_prop.
  destruct (String.eqb n "$deprecated"); [split; reflexivity|].
  destruct (String.eqb n "$description"); [split; reflexivity|].
  destruct (String.eqb n "$extensions"); [split; reflexivity|].
  destruct (String.eqb n "$type"); split; reflexivity.
Qed.

Lemma assign_lookup_same {A} (k : string) (v : A) (o : list (string * A)) :
  lookup k o = Some v -> assign k v o = o.
Proof.
  induction o as [|[k' v'] r IH]; simpl; [discriminate|].
  destruct (String.eqb_spec k k') as [->|N].
  - intros H. injection H as ->. reflexivity.
  - intros H. now rewrite IH.
Qed.

Lemma assign_assign {A} (k : string) (v v' : A) (o : list (string * A)) :
  assign k v (assign k v' o) = assign k v o.
Proof.
  induction o as [|[k' x] r IH]; simpl.
  - now rewrite String.eqb_refl.
  - destruct (String.eqb k k') eqn:E; simpl.
    + now rewrite String.eqb_refl.
    + now rewrite E, IH.
Qed.

Lemma map_fst_assign {A} (k : string) (v v' : A) (o : list (string * A)) :
  lookup k o = Some v' -> map fst (assign k v o) = map fst o.
Proof.
  induction o as [|[k' x] r IH]; simpl; [discriminate|].
  destruct (String.eqb_spec k k') as [->|N]; [reflexivity|].
  intros H. simpl. now rewrite IH.
Qed.

Lemma cascade_fold_assign J l :
  forall (T : Groups) g0,
    lookup J T = Some g0 ->
    exists g1, fold_left (fun gs k => cascade_from J k gs) l T = assign J g1 T.
Proof.
  induction l as [|k r IH]; intros T g0 Hg; simpl.
  - exists g0. symmetry. now apply assign_lookup_same.
  - unfold cascade_from at 2.
    destruct (Str.startsWith J k && negb (String.eqb k J)); [|now apply (IH T g0)].
    rewrite Hg. destruct (lookup k T) as [p|]; [|now apply (IH T g0)].
    destruct (IH _ _ (lookup_assign_same J
                        (mkGroup (g_id g0) (g_deprecated p ?? g_deprecated g0)
                           (g_description p ?? g_description g0) (g_extensions g0)
                           (g_type p ?? g_type g0) (g_tokens g0)) T)) as [g1 E].
    exists g1. now rewrite E, assign_assign.
Qed.

Lemma override_fold_assign J members :
  forall (T : Groups) g0,
    lookup J T = Some g0 ->
    exists g1,
      fold_left (fun gs m => override_from J m gs) members T = assign J g1 T
      /\ g_id g1 = g_id g0 /\ g_tokens g1 = g_tokens g0.
Proof.
  induction members as [|m r IH]; intros T g0 Hg; simpl.
  - exists g0. split; [symmetry; now apply assign_lookup_same|split; reflexivity].
  - unfold override_from at 2.
    destruct (fst m) as [n|n]; [|now apply (IH T g0)].
    destruct (includes GROUP_PROPERTIES n); [|now apply (IH T g0)].
    rewrite Hg.
    destruct (IH _ _ (lookup_assign_same J
                        (set_group_prop n (evaluate (snd m)) g0) T))
      as (g1 & E & Hi & Ht).
    destruct (set_group_prop_keeps n (evaluate (snd m)) g0) as [Ki Kt].
    exists g1. rewrite E, assign_assign. repeat split; congruence.
Qed.

Lemma cascading_set c n v g :
  cascading_value c (set_group_prop n v g)
  = if String.eqb n (cascading_name c) then v else cascading_value c g.
Proof.
  destruct c; simpl;
    [apply set_group_prop_deprecated|apply set_group_prop_description
    |apply set_group_prop_type].
Qed.

Lemma cascading_known c : includes GROUP_PROPERTIES (cascading_name c) = true.
Proof. destruct c; reflexivity. Qed.

(** What [groupFromNode] returns and leaves in the index, on any index. *)
Lemma groupFromNode_shape (members : list (Name * Node)) (path : list string)
  (groups : Groups) :
  let J := jsonID_of path in
  let T1 := if has J groups then groups
            else assign J (emptyGroup (join "." path)) groups in
  let keys := sort_by String.ltb (Object_keys T1) in
  let g0 := own_group path groups in
  exists g,
    groupFromNode (NObject members) path groups = Ret (Some g) (assign J g T1)
    /\ lookup J T1 = Some g0
    /\ g_id g = g_id g0
    /\ g_tokens g = g_tokens g0
    /\ g_extensions g = match declared "$extensions" members with
                        | Some v => v
                        | None => g_extensions g0
                        end
    /\ forall c,
         cascading_value c g
         = match declared (cascading_name c) members with
           | Some v => v
           | None => fold_left (cascade_value (cascading_value c) J T1) keys
                       (cascading_value c g0)
           end.
Proof.
  intros J T1 keys g0.
  assert (Hg0 : lookup J T1 = Some g0).
  { unfold T1, g0, own_group, has. fold J.
    destruct (lookup J groups) as [g|] eqn:E; [exact E|].
    apply lookup_assign_same. }
  destruct (cascade_fold J keys T1 g0 Hg0) as [Hf2 Hg1].
  destruct (cascade_fold_assign J keys T1 g0 Hg0) as [gc Ec].
  set (T2 := fold_left (fun gs k => cascade_from J k gs) keys T1) in *.
  destruct (override_fold_assign J members T2 _ Hg1) as (g & Eo & Hi & Ht).
  set (T3 := fold_left (fun gs m => override_from J m gs) members T2) in *.
  assert (E3 : T3 = assign J g T1) by (rewrite Eo, Ec; apply assign_assign).
  assert (Hg : lookup J T3 = Some g) by (rewrite Eo; apply lookup_assign_same).
  exists g. split; [|split; [exact Hg0|split; [exact Hi|split; [exact Ht|split]]]].
  - rewrite <- E3.
    change (Ret (lookup J T3) T3 = Ret (Some g) T3). now rewrite Hg.
  - destruct (override_fold g_extensions "$extensions"
                set_group_prop_extensions eq_refl J members T2 _ Hg1)
      as (g' & Hg' & He).
    fold T3 in Hg'. assert (g' = g) by congruence. subst g'. exact He.
  - intros c.
    destruct (override_fold (cascading_value c) (cascading_name c)
                (cascading_set c) (cascading_known c) J members T2 _ Hg1)
      as (g' & Hg' & He).
    fold T3 in Hg'. assert (g' = g) by congruence. subst g'.
    rewrite He. destruct c; reflexivity.
Qed.

(** X12: whatever the index holds, [groupFromNode] on an object node returns
    the group it leaves at the key of [path], changes no other group, and
    keeps the id and the token list of a group that was there (a new one
    gets the dotted path and no tokens); [$extensions] is what the node
    declares, else what the group had: it is never taken from another
    group. *)
Theorem groupFromNode_keeps_identity (members : list (Name * Node))
  (path : list string) (groups : Groups) :
  exists g groups',
    groupFromNode (NObject members) path groups = Ret (Some g) groups'
    /\ lookup (jsonID_of path) groups' = Some g
    /\ (forall k, k <> jsonID_of path -> lookup k groups' = lookup k groups)
    /\ g_id g = g_id (own_group path groups)
    /\ g_tokens g = g_tokens (own_group path groups)
    /\ g_extensions g = match declared "$extensions" members with
                        | Some v => v
                        | None => g_extensions (own_group path groups)
                        end.
Proof.
  destruct (groupFromNode_shape members path groups)
    as (g & Hr & Hg0 & Hi & Ht & He & _).
  eexists g, _. split; [exact Hr|]. split; [apply lookup_assign_same|].
  split; [|split; [exact Hi|split; [exact Ht|exact He]]].
  intros k Hk. rewrite lookup_assign_other by exact Hk.
  destruct (has (jsonID_of path) groups); [reflexivity|].
  now apply lookup_assign_other.
Qed.

Lemma cascade_nearest proj J (T : Groups) keys pk p init :
  ascending keys -> In pk keys ->
  taken_for_parent J pk = true ->
  lookup pk T = Some p -> nullish (proj p) = false ->
  (forall k, In k keys -> taken_for_parent J k = true ->
             Str.startsWith pk k = true
             \/ forall q, lookup k T = Some q -> nullish (proj q) = true) ->
  fold_left (cascade_value proj J T) keys init = proj p.
Proof.
  intros Hs Hin Hpar Hp Hnn Hbetween.
  destruct (in_split _ _ Hin) as [l1 [l2 ->]].
  rewrite fold_left_app. simpl.
  assert (Hstep : forall c, cascade_value proj J T c pk = proj p).
  { intros c. unfold cascade_value. unfold taken_for_parent in Hpar.
    rewrite Hpar, Hp. unfold nullish_or. now rewrite Hnn. }
  rewrite Hstep.
  pose proof (ascending_tail _ _ _ Hs) as Ht.
  assert (Hrest : forall k, In k l2 -> cascade_value proj J T (proj p) k = proj p).
  { intros k Hk. unfold cascade_value.
    destruct (Str.startsWith J k && negb (String.eqb k J)) eqn:Ep; auto.
    destruct (Hbetween k) as [Hkp|Hnull]; auto.
    - apply in_or_app. right. now right.
    - rewrite Forall_forall in Ht.
      assert (k = pk).
      { apply String.leb_antisym; [now apply prefix_leb|now apply Ht]. }
      subst k. rewrite Hp. unfold nullish_or. now rewrite Hnn.
    - destruct (lookup k T) as [q|]; [|reflexivity].
      unfold nullish_or. now rewrite (Hnull q eq_refl). }
  clear Hs Hin Hbetween Ht. induction l2 as [|k r IH]; simpl; auto.
  rewrite (Hrest k) by now left. apply IH. intros k' Hk'. apply Hrest. now right.
Qed.

Lemma cascade_nothing proj J (T : Groups) keys init :
  (forall k q, In k keys -> taken_for_parent J k = true ->
               lookup k T = Some q -> nullish (proj q) = true) ->
  fold_left (cascade_value proj J T) keys init = init.
Proof.
  induction keys as [|k r IH]; intros H; simpl; [reflexivity|].
  assert (E : cascade_value proj J T init k = init).
  { unfold cascade_value.
    destruct (Str.startsWith J k && negb (String.eqb k J)) eqn:Ep; auto.
    destruct (lookup k T) as [q|] eqn:Eq; [|reflexivity].
    unfold nullish_or. rewrite (H k q); auto. now left. }
  rewrite E. apply IH. intros k' q Hk'. apply H. now right.
Qed.

Lemma keys_of_index (path : list string) (groups : Groups) k :
  In k (sort_by String.ltb
          (Object_keys (if has (jsonID_of path) groups then groups
                        else assign (jsonID_of path)
                               (emptyGroup (join "." path)) groups))) ->
  k = jsonID_of path \/ In k (map fst groups).
Proof.
  intros H. apply in_sort_by, in_Object_keys in H.
  destruct (has (jsonID_of path) groups); [now right|].
  exact (in_keys_assign _ _ _ _ H).
Qed.

Lemma lookup_of_index (path : list string) (groups : Groups) k :
  k <> jsonID_of path ->
  lookup k (if has (jsonID_of path) groups then groups
            else assign (jsonID_of path) (emptyGroup (join "." path)) groups)
  = lookup k groups.
Proof.
  intros Hk. destruct (has (jsonID_of path) groups); [reflexivity|].
  now apply lookup_assign_other.
Qed.

Lemma taken_for_parent_neq J k : taken_for_parent J k = true -> k <> J.
Proof.
  unfold taken_for_parent. intros H. apply andb_prop in H.
  destruct H as [_ H]. now apply negb_true_iff, String.eqb_neq in H.
Qed.

(** X13: a cascading property ([$deprecated], [$description], [$type]) that
    the node of a group does not declare is taken from the nearest group
    above that has a value for it: the group whose key is taken for a
    parent's (a proper string prefix of the group's key) and whose value
    is not nullish, every other such key being a prefix of that one. *)
Theorem groupFromNode_inherits_nearest (c : Cascading)
  (members : list (Name * Node)) (path : list string) (groups : Groups)
  (pk : string) (p : Group) :
  declared (cascading_name c) members = None ->
  taken_for_parent (jsonID_of path) pk = true ->
  lookup pk groups = Some p ->
  nullish (cascading_value c p) = false ->
  (forall k q, lookup k groups = Some q ->
               taken_for_parent (jsonID_of path) k = true ->
               nullish (cascading_value c q) = false ->
               Str.startsWith pk k = true) ->
  exists g groups',
    groupFromNode (NObject members) path groups = Ret (Some g) groups'
    /\ cascading_value c g = cascading_value c p.
Proof.
  intros Hd Hpar Hp Hnn Hnear.
  destruct (groupFromNode_shape members path groups)
    as (g & Hr & _ & _ & _ & _ & Hc).
  eexists g, _. split; [exact Hr|]. rewrite Hc, Hd.
  pose proof (taken_for_parent_neq _ _ Hpar) as Hne.
  apply (cascade_nearest _ _ _ _ pk p).
  - apply sort_by_ascending.
  - apply in_sort_by, in_Object_keys.
    apply (lookup_in_keys pk p). now rewrite lookup_of_index.
  - exact Hpar.
  - now rewrite lookup_of_index.
  - exact Hnn.
  - intros k Hk Hkpar.
    pose proof (taken_for_parent_neq _ _ Hkpar) as Hkne.
    rewrite lookup_of_index by exact Hkne.
    destruct (lookup k groups) as [q|] eqn:Eq; [|right; discriminate].
    destruct (nullish (cascading_value c q)) eqn:En.
    + right. intros q' E. now injection E as <-.
    + left. now apply (Hnear k q).
Qed.

(** X14: with no group above that has a value for it, a cascading property
    that the node does not declare stays what the group had: [undefined]
    for a new group. *)
Theorem groupFromNode_keeps_own (c : Cascading)
  (members : list (Name * Node)) (path : list string) (groups : Groups) :
  declared (cascading_name c) members = None ->
  (forall k q, lookup k groups = Some q ->
               taken_for_parent (jsonID_of path) k = true ->
               nullish (cascading_value c q) = true) ->
  exists g groups',
    groupFromNode (NObject members) path groups = Ret (Some g) groups'
    /\ cascading_value c g = cascading_value c (own_group path groups).
Proof.
  intros Hd Hnone.
  destruct (groupFromNode_shape members path groups)
    as (g & Hr & _ & _ & _ & _ & Hc).
  eexists g, _. split; [exact Hr|]. rewrite Hc, Hd.
  apply cascade_nothing. intros k q Hk Hkpar Hq.
  rewrite lookup_of_index in Hq by now apply taken_for_parent_neq.
  now apply (Hnone k q).
Qed.

Lemma cascade_value_idem proj J (T : Groups) keys :
  (forall init, fold_left (cascade_value proj J T) keys init = init)
  \/ exists v, forall init, fold_left (cascade_value proj J T) keys init = v.
Proof.
  induction keys as [|k r IH]; simpl; [now left|].
  assert (Hk : (forall cur, cascade_value proj J T cur k = cur)
               \/ exists v, forall cur, cascade_value proj J T cur k = v).
  { unfold cascade_value.
    destruct (Str.startsWith J k && negb (String.eqb k J)); [|now left].
    destruct (lookup k T) as [q|]; [|now left].
    unfold nullish_or. destruct (nullish (proj q)); [now left|].
    right. now exists (proj q). }
  destruct IH as [IH|[v IH]].
  - destruct Hk as [Hk|[v Hk]].
    + left. intros init. now rewrite Hk, IH.
    + right. exists v. intros init. now rewrite Hk, IH.
  - right. exists v. intros init. apply IH.
Qed.

Lemma cascade_value_twice proj J (T : Groups) keys init :
  fold_left (cascade_value proj J T) keys
    (fold_left (cascade_value proj J T) keys init)
  = fold_left (cascade_value proj J T) keys init.
Proof.
  destruct (cascade_value_idem proj J T keys) as [H|[v H]].
  - now rewrite !H.
  - now rewrite !H.
Qed.

Lemma Object_keys_same {A B} (o : list (string * A)) (o' : list (string * B)) :
  map fst o = map fst o' -> Object_keys o = Object_keys o'.
Proof. intros H. unfold Object_keys. now rewrite H. Qed.

(** X15: run again on the same node and path, from the index the first run
    left, [groupFromNode] returns the same group and leaves the index as
    it is. *)
Theorem groupFromNode_idempotent (members : list (Name * Node))
  (path : list string) (groups groups' : Groups) (g : Group) :
  groupFromNode (NObject members) path groups = Ret (Some g) groups' ->
  groupFromNode (NObject members) path groups' = Ret (Some g) groups'.
Proof.
  intros H.
  destruct (groupFromNode_shape members path groups)
    as (g1 & Hr & Hg0 & Hi & Ht & He & Hc).
  rewrite Hr in H. injection H as -> <-.
  set (J := jsonID_of path) in *.
  set (T1 := if has J groups then groups
             else assign J (emptyGroup (join "." path)) groups) in *.
  set (T' := assign J g T1).
  assert (Hg' : lookup J T' = Some g) by apply lookup_assign_same.
  destruct (groupFromNode_shape members path T')
    as (g2 & Hr2 & Hg02 & Hi2 & Ht2 & He2 & Hc2).
  fold J in Hr2, Hg02, Hc2.
  assert (Hown : own_group path T' = g).
  { unfold own_group. fold J. now rewrite Hg'. }
  rewrite Hown in *.
  assert (Hhas : has J T' = true) by (unfold has; now rewrite Hg').
  rewrite Hhas in Hr2, Hc2.
  assert (Hkeys : Object_keys T' = Object_keys T1).
  { apply Object_keys_same. unfold T'.
    exact (map_fst_assign J g (own_group path groups) T1 Hg0). }
  assert (Hframe : forall k, k <> J -> lookup k T' = lookup k T1).
  { intros k Hk. unfold T'. now apply lookup_assign_other. }
  assert (E : g2 = g).
  { assert (Hd : g_deprecated g2 = g_deprecated g).
    { pose proof (Hc2 Cascading_deprecated) as H2.
      pose proof (Hc Cascading_deprecated) as H1. simpl in H1, H2.
      rewrite H2, H1. destruct (declared "$deprecated" members); [reflexivity|].
      rewrite Hkeys, (fold_cascade_value_ext _ J T1 T') by exact Hframe.
      apply cascade_value_twice. }
    assert (Hds : g_description g2 = g_description g).
    { pose proof (Hc2 Cascading_description) as H2.
      pose proof (Hc Cascading_description) as H1. simpl in H1, H2.
      rewrite H2, H1. destruct (declared "$description" members); [reflexivity|].
      rewrite Hkeys, (fold_cascade_value_ext _ J T1 T') by exact Hframe.
      apply cascade_value_twice. }
    assert (Hty : g_type g2 = g_type g).
    { pose proof (Hc2 Cascading_type) as H2.
      pose proof (Hc Cascading_type) as H1. simpl in H1, H2.
      rewrite H2, H1. destruct (declared "$type" members); [reflexivity|].
      rewrite Hkeys, (fold_cascade_value_ext _ J T1 T') by exact Hframe.
      apply cascade_value_twice. }
    assert (Hex : g_extensions g2 = g_extensions g).
    { rewrite He2, He. destruct (declared "$extensions" members); reflexivity. }
    destruct g2, g. simpl in *. congruence. }
  rewrite Hr2, E. now rewrite (assign_lookup_same J g T' Hg').
Qed.

(* ================================================================== *)
(** ** Tokens, piece by piece *)

Lemma tokenFromNode_pieces localeCompare wcmatch node path filename ignore groups :
  isToken node path = true ->
  tokenFromNode localeCompare wcmatch node path filename ignore groups
  = tokenFromNode_outcome_of wcmatch node path filename ignore
      (lookup (jsonID_of (removelast path)) groups)
      (match lookup (jsonID_of (removelast path)) groups with
       | Some g => registered localeCompare path g groups
       | None => groups
       end).
Proof.
  intros Htok.
  unfold tokenFromNode, tokenFromNode_outcome_of, token_type, token_deprecated,
    registered, base_token, with_modes, mode_state.
  rewrite Htok. cbn [negb].
  unfold bind, get, modify, must, ret, throw.
  destruct (lookup (jsonID_of (removelast path)) groups) as [g|];
    [destruct (includes (g_tokens g) (join "." path))|];
    destruct (truthy (prop "$type" (evaluate_object node)));
    destruct (nullish (prop "$deprecated" (evaluate_object node)));
    cbv beta iota zeta; cbn [option_map t_deprecated t_id t_extensions];
    try reflexivity;
    (destruct (ignored wcmatch ignore _ (join "." path)); [reflexivity|]);
    (destruct (getObjMember (Some node) "$extensions"); [|reflexivity]);
    (destruct (js_member _ "mode") as [modes|]; [|reflexivity]);
    (destruct (js_keys modes); reflexivity).
Qed.

Lemma with_modes_spec f keys : forall t,
  exists m,
    with_modes f keys t = set_mode t m
    /\ forall k, lookup k m
                 = if includes keys k then Some (f k) else lookup k (t_mode t).
Proof.
  unfold with_modes.
  induction keys as [|x r IH]; intros t; cbn [fold_left].
  - exists (t_mode t). split; [now destruct t|reflexivity].
  - destruct (IH (set_mode t (assign x (f x) (t_mode t)))) as (m & E & Hm).
    exists m. split; [rewrite E; reflexivity|].
    intros k. rewrite Hm. cbn [includes existsb t_mode set_mode].
    change (existsb (String.eqb k) r) with (includes r k).
    destruct (includes r k); [now rewrite orb_true_r|]. rewrite orb_false_r.
    destruct (String.eqb_spec k x) as [->|N].
    + apply lookup_assign_same.
    + now apply lookup_assign_other.
Qed.

Section TokenFacts.

Variable localeCompare : string -> string -> Z.
Variable wcmatch : list string -> string -> bool.

Lemma tokenFromNode_not_token node path filename ignore groups :
  isToken node path = false ->
  tokenFromNode localeCompare wcmatch node path filename ignore groups
  = Ret None groups.
Proof. intros H. unfold tokenFromNode. now rewrite H. Qed.

End TokenFacts.

(** X16: every token [tokenFromNode] returns comes from a token node that the
    ignore configuration lets through; its id and key are those of the
    path, its value that of the node; it has a mode [.]; and none of its
    alias fields nor its [originalValue], at the root or in a mode, is
    set yet. *)
Theorem tokenFromNode_returns_fresh
  (localeCompare : string -> string -> Z)
  (wcmatch : list string -> string -> bool)
  (node : Node) (path : list string) (filename : option string)
  (ignore : option Ignore) (groups gs : Groups) (t : Token) :
  tokenFromNode localeCompare wcmatch node path filename ignore groups
  = Ret (Some t) gs ->
  isToken node path = true
  /\ t_id t = join "." path
  /\ t_jsonID t = jsonID_of path
  /\ t_value t = prop "$value" (evaluate_object node)
  /\ t_source t = mkSource filename (Some node)
  /\ ignored wcmatch ignore (t_deprecated t) (t_id t) = false
  /\ t_originalValue t = JUndefined
  /\ t_aliasOf t = None /\ t_aliasChain t = None /\ t_aliasedBy t = None
  /\ t_partialAliasOf t = None /\ t_dependencies t = None
  /\ has "." (t_mode t) = true
  /\ forall k m,
       lookup k (t_mode t) = Some m ->
       m_originalValue m = JUndefined
       /\ m_aliasOf m = None /\ m_aliasChain m = None /\ m_aliasedBy m = None
       /\ m_partialAliasOf m = None /\ m_dependencies m = None
       /\ src_filename (m_source m) = filename.
Proof.
  intros H.
  destruct (isToken node path) eqn:Htok;
    [|rewrite tokenFromNode_not_token in H by exact Htok; discriminate H].
  split; [reflexivity|].
  rewrite tokenFromNode_pieces in H by exact Htok.
  unfold tokenFromNode_outcome_of in H.
  destruct (token_type node _) as [type|]; [|discriminate H].
  destruct (token_deprecated node _) as [deprecated|]; [|discriminate H].
  destruct (ignored wcmatch ignore deprecated (join "." path)) eqn:Hig;
    [discriminate H|].
  set (t0 := base_token node path filename
               (lookup (jsonID_of (removelast path)) groups) type deprecated)
    in *.
  assert (Hbase : forall k m,
             lookup k (t_mode t0) = Some m ->
             m_originalValue m = JUndefined
             /\ m_aliasOf m = None /\ m_aliasChain m = None
             /\ m_aliasedBy m = None
             /\ m_partialAliasOf m = None /\ m_dependencies m = None
             /\ src_filename (m_source m) = filename).
  { intros k m Hk. cbn in Hk. destruct (String.eqb k "."); [|discriminate Hk].
    injection Hk as <-. repeat split. }
  destruct (getObjMember (Some node) "$extensions") as [ext|].
  - destruct (js_member (t_extensions t0) "mode") as [modes|]; [|discriminate H].
    destruct (js_keys modes) as [keys|]; [|discriminate H].
    injection H as <- <-.
    destruct (with_modes_spec (mode_state filename ext modes) keys t0)
      as (m & -> & Hm).
    cbn [set_mode t_id t_jsonID t_value t_source t_deprecated t_originalValue
           t_aliasOf t_aliasChain t_aliasedBy t_partialAliasOf t_dependencies
           t_mode].
    do 11 (split; [first [reflexivity|exact Hig]|]).
    split.
    + unfold has. rewrite Hm. destruct (includes keys "."); reflexivity.
    + intros k ms Hk. rewrite Hm in Hk. destruct (includes keys k).
      * injection Hk as <-. repeat split.
      * now apply (Hbase k).
  - injection H as <- <-.
    do 11 (split; [first [reflexivity|exact Hig]|]).
    split; [reflexivity|exact Hbase].
Qed.

(** X19: a token node whose group is not in the index needs a [$type] and a
    [$deprecated] of its own: without a truthy [$type] the call throws
    the [TypeError] of reading [group.$type], without a [$deprecated] that
    of reading [group.$deprecated]; with both, the index is left as it
    is and a token that is returned has no group and its own values. *)
Theorem tokenFromNode_without_group
  (localeCompare : string -> string -> Z)
  (wcmatch : list string -> string -> bool)
  (node : Node) (path : list string) (filename : option string)
  (ignore : option Ignore) (groups : Groups) :
  isToken node path = true ->
  lookup (jsonID_of (removelast path)) groups = None ->
  (truthy (prop "$type" (evaluate_object node)) = false ->
   tokenFromNode localeCompare wcmatch node path filename ignore groups
   = Throw (TypeError "group.$type") groups)
  /\ (truthy (prop "$type" (evaluate_object node)) = true ->
      nullish (prop "$deprecated" (evaluate_object node)) = true ->
      tokenFromNode localeCompare wcmatch node path filename ignore groups
      = Throw (TypeError "group.$deprecated") groups)
  /\ (truthy (prop "$type" (evaluate_object node)) = true ->
      nullish (prop "$deprecated" (evaluate_object node)) = false ->
      match tokenFromNode localeCompare wcmatch node path filename ignore
              groups with
      | Ret (Some t) gs =>
          gs = groups /\ t_group t = None
          /\ t_type t = prop "$type" (evaluate_object node)
          /\ t_deprecated t = prop "$deprecated" (evaluate_object node)
      | Ret None gs => gs = groups
      | Throw e gs =>
          gs = groups /\ getObjMember (Some node) "$extensions" <> None
      | OutOfFuel => False
      end).
Proof.
  intros Htok Hg. rewrite tokenFromNode_pieces by exact Htok.
  unfold tokenFromNode_outcome_of, token_type, token_deprecated.
  rewrite Hg. cbn [option_map]. split; [|split].
  - intros ->. reflexivity.
  - intros -> ->. reflexivity.
  - intros -> ->.
    destruct (ignored wcmatch ignore _ (join "." path)); [reflexivity|].
    set (t0 := base_token node path filename None _ _).
    destruct (getObjMember (Some node) "$extensions") as [ext|];
      [|repeat split].
    destruct (js_member (t_extensions t0) "mode") as [modes|];
      [|split; [reflexivity|discriminate]].
    destruct (js_keys modes) as [keys|]; [|split; [reflexivity|discriminate]].
    destruct (with_modes_spec (mode_state filename ext modes) keys t0)
      as (m & -> & _).
    repeat split.
Qed.

Lemma last_member_none_named k ms :
  last_member k ms = None -> member_named ms k = None.
Proof.
  unfold member_named.
  induction ms as [|[n x] r IH]; simpl; [reflexivity|].
  destruct (last_member k r); [discriminate|].
  destruct n as [s|s]; simpl.
  - destruct (String.eqb s k); [discriminate|]. intros _. now apply IH.
  - intros _. now apply IH.
Qed.

(** X20: a token whose [$extensions] object has no member [mode], and that
    the ignore configuration lets through, makes [tokenFromNode] throw
    the [TypeError] of [Object.keys(undefined)], the id being registered
    in the group; [tokenRawValuesFromNode] returns on the same node, with
    the one mode [.]. *)
Theorem tokenFromNode_extensions_without_mode
  (localeCompare : string -> string -> Z)
  (wcmatch : list string -> string -> bool)
  (members ext_members : list (Name * Node)) (path : list string)
  (filename : string) (ignore : option Ignore) (groups : Groups) (g : Group) :
  isToken (NObject members) path = true ->
  plain_members members ->
  getObjMember (Some (NObject members)) "$extensions"
  = Some (NObject ext_members) ->
  last_member "mode" ext_members = None ->
  lookup (jsonID_of (removelast path)) groups = Some g ->
  ignored wcmatch ignore (inherited_deprecated (NObject members) g)
    (join "." path) = false ->
  tokenFromNode localeCompare wcmatch (NObject members) path (Some filename)
    ignore groups
  = Throw (TypeError "Object.keys(token.$extensions.mode)")
      (registered localeCompare path g groups)
  /\ exists raw,
       tokenRawValuesFromNode (NObject members) filename path tt
       = Ret (Some raw) tt
       /\ map fst (raw_mode raw) = ["."].
Proof.
  intros Htok Hplain Hext Hmode Hg Hig. split.
  - rewrite tokenFromNode_pieces by exact Htok.
    unfold tokenFromNode_outcome_of, token_type, token_deprecated.
    rewrite Hg. cbn [option_map].
    assert (Hd : (if nullish (prop "$deprecated" (evaluate_object (NObject members)))
                  then Some (g_deprecated g ?? JUndefined)
                  else Some (prop "$deprecated" (evaluate_object (NObject members))))
                 = Some (inherited_deprecated (NObject members) g)).
    { unfold inherited_deprecated. unfold nullish_or at 2.
      destruct (nullish (prop "$deprecated" _)); reflexivity. }
    destruct (truthy (prop "$type" (evaluate_object (NObject members))));
      cbv zeta; rewrite Hd, Hig, Hext; cbn [base_token t_extensions];
      (assert (He : prop "$extensions" (evaluate_object (NObject members))
                    = evaluate (NObject ext_members));
       [unfold evaluate_object at 1; rewrite evaluate_NObject; unfold prop;
        rewrite lookup_fold_assign, (last_member_plain _ _ Hplain),
          <- getObjMember_member_named, Hext; reflexivity|]);
      rewrite He, evaluate_NObject; cbn [truthy_or truthy js_member];
      unfold prop; rewrite lookup_fold_assign, Hmode; reflexivity.
  - unfold tokenRawValuesFromNode. rewrite Htok. cbn [negb]. rewrite Hext.
    rewrite getObjMember_member_named, (last_member_none_named _ _ Hmode).
    eexists. split; [reflexivity|reflexivity].
Qed.

Lemma outcome_of_state wcmatch node path filename ignore group gs :
  match tokenFromNode_outcome_of wcmatch node path filename ignore group gs with
  | Ret _ s | Throw _ s => s = gs
  | OutOfFuel => False
  end.
Proof.
  unfold tokenFromNode_outcome_of.
  destruct (token_type node group); [|reflexivity].
  destruct (token_deprecated node group); [|reflexivity].
  cbv zeta. destruct (ignored _ _ _ _); [reflexivity|].
  destruct (getObjMember _ _); [|reflexivity].
  destruct (js_member _ _) as [modes|]; [|reflexivity].
  destruct (js_keys modes); reflexivity.
Qed.

Lemma outcome_of_same_group wcmatch node path filename ignore g g' gs :
  g_type g' = g_type g -> g_deprecated g' = g_deprecated g ->
  tokenFromNode_outcome_of wcmatch node path filename ignore (Some g') gs
  = tokenFromNode_outcome_of wcmatch node path filename ignore (Some g) gs.
Proof.
  intros Ht Hd.
  unfold tokenFromNode_outcome_of, token_type, token_deprecated, base_token.
  cbn [option_map]. now rewrite Ht, Hd.
Qed.

Lemma registered_twice localeCompare path g groups :
  lookup (jsonID_of (removelast path)) groups = Some g ->
  exists g',
    lookup (jsonID_of (removelast path)) (registered localeCompare path g groups)
    = Some g'
    /\ g_type g' = g_type g /\ g_deprecated g' = g_deprecated g
    /\ registered localeCompare path g'
         (registered localeCompare path g groups)
       = registered localeCompare path g groups.
Proof.
  intros Hg. unfold registered at 1 3 4.
  destruct (includes (g_tokens g) (join "." path)) eqn:E.
  - exists g. repeat split; [exact Hg|]. unfold registered. now rewrite E.
  - eexists. split; [apply lookup_assign_same|].
    split; [reflexivity|split; [reflexivity|]].
    unfold registered. cbn [g_tokens set_tokens].
    assert (Hin : includes
                    (sort_by (numeric_lt localeCompare)
                       (g_tokens g ++ [join "." path])) (join "." path) = true).
    { apply includes_true, in_sort_by, in_or_app. right. now left. }
    now rewrite Hin.
Qed.

(** X21: run again on the index it left, [tokenFromNode] ends the same way
    (same token, same nothing, same throw) and leaves the index as it
    is: the id is registered once. *)
Theorem tokenFromNode_idempotent
  (localeCompare : string -> string -> Z)
  (wcmatch : list string -> string -> bool)
  (node : Node) (path : list string) (filename : option string)
  (ignore : option Ignore) (groups : Groups) :
  match tokenFromNode localeCompare wcmatch node path filename ignore groups with
  | Ret r gs =>
      tokenFromNode localeCompare wcmatch node path filename ignore gs
      = Ret r gs
  | Throw e gs =>
      tokenFromNode localeCompare wcmatch node path filename ignore gs
      = Throw e gs
  | OutOfFuel => False
  end.
Proof.
  destruct (isToken node path) eqn:Htok.
  2:{ rewrite tokenFromNode_not_token by exact Htok.
      now apply tokenFromNode_not_token. }
  rewrite tokenFromNode_pieces by exact Htok.
  destruct (lookup (jsonID_of (removelast path)) groups) as [g|] eqn:Hg.
  - destruct (registered_twice localeCompare path g groups Hg)
      as (g' & Hg' & Ht & Hd & Hr).
    set (gs := registered localeCompare path g groups) in *.
    assert (E : tokenFromNode localeCompare wcmatch node path filename ignore gs
                = tokenFromNode_outcome_of wcmatch node path filename ignore
                    (Some g) gs).
    { rewrite tokenFromNode_pieces by exact Htok. rewrite Hg', Hr.
      now apply outcome_of_same_group. }
    pose proof (outcome_of_state wcmatch node path filename ignore (Some g) gs)
      as Hs.
    destruct (tokenFromNode_outcome_of wcmatch node path filename ignore
                (Some g) gs) as [r s|e s|]; [subst s; exact E|subst s; exact E|
                                            exact Hs].
  - assert (E : tokenFromNode localeCompare wcmatch node path filename ignore
                  groups
                = tokenFromNode_outcome_of wcmatch node path filename ignore
                    None groups).
    { rewrite tokenFromNode_pieces by exact Htok. now rewrite Hg. }
    pose proof (outcome_of_state wcmatch node path filename ignore None groups)
      as Hs.
    destruct (tokenFromNode_outcome_of wcmatch node path filename ignore
                None groups) as [r s|e s|]; [subst s; exact E|subst s; exact E|
                                            exact Hs].
Qed.

Lemma in_keys_lookup {A} (k : string) (o : list (string * A)) :
  In k (map fst o) -> exists v, lookup k o = Some v.
Proof.
  induction o as [|[k' v'] r IH]; simpl; [contradiction|].
  intros H. destruct (String.eqb_spec k k') as [->|N]; [now exists v'|].
  destruct H as [E|H]; [congruence|now apply IH].
Qed.

Lemma includes_Object_keys {A} (k : string) (o : list (string * A)) :
  includes (Object_keys o) k = is_some (lookup k o).
Proof.
  destruct (lookup k o) as [v|] eqn:E; simpl.
  - apply includes_true, in_Object_keys. now apply (lookup_in_keys k v).
  - destruct (includes (Object_keys o) k) eqn:Ei; [|reflexivity].
    apply includes_true, in_Object_keys, in_keys_lookup in Ei.
    destruct Ei as [v Ev]. congruence.
Qed.

Lemma lookup_raw_modes filename k mm : forall init,
  forallb string_named mm = true ->
  lookup k
    (fold_left
       (fun acc m =>
          assign (name_value (fst m))
            (mkRawMode (evaluate (snd m))
               (mkSource (Some filename) (Some (snd m)))) acc) mm init)
  = match last_member k mm with
    | Some v => Some (mkRawMode (evaluate v) (mkSource (Some filename) (Some v)))
    | None => lookup k init
    end.
Proof.
  induction mm as [|[n x] r IH]; intros init Hs; simpl; [reflexivity|].
  simpl in Hs. apply andb_prop in Hs. destruct Hs as [Hn Hs].
  destruct n as [s|s]; [|discriminate Hn]. simpl.
  rewrite IH by exact Hs. destruct (last_member k r); [reflexivity|].
  destruct (String.eqb_spec s k) as [->|N].
  - apply lookup_assign_same.
  - apply lookup_assign_other. congruence.
Qed.

Lemma member_named_in ms k v :
  member_named ms k = Some v -> In (NameString k, v) ms.
Proof.
  unfold member_named.
  induction ms as [|[n x] r IH]; simpl; [discriminate|].
  destruct n as [s|s]; simpl.
  - destruct (String.eqb_spec s k) as [->|N].
    + intros H. injection H as ->. now left.
    + intros H. right. now apply IH.
  - intros H. right. now apply IH.
Qed.

Lemma plain_member ms k v :
  plain (NObject ms) -> member_named ms k = Some v -> plain v.
Proof.
  intros Hp Hm. destruct (plain_members_of ms Hp) as [_ Hall].
  rewrite Forall_forall in Hall.
  exact (Hall _ (member_named_in _ _ _ Hm)).
Qed.

Lemma prop_evaluate_plain ms k :
  plain_members ms ->
  prop k (evaluate_object (NObject ms))
  = match member_named ms k with
    | Some v => evaluate v
    | None => JUndefined
    end.
Proof.
  intros H. unfold evaluate_object. rewrite evaluate_NObject. unfold prop.
  rewrite lookup_fold_assign, (last_member_plain k ms H).
  destruct (member_named ms k); reflexivity.
Qed.

Lemma modes_of_scalar_throw (v : JS) :
  match v with JObj _ => False | _ => True end ->
  match js_member (truthy_or v JUndefined) "mode" with
  | Some modes => js_keys modes = None
  | None => True
  end.
Proof.
  destruct v as [| |b|n|s|l|o]; intros H; try exact I; try contradiction;
    unfold truthy_or; cbn [truthy].
  - destruct b; cbn; exact I || reflexivity.
  - destruct (negb (n =? 0)%Z); cbn; exact I || reflexivity.
  - destruct (negb (Str.is_empty s)); cbn; exact I || reflexivity.
  - reflexivity.
Qed.

(** X22: the two readings of a token node agree: when [tokenFromNode] and
    [tokenRawValuesFromNode], given the same file name, both return on a
    node no object of which repeats a name, they give the token the same
    modes, and in each mode the raw original value is the value the token
    starts with and the two sources name the same file and the same
    node. *)
Theorem raw_values_match_token
  (localeCompare : string -> string -> Z)
  (wcmatch : list string -> string -> bool)
  (members : list (Name * Node)) (path : list string) (filename : string)
  (ignore : option Ignore) (groups gs : Groups) (t : Token)
  (raw : TokenRawValues) (mode : string) :
  plain (NObject members) ->
  tokenFromNode localeCompare wcmatch (NObject members) path (Some filename)
    ignore groups = Ret (Some t) gs ->
  tokenRawValuesFromNode (NObject members) filename path tt = Ret (Some raw) tt ->
  match lookup mode (t_mode t), lookup mode (raw_mode raw) with
  | Some m, Some r =>
      m_value m = raw_m_originalValue r /\ m_source m = raw_m_source r
  | None, None => True
  | _, _ => False
  end.
Proof.
  intros Hplain Htoken Hraw.
  destruct (plain_members_of members Hplain) as [Hpm _].
  destruct (isToken (NObject members) path) eqn:Htok;
    [|rewrite tokenFromNode_not_token in Htoken by exact Htok;
      discriminate Htoken].
  assert (Hvalue : exists vn, getObjMember (Some (NObject members)) "$value"
                              = Some vn).
  { unfold isToken in Htok. apply andb_prop in Htok. destruct Htok as [Htok _].
    apply andb_prop in Htok. destruct Htok as [_ Htok].
    destruct (getObjMember (Some (NObject members)) "$value") as [vn|];
      [now exists vn|discriminate Htok]. }
  destruct Hvalue as [vn Hvn].
  rewrite tokenFromNode_pieces in Htoken by exact Htok.
  unfold tokenFromNode_outcome_of in Htoken.
  destruct (token_type _ _) as [type|]; [|discriminate Htoken].
  destruct (token_deprecated _ _) as [deprecated|]; [|discriminate Htoken].
  cbv zeta in Htoken.
  destruct (ignored wcmatch ignore deprecated (join "." path));
    [discriminate Htoken|].
  unfold tokenRawValuesFromNode in Hraw. rewrite Htok in Hraw. cbn [negb] in Hraw.
  set (t0 := base_token (NObject members) path (Some filename)
               (lookup (jsonID_of (removelast path)) groups) type deprecated)
    in *.
  assert (Hdot : forall k,
             match lookup k (t_mode t0),
                   lookup k [(".", mkRawMode
                                     (prop "$value" (evaluate_object (NObject members)))
                                     (mkSource (Some filename)
                                        (getObjMember (Some (NObject members)) "$value")))]
             with
             | Some m, Some r =>
                 m_value m = raw_m_originalValue r /\ m_source m = raw_m_source r
             | None, None => True
             | _, _ => False
             end).
  { intros k. cbn [t0 base_token t_mode lookup]. rewrite Hvn.
    destruct (String.eqb k "."); [split; reflexivity|exact I]. }
  destruct (getObjMember (Some (NObject members)) "$extensions") as [ext|] eqn:Hext.
  2:{ injection Htoken as <- <-. injection Hraw as <-. apply Hdot. }
  assert (Hte : t_extensions t0 = truthy_or (evaluate ext) JUndefined).
  { cbn [t0 base_token t_extensions]. rewrite (prop_evaluate_plain _ _ Hpm).
    rewrite <- getObjMember_member_named, Hext. reflexivity. }
  rewrite Hte in Htoken.
  assert (Hpe : plain ext).
  { rewrite getObjMember_member_named in Hext.
    exact (plain_member _ _ _ Hplain Hext). }
  destruct ext as [em| | | | |];
    try (match type of Hte with
         | _ = truthy_or (evaluate ?e) _ =>
             pose proof (modes_of_scalar_throw (evaluate e) I) as Hthrow
         end;
         cbn [evaluate] in Htoken, Hthrow;
         destruct (js_member _ "mode") as [modes|]; [|discriminate Htoken];
         rewrite Hthrow in Htoken; discriminate Htoken).
  destruct (plain_members_of em Hpe) as [Hpem _].
  rewrite evaluate_NObject in Htoken. cbn [truthy_or truthy js_member] in Htoken.
  change (prop "mode" (fold_left _ em []))
    with (prop "mode" (match JObj (fold_left
                                     (fun acc m => assign (name_text (fst m))
                                                     (evaluate (snd m)) acc) em [])
                       with JObj o => o | _ => [] end)) in Htoken.
  rewrite <- evaluate_NObject in Htoken.
  change (match evaluate (NObject em) with JObj o => o | _ => [] end)
    with (evaluate_object (NObject em)) in Htoken.
  rewrite (prop_evaluate_plain _ _ Hpem) in Htoken.
  rewrite getObjMember_member_named in Hraw.
  destruct (member_named em "mode") as [mn|] eqn:Hmn; [|discriminate Htoken].
  pose proof (plain_member _ _ _ Hpe Hmn) as Hpmn.
  destruct mn as [mm| | | | |]; try discriminate Hraw.
  destruct (plain_members_of mm Hpmn) as [Hpmm _].
  rewrite evaluate_NObject in Htoken. cbn [js_keys] in Htoken.
  injection Htoken as <- <-. injection Hraw as <-. cbn [raw_mode].
  set (mo := fold_left (fun acc m => assign (name_text (fst m))
                                       (evaluate (snd m)) acc) mm []) in *.
  destruct (with_modes_spec
              (mode_state (Some filename) (NObject em) (JObj mo))
              (Object_keys mo) t0) as (m & -> & Hm).
  cbn [t_mode set_mode]. rewrite Hm, includes_Object_keys.
  rewrite lookup_raw_modes by (destruct Hpmm as [Hs _]; exact Hs).
  unfold mo at 1. rewrite lookup_fold_assign.
  destruct (last_member mode mm) as [v|] eqn:Hlast; cbn [is_some].
  - unfold mode_state, emptyMode. cbn [m_value m_source raw_m_originalValue
                                         raw_m_source js_member].
    split.
    + unfold prop, mo. now rewrite lookup_fold_assign, Hlast.
    + rewrite !getObjMember_member_named, Hmn.
      rewrite getObjMember_member_named.
      now rewrite <- (last_member_plain mode mm Hpmm), Hlast.
  - apply Hdot.
Qed.

(** X18: however [tokenFromNode] ends on a token node whose group is in the
    index (a token, nothing, or a throw), the id is in the list of the
    group, which keeps the ids it had and changes in nothing else, and no
    other group has changed. *)
Theorem tokenFromNode_registers_id
  (localeCompare : string -> string -> Z)
  (wcmatch : list string -> string -> bool)
  (node : Node) (path : list string) (filename : option string)
  (ignore : option Ignore) (groups : Groups) (g : Group) :
  isToken node path = true ->
  lookup (jsonID_of (removelast path)) groups = Some g ->
  match tokenFromNode localeCompare wcmatch node path filename ignore groups with
  | Ret _ gs | Throw _ gs =>
      exists g',
        lookup (jsonID_of (removelast path)) gs = Some g'
        /\ (forall x, In x (g_tokens g') <-> x = join "." path \/ In x (g_tokens g))
        /\ set_tokens g' (g_tokens g) = g
        /\ forall k, k <> jsonID_of (removelast path) ->
                     lookup k gs = lookup k groups
  | OutOfFuel => False
  end.
Proof.
  intros Htok Hg. rewrite tokenFromNode_pieces by exact Htok. rewrite Hg.
  pose proof (outcome_of_state wcmatch node path filename ignore (Some g)
                (registered localeCompare path g groups)) as Hs.
  assert (Hreg : exists g',
             lookup (jsonID_of (removelast path))
               (registered localeCompare path g groups) = Some g'
             /\ (forall x, In x (g_tokens g')
                           <-> x = join "." path \/ In x (g_tokens g))
             /\ set_tokens g' (g_tokens g) = g
             /\ forall k, k <> jsonID_of (removelast path) ->
                          lookup k (registered localeCompare path g groups)
                          = lookup k groups).
  { unfold registered.
    destruct (includes (g_tokens g) (join "." path)) eqn:E.
    - exists g. split; [exact Hg|]. split; [|split; [now destruct g|reflexivity]].
      intros x. apply includes_true in E. split; [now right|].
      intros [->|H]; assumption.
    - eexists. split; [apply lookup_assign_same|].
      split; [|split; [now destruct g|]].
      + intros x. cbn [g_tokens set_tokens]. rewrite in_sort_by, in_app_iff.
        simpl. intuition.
      + intros k Hk. now apply lookup_assign_other. }
  destruct (tokenFromNode_outcome_of wcmatch node path filename ignore (Some g)
              (registered localeCompare path g groups)) as [r s|e s|];
    [subst s; exact Hreg|subst s; exact Hreg|exact Hs].
Qed.

Lemma tokenFromNode_registers_id_witness :
  match tokenFromNode Examples.no_compare Examples.no_match
          Examples.kept_token ["old"; "kept"] None None
          Examples.deprecated_groups with
  | Ret _ gs | Throw _ gs =>
      exists g',
        lookup (jsonID_of (removelast ["old"; "kept"])) gs = Some g'
        /\ (forall x, In x (g_tokens g')
                      <-> x = join "." ["old"; "kept"]
                          \/ In x (g_tokens
                                     (set_group_prop "$deprecated" (JBool true)
                                        (emptyGroup "old"))))
        /\ set_tokens g'
             (g_tokens (set_group_prop "$deprecated" (JBool true)
                          (emptyGroup "old")))
           = set_group_prop "$deprecated" (JBool true) (emptyGroup "old")
        /\ forall k, k <> jsonID_of (removelast ["old"; "kept"]) ->
                     lookup k gs = lookup k Examples.deprecated_groups
  | OutOfFuel => False
  end.
Proof.
  apply (tokenFromNode_registers_id Examples.no_compare Examples.no_match
           Examples.kept_token ["old"; "kept"] None None
           Examples.deprecated_groups
           (set_group_prop "$deprecated" (JBool true) (emptyGroup "old")));
    reflexivity.
Defined.

(** X17: a token that [tokenFromNode] returns has its own [$type] when that is
    truthy and its group's otherwise; its [$description] and
    [$extensions] are its own or [undefined], never the group's; and it
    points to the group under the key of the path without its last
    segment. *)
Theorem tokenFromNode_type_from_group
  (localeCompare : string -> string -> Z)
  (wcmatch : list string -> string -> bool)
  (node : Node) (path : list string) (filename : option string)
  (ignore : option Ignore) (groups gs : Groups) (g : Group) (t : Token) :
  lookup (jsonID_of (removelast path)) groups = Some g ->
  tokenFromNode localeCompare wcmatch node path filename ignore groups
  = Ret (Some t) gs ->
  t_type t = truthy_or (prop "$type" (evaluate_object node)) (g_type g)
  /\ t_description t
     = truthy_or (prop "$description" (evaluate_object node)) JUndefined
  /\ t_extensions t
     = truthy_or (prop "$extensions" (evaluate_object node)) JUndefined
  /\ t_group t = Some (jsonID_of (removelast path)).
Proof.
  intros Hg H.
  destruct (isToken node path) eqn:Htok;
    [|rewrite tokenFromNode_not_token in H by exact Htok; discriminate H].
  rewrite tokenFromNode_pieces in H by exact Htok. rewrite Hg in H.
  unfold tokenFromNode_outcome_of, token_type, token_deprecated in H.
  cbn [option_map] in H.
  assert (Ht : (if truthy (prop "$type" (evaluate_object node))
                then Some (prop "$type" (evaluate_object node))
                else Some (g_type g))
               = Some (truthy_or (prop "$type" (evaluate_object node))
                         (g_type g))).
  { unfold truthy_or. destruct (truthy _); reflexivity. }
  rewrite Ht in H.
  destruct (if nullish (prop "$deprecated" (evaluate_object node))
            then Some (g_deprecated g ?? JUndefined)
            else Some (prop "$deprecated" (evaluate_object node)))
    as [deprecated|]; [|discriminate H].
  cbv zeta in H.
  destruct (ignored wcmatch ignore deprecated (join "." path));
    [discriminate H|].
  set (t0 := base_token node path filename (Some g) _ deprecated) in *.
  destruct (getObjMember (Some node) "$extensions") as [ext|].
  - destruct (js_member (t_extensions t0) "mode") as [modes|]; [|discriminate H].
    destruct (js_keys modes) as [keys|]; [|discriminate H].
    injection H as <- <-.
    destruct (with_modes_spec (mode_state filename ext modes) keys t0)
      as (m & -> & _).
    repeat split.
  - injection H as <- <-. repeat split.
Qed.

Lemma tokenFromNode_type_from_group_witness :
  t_type Samples.dark_token
  = truthy_or (prop "$type" (evaluate_object (NObject Samples.dark_members)))
      (g_type (emptyGroup ""))
  /\ t_description Samples.dark_token
     = truthy_or
         (prop "$description" (evaluate_object (NObject Samples.dark_members)))
         JUndefined
  /\ t_extensions Samples.dark_token
     = truthy_or
         (prop "$extensions" (evaluate_object (NObject Samples.dark_members)))
         JUndefined
  /\ t_group Samples.dark_token = Some (jsonID_of (removelast ["a"])).
Proof.
  apply (tokenFromNode_type_from_group Examples.no_compare Examples.no_match
           (NObject Samples.dark_members) ["a"] (Some Examples.file) None
           Samples.root_only Samples.dark_groups (emptyGroup "")
           Samples.dark_token).
  - reflexivity.
  - vm_compute. reflexivity.
Defined.

(* ================================================================== *)
(** ** Chains of aliases *)

Section ChainFacts.

Variable logger : Logger.
Variable token : Token.
Variable mode : string.


End ChainFacts.


Lemma ends_ret fuel {A} (a : A) : ends fuel (ret a).
Proof. intros w _. reflexivity. Qed.

Lemma ends_throw fuel {A} (e : Exn) : ends fuel (@throw World A e).
Proof. intros w _. reflexivity. Qed.

Lemma ends_get fuel : ends fuel (@get World).
Proof. intros w _. reflexivity. Qed.

Lemma ends_must fuel {A} (at_ : string) (o : option A) :
  ends fuel (@must World A at_ o).
Proof. destruct o; [apply ends_ret|apply ends_throw]. Qed.

Lemma ends_logger_error fuel (logger : Logger) (e : LogEntry) :
  ends fuel (logger_error logger e).
Proof.
  intros w _. unfold logger_error. destruct (raises logger e); reflexivity.
Qed.

Lemma ends_set_refs fuel (f : ModeRefMap -> ModeRefMap) :
  ends fuel (modify (set_refs_of f)).
Proof. intros w _. reflexivity. Qed.

Lemma ends_bind fuel {A B} (c : M World A) (k : A -> M World B) :
  ends fuel c -> (forall a, ends fuel (k a)) -> ends fuel (bind c k).
Proof.
  intros Hc Hk w Hw. unfold bind. specialize (Hc w Hw).
  destruct (c w) as [a w'|e w'|]; auto.
  assert (Hw' : (List.length (tokens w') < fuel)%nat) by now rewrite Hc.
  specialize (Hk a w' Hw'). destruct (k a w'); congruence.
Qed.

Create HintDb ends.
#[local] Hint Resolve ends_ret ends_throw ends_get ends_must
  ends_logger_error ends_set_refs : ends.

Ltac ends_step :=
  match goal with
  | |- ends _ (bind _ _) => apply ends_bind; [|intros ?]
  | |- ends _ (if ?b then _ else _) => destruct b
  | |- ends _ (match ?x with _ => _ end) => destruct x
  | |- ends _ _ => solve [auto with ends]
  end.

Lemma map_drop_value_suffix_nodup (pre : list string) :
  NoDup pre ->
  (forall r, In r pre -> exists x, r = (x ++ "/$value")%string) ->
  NoDup (map drop_value_suffix pre).
Proof.
  induction 1 as [|r pre Hn Hd IH]; intros Hall; simpl; constructor.
  - intros Hin. apply in_map_iff in Hin. destruct Hin as (r' & E & Hr').
    destruct (Hall r (or_introl eq_refl)) as [x ->].
    destruct (Hall r' (or_intror Hr')) as [x' ->].
    rewrite !drop_value_suffix_app in E. subst x'. contradiction.
  - apply IH. intros r' Hr'. apply Hall. now right.
Qed.

Section EndsFacts.

Variable logger : Logger.
Variable token : Token.
Variable mode : string.
Hypothesis logger_throws : forall e, raises logger e = true.

Lemma resolveInner_ends_in fuel :
  forall alias pre w,
    NoDup pre ->
    (forall r, In r pre ->
       exists x, r = (x ++ "/$value")%string /\ In x (map fst (tokens w))) ->
    (List.length (tokens w) < fuel + List.length pre)%nat ->
    match resolveInner logger token mode fuel alias pre w with
    | Ret _ w' | Throw _ w' => tokens w' = tokens w
    | OutOfFuel => False
    end.
Proof.
  induction fuel as [|fuel IH]; intros alias pre w Hd Hall Hlen.
  - exfalso.
    assert (Hnd : NoDup (map drop_value_suffix pre)).
    { apply map_drop_value_suffix_nodup; [exact Hd|].
      intros r Hr. destruct (Hall r Hr) as (x & -> & _). now exists x. }
    assert (Hincl : incl (map drop_value_suffix pre) (map fst (tokens w))).
    { intros k Hk. apply in_map_iff in Hk. destruct Hk as (r & <- & Hr).
      destruct (Hall r Hr) as (x & -> & Hx).
      now rewrite drop_value_suffix_app. }
    pose proof (NoDup_incl_length Hnd Hincl) as Hle.
    rewrite !length_map in Hle. simpl in Hlen. lia.
  - cbn [resolveInner].
    destruct (aliasToRef alias) as [r|] eqn:Er.
    + destruct (includes pre r) eqn:Ei.
      { unfold bind, logger_error. now rewrite logger_throws. }
      destruct (lookup (drop_value_suffix r) (tokens w)) as [next|] eqn:En.
      2:{ unfold bind, get, ret, logger_error. rewrite En. cbn [is_some].
          now rewrite logger_throws. }
      destruct (lookup mode (t_mode next)) as [state|] eqn:Es.
      2:{ unfold bind, get, must, throw, ret. rewrite En. cbn [is_some].
          now rewrite Es. }
      assert (Hnext : forall s,
                 match resolveInner logger token mode fuel s (pre ++ [r]) w with
                 | Ret _ w' | Throw _ w' => tokens w' = tokens w
                 | OutOfFuel => False
                 end).
      { intros s. apply IH.
        - apply NoDup_app; [exact Hd|repeat constructor; auto|].
          intros x Hx [<-|[]]. apply includes_true in Hx. congruence.
        - intros r' Hr'. apply in_app_or in Hr'.
          destruct Hr' as [Hr'|[<-|[]]]; [now apply Hall|].
          pose proof (aliasToRef_escape _ _ Er) as E.
          exists ("#/" ++ escape_pointer (parseAlias alias))%string.
          split; [exact E|].
          apply (lookup_in_keys _ next). rewrite <- En. f_equal.
          rewrite E. symmetry.
          apply (drop_value_suffix_app
                   ("#/" ++ escape_pointer (parseAlias alias))).
        - rewrite List.length_app. simpl. lia. }
      unfold bind, get, must, ret. rewrite En. cbn [is_some]. rewrite Es.
      destruct (m_originalValue state) as [| | | |s| |]; try reflexivity.
      destruct (isAlias (JStr s)); [apply Hnext|reflexivity].
    + unfold bind, ret, get, logger_error. cbn [is_some].
      now rewrite logger_throws.
Qed.

Lemma resolveInner_ends fuel alias : ends fuel (resolveInner logger token mode fuel alias []).
Proof.
  intros w Hw. apply resolveInner_ends_in.
  - constructor.
  - intros r [].
  - simpl. lia.
Qed.

Lemma resolveString_ends fuel value node expectedTypes path :
  ends fuel (resolveString logger token mode fuel value node expectedTypes path).
Proof.
  unfold resolveString.
  destruct (negb (isAlias (JStr value))).
  - repeat ends_step.
  - apply ends_bind; [apply resolveInner_ends|intros r].
    repeat ends_step.
Qed.

Lemma run_keys_ends fuel keys calls :
  (forall key call, lookup key calls = Some call -> ends fuel call) ->
  forall value, ends fuel (run_keys keys calls value).
Proof.
  intros Hc. induction keys as [|key r IH]; intros value; cbn [run_keys].
  - apply ends_ret.
  - destruct (lookup key calls) as [call|] eqn:E; [|apply IH].
    apply ends_bind; [eapply Hc; eassumption|intros x; apply IH].
Qed.

Lemma traverseAndResolve_ends fuel :
  forall value node expectedTypes path,
    ends fuel
      (traverseAndResolve logger token mode fuel value node expectedTypes path).
Proof.
  fix IH 1. intros value node expectedTypes path.
  destruct value as [| |b|n|s|l|o]; cbn [traverseAndResolve];
    try apply ends_ret; try apply ends_throw.
  - apply resolveString_ends.
  - apply ends_bind; [|intros; apply ends_ret].
    generalize 0%nat.
    induction l as [|x r IHl]; intros i.
    + apply ends_ret.
    + apply ends_bind.
      * destruct (negb (truthy x)); [apply ends_ret|].
        apply ends_bind; [apply ends_must|intros; apply IH].
      * intros x'. apply ends_bind; [apply IHl|intros; apply ends_ret].
  - destruct (slots_of expectedTypes) as [slots|]; [|apply ends_ret].
    apply ends_bind; [|intros; apply ends_ret].
    apply run_keys_ends.
    induction o as [|[key x] r IHo]; intros k call Hk.
    + discriminate.
    + cbn [lookup] in Hk. destruct (String.eqb k key).
      * injection Hk as <-. apply IH.
      * eapply IHo. exact Hk.
Qed.

End EndsFacts.

Lemma length_assign_same {A} (k : string) (v v' : A) (o : list (string * A)) :
  lookup k o = Some v' -> List.length (assign k v o) = List.length o.
Proof.
  induction o as [|[k' x] r IH]; simpl; [discriminate|].
  destruct (String.eqb k k'); [reflexivity|].
  intros H. simpl. now rewrite IH.
Qed.

Lemma ends_in_size_bind fuel {A B} (c : M World A) (k : A -> M World B) :
  ends_in_size fuel c -> (forall a, ends_in_size fuel (k a)) ->
  ends_in_size fuel (bind c k).
Proof.
  intros Hc Hk w Hw. unfold bind. specialize (Hc w Hw).
  destruct (c w) as [a w'|e w'|]; auto.
  assert (Hw' : (List.length (tokens w') < fuel)%nat) by now rewrite Hc.
  specialize (Hk a w' Hw'). destruct (k a w'); congruence.
Qed.

Lemma ends_in_size_for_of fuel {A} (l : list A) (body : A -> M World unit) :
  (forall x, ends_in_size fuel (body x)) -> ends_in_size fuel (for_of l body).
Proof.
  intros Hb. induction l as [|x r IH]; cbn [for_of].
  - intros w _. reflexivity.
  - apply ends_in_size_bind; [apply Hb|intros _; exact IH].
Qed.

Section ModeEnds.

Variable logger : Logger.
Hypothesis logger_throws : forall e, raises logger e = true.

Lemma resolveMode_ends_in_size token mode fuel key :
  ends_in_size fuel (resolveMode logger token mode fuel key).
Proof.
  intros w Hw. unfold resolveMode.
  unfold bind at 1. unfold get at 1.
  unfold bind at 1. destruct (lookup key (tokens w)) as [tok|]; [|reflexivity].
  cbn [must ret].
  unfold bind at 1. destruct (lookup mode (t_mode tok)) as [state|];
    [|reflexivity].
  cbn [must ret].
  unfold bind at 1.
  pose proof (traverseAndResolve_ends logger token mode logger_throws fuel
                (m_value state) (aliasEntry_node token)
                (if truthy (t_type tok) then Some [t_type tok] else None)
                [t_jsonID tok; "$value"] w Hw) as Ht.
  destruct (traverseAndResolve logger token mode fuel (m_value state) _ _ _ w)
    as [finalValue w1|e w1|]; [|now rewrite Ht|exact Ht].
  unfold bind at 1. unfold get at 1.
  unfold bind at 1. rewrite Ht.
  destruct (lookup key (tokens w)) as [tok1|] eqn:Ek;
    [|cbn [must throw]; now rewrite Ht].
  cbn [must ret].
  unfold bind at 1. destruct (lookup mode (t_mode tok1)) as [state1|];
    [|cbn [must throw]; now rewrite Ht].
  cbn [must ret modify set_tokens_of tokens].
  rewrite Ht. now apply (length_assign_same key _ tok1).
Qed.

End ModeEnds.

(** X24: with a logger whose [error] always throws, [resolveAliases] ends on
    every token set: no chain of aliases is followed for more hops than
    there are tokens, so any fuel above their number is enough; the
    token set keeps its size. *)
Theorem resolveAliases_ends_when_logger_throws (logger : Logger) (fuel : nat)
  (w : World) :
  (forall e, raises logger e = true) ->
  (List.length (tokens w) < fuel)%nat ->
  match resolveAliases logger fuel w with
  | Ret _ w' | Throw _ w' => List.length (tokens w') = List.length (tokens w)
  | OutOfFuel => False
  end.
Proof.
  intros Hl. revert w.
  change (ends_in_size fuel (resolveAliases logger fuel)).
  unfold resolveAliases.
  apply ends_in_size_bind; [intros w _; reflexivity|intros w0].
  apply ends_in_size_for_of. intros kt.
  apply ends_in_size_for_of. intros mode.
  now apply resolveMode_ends_in_size.
Qed.

(* ================================================================== *)
(** ** The linking pass *)

Lemma same_cores_refl ts : same_cores ts ts.
Proof. reflexivity. Qed.

Lemma same_cores_trans ts1 ts2 ts3 :
  same_cores ts1 ts2 -> same_cores ts2 ts3 -> same_cores ts1 ts3.
Proof. unfold same_cores. congruence. Qed.

Lemma map_assign_same {A B} (g : A -> B) (k : string) (v v0 : A)
  (o : list (string * A)) :
  lookup k o = Some v0 -> g v = g v0 ->
  map (fun kv => (fst kv, g (snd kv))) (assign k v o)
  = map (fun kv => (fst kv, g (snd kv))) o.
Proof.
  intros Hl Hg. induction o as [|[k' x] r IH]; simpl in *; [discriminate|].
  destruct (String.eqb_spec k k') as [->|N].
  - injection Hl as ->. simpl. now rewrite Hg.
  - simpl. now rewrite IH.
Qed.

Lemma same_cores_assign k t t0 ts :
  lookup k ts = Some t0 -> token_core t = token_core t0 ->
  same_cores ts (assign k t ts).
Proof. intros Hl Hc. unfold same_cores. now apply map_assign_same with (v0 := t0). Qed.

Lemma same_cores_update k f ts :
  (forall t, token_core (f t) = token_core t) ->
  same_cores ts (update_token k f ts).
Proof.
  intros Hf. unfold update_token.
  destruct (lookup k ts) as [t|] eqn:E; [|reflexivity].
  now apply same_cores_assign with (t0 := t).
Qed.

Lemma same_cores_keys ts ts' :
  same_cores ts ts' -> map fst ts' = map fst ts.
Proof.
  unfold same_cores. intros H.
  apply (f_equal (map fst)) in H. rewrite !map_map in H. exact H.
Qed.

Lemma lookup_none_keys {A} (k : string) (o : list (string * A)) :
  lookup k o = None <-> ~ In k (map fst o).
Proof.
  split.
  - intros H Hin. apply in_keys_lookup in Hin. destruct Hin as [v Hv]. congruence.
  - intros H. destruct (lookup k o) as [v|] eqn:E; [|reflexivity].
    exfalso. apply H. now apply (lookup_in_keys k v).
Qed.

Lemma same_cores_lookup_none ts ts' k :
  same_cores ts ts' -> lookup k ts = None -> lookup k ts' = None.
Proof.
  intros H Hn. apply lookup_none_keys. rewrite (same_cores_keys _ _ H).
  now apply lookup_none_keys.
Qed.

Lemma annotates_ret {A} (a : A) : only_annotates (ret a).
Proof. intros w. reflexivity. Qed.

Lemma annotates_throw {A} (e : Exn) : only_annotates (@throw World A e).
Proof. intros w. reflexivity. Qed.

Lemma annotates_get : only_annotates (@get World).
Proof. intros w. reflexivity. Qed.

Lemma annotates_must {A} (at_ : string) (o : option A) :
  only_annotates (@must World A at_ o).
Proof. destruct o; [apply annotates_ret|apply annotates_throw]. Qed.

Lemma annotates_set_refs (f : ModeRefMap -> ModeRefMap) :
  only_annotates (modify (set_refs_of f)).
Proof. intros w. reflexivity. Qed.

Lemma annotates_log (f : list LogEntry -> list LogEntry) :
  only_annotates
    (modify (fun w => mkWorld (tokens w) (modeRefMap w) (f (log w)))).
Proof. intros w. reflexivity. Qed.

Lemma annotates_tokens (f : Tokens -> Tokens) :
  (forall ts, same_cores ts (f ts)) ->
  only_annotates (modify (set_tokens_of f)).
Proof. intros Hf w. apply Hf. Qed.

Lemma annotates_bind {A B} (c : M World A) (k : A -> M World B) :
  only_annotates c -> (forall a, only_annotates (k a)) ->
  only_annotates (bind c k).
Proof.
  intros Hc Hk w. unfold bind. specialize (Hc w).
  destruct (c w) as [a w'|e w'|]; auto.
  specialize (Hk a w'). destruct (k a w'); auto;
    eapply same_cores_trans; eassumption.
Qed.

Lemma annotates_for_of {A} (l : list A) (body : A -> M World unit) :
  (forall x, only_annotates (body x)) -> only_annotates (for_of l body).
Proof.
  intros Hb. induction l as [|x r IH]; cbn [for_of].
  - apply annotates_ret.
  - apply annotates_bind; [apply Hb|intros _; exact IH].
Qed.

Lemma token_core_set_mode t state state' mode :
  lookup mode (t_mode t) = Some state ->
  mode_core state' = mode_core state ->
  token_core (set_mode t (assign mode state' (t_mode t))) = token_core t.
Proof.
  intros Hl Hc. unfold token_core. cbn [set_mode t_id t_type t_description
    t_deprecated t_value t_extensions t_group t_originalValue t_source
    t_jsonID t_mode].
  now rewrite (map_assign_same mode_core mode state' state).
Qed.

Section GraphFacts.

Variable localeCompare : string -> string -> Z.
Variable logger : Logger.

Lemma link_aliasedBy_cores refs : forall ts,
  same_cores ts (link_aliasedBy localeCompare refs ts).
Proof.
  induction refs as [|ref upstream IH]; intros ts; cbn [link_aliasedBy].
  - reflexivity.
  - destruct (lookup (getTokenRef ref) ts); [|apply IH].
    destruct upstream as [|u us]; [reflexivity|].
    eapply same_cores_trans; [|apply IH].
    generalize (u :: us). intros l. revert ts.
    induction l as [|r l IHl]; intros ts; cbn [fold_left]; [reflexivity|].
    eapply same_cores_trans; [|apply IHl].
    apply same_cores_update. intros tok.
    destruct (includes_id _ _); reflexivity.
Qed.

Lemma link_partial_alias_annotates mode jsonID rootRef refChain :
  only_annotates (link_partial_alias logger mode jsonID rootRef refChain).
Proof.
  intros w. unfold link_partial_alias. unfold bind at 1. unfold get at 1.
  destruct (lookup rootRef (tokens w)) as [root|] eqn:Er; [|reflexivity].
  destruct (lookup mode (t_mode root)) as [state|] eqn:Es; [|reflexivity].
  destruct (negb (is_empty_list (partial_path jsonID)) && truthy (m_value state)
            && typeof_object (m_value state)); [|reflexivity].
  cbv zeta.
  set (state' := if truthy_partial (m_partialAliasOf state) then state
                 else set_m_partialAliasOf
                        (Some (PNode (isArray (t_value root)) [])) state).
  set (root' := set_mode root (assign mode state' (t_mode root))).
  destruct (link_partial logger (tokens w) refChain (partial_path jsonID)
              (m_value state) (getObjMember (src_node (m_source state)) "$value")
              match t_partialAliasOf root' with
              | Some p => p
              | None => PLeaf None
              end) as [[filled entry] e].
  assert (Hroot : token_core root' = token_core root).
  { apply (token_core_set_mode root state); [exact Es|].
    unfold state'. destruct (truthy_partial _); reflexivity. }
  assert (Hfirst : same_cores (tokens w)
                     (assign rootRef
                        match t_partialAliasOf root' with
                        | Some _ => set_partialAliasOf (Some filled) root'
                        | None => root'
                        end (tokens w))).
  { apply same_cores_assign with (t0 := root); [exact Er|].
    rewrite <- Hroot. destruct (t_partialAliasOf root'); reflexivity. }
  unfold bind, modify, ret, throw. cbn [set_tokens_of tokens].
  destruct entry; destruct e; exact Hfirst.
Qed.

Lemma link_entry_annotates mode jsonID refChain :
  only_annotates (link_entry localeCompare logger mode jsonID refChain).
Proof.
  unfold link_entry. destruct (is_empty_list refChain); [apply annotates_ret|].
  apply annotates_bind; [|intros _].
  { apply annotates_tokens. intros ts. apply same_cores_update. reflexivity. }
  apply annotates_bind; [apply annotates_get|intros w].
  apply annotates_bind; [|intros _].
  { destruct (Str.endsWith jsonID "/$value" || has jsonID (tokens w));
      [|apply annotates_ret].
    apply annotates_tokens. intros ts. apply same_cores_update. reflexivity. }
  apply annotates_bind; [apply link_partial_alias_annotates|intros _].
  apply annotates_bind; [|intros _].
  { apply annotates_tokens. intros ts. apply link_aliasedBy_cores. }
  destruct (String.eqb mode "."); [|apply annotates_ret].
  intros w1. unfold bind at 1. unfold get at 1.
  unfold bind at 1.
  destruct (lookup jsonID (tokens w1)) as [t|] eqn:Et; [|reflexivity].
  cbn [must ret]. unfold bind at 1.
  destruct (lookup mode (t_mode t)) as [state|]; [|reflexivity].
  cbn [must ret modify set_tokens_of tokens].
  now apply same_cores_assign with (t0 := t).
Qed.

Lemma throws_without_bind key {A B} (c : M World A) (k : A -> M World B) :
  only_annotates c -> (forall a, throws_without key (k a)) ->
  throws_without key (bind c k).
Proof.
  intros Hc Hk w Hw. unfold bind. specialize (Hc w).
  destruct (c w) as [a w'|e w'|]; [|exact I|exact Hc].
  apply Hk. now apply (same_cores_lookup_none (tokens w)).
Qed.

Lemma link_entry_throws_without jsonID refChain :
  refChain <> [] ->
  throws_without jsonID (link_entry localeCompare logger "." jsonID refChain).
Proof.
  intros Hne. unfold link_entry.
  destruct refChain as [|r0 rs]; [congruence|]. cbn [is_empty_list].
  apply throws_without_bind; [|intros _].
  { apply annotates_tokens. intros ts. apply same_cores_update. reflexivity. }
  apply throws_without_bind; [apply annotates_get|intros w].
  apply throws_without_bind; [|intros _].
  { destruct (Str.endsWith jsonID "/$value" || has jsonID (tokens w));
      [|apply annotates_ret].
    apply annotates_tokens. intros ts. apply same_cores_update. reflexivity. }
  apply throws_without_bind; [apply link_partial_alias_annotates|intros _].
  apply throws_without_bind; [|intros _].
  { apply annotates_tokens. intros ts. apply link_aliasedBy_cores. }
  cbn [String.eqb Ascii.eqb Bool.eqb].
  intros w1 Hw1. unfold bind, get. rewrite Hw1. exact I.
Qed.

End GraphFacts.

(** X25: however it ends, [graphAliases] leaves the token set with the same
    keys in the same order and, under each key, a token that differs at
    most in its alias fields ([aliasOf], [aliasChain], [aliasedBy],
    [partialAliasOf], [dependencies]), at the root and in its modes. *)
Theorem graphAliases_only_annotates (localeCompare : string -> string -> Z)
  (logger : Logger) (w : World) :
  match graphAliases localeCompare logger w with
  | Ret _ w' | Throw _ w' => same_cores (tokens w) (tokens w')
  | OutOfFuel => False
  end.
Proof.
  revert w. change (only_annotates (graphAliases localeCompare logger)).
  unfold graphAliases.
  apply annotates_bind; [apply annotates_get|intros w0].
  apply annotates_for_of. intros mode.
  apply annotates_bind; [apply annotates_get|intros w1].
  apply annotates_bind; [|intros _].
  { destruct (lookup mode (modeRefMap w1)) as [[refMap|]|];
      try apply annotates_ret; apply annotates_set_refs. }
  apply annotates_bind; [apply annotates_get|intros w2].
  apply annotates_for_of. intros e. apply link_entry_annotates.
Qed.

(** X26: in the mode [.], the turn of the loop of [graphAliases] for an
    entry of the ref map with a chain that is not empty, filed under a key
    that is not a token's, never returns: it ends with an exception (the
    mode's alias fields are copied to the root of [tokens[jsonID]], which
    is not there); up to then the tokens keep all but their alias
    fields. *)
Theorem link_entry_root_mode_needs_token_key
  (localeCompare : string -> string -> Z) (logger : Logger)
  (jsonID : string) (refChain : list string) (w : World) :
  refChain <> [] ->
  lookup jsonID (tokens w) = None ->
  exists e w',
    link_entry localeCompare logger "." jsonID refChain w = Throw e w'
    /\ same_cores (tokens w) (tokens w').
Proof.
  intros Hne Hw.
  pose proof (link_entry_throws_without localeCompare logger jsonID refChain
                Hne w Hw) as Ht.
  pose proof (link_entry_annotates localeCompare logger "." jsonID refChain w)
    as Ha.
  destruct (link_entry localeCompare logger "." jsonID refChain w)
    as [a w'|e w'|]; try contradiction.
  now exists e, w'.
Qed.

(* ================================================================== *)
(** ** The properties on documents *)

Ltac distinct_names :=
  repeat (constructor; [cbn; intuition discriminate|]); constructor.

Lemma aliasToRef_injective_witness :
  parseAlias "{color.red}" = parseAlias "{color.red}".
Proof.
  apply (aliasToRef_injective "{color.red}" "{color.red}" "#/color/red/$value");
    reflexivity.
Defined.

Lemma getObjMember_agrees_with_evaluate_witness :
  prop "$type" (evaluate_object (NObject Samples.vendor_members))
  = match getObjMember (Some (NObject Samples.vendor_members)) "$type" with
    | Some v => evaluate v
    | None => JUndefined
    end.
Proof.
  apply (getObjMember_agrees_with_evaluate Samples.vendor_members "$type").
  split; [reflexivity|distinct_names].
Defined.

Lemma getObjMembers_last_witness :
  nth_error Samples.repeated_members 2 = Some (NameString "a", NNumber 3)
  /\ forall j v, (2 < j)%nat ->
       nth_error Samples.repeated_members j <> Some (NameString "a", v).
Proof.
  apply (getObjMembers_last Samples.repeated_members "a" (NNumber 3) 2).
  reflexivity.
Defined.

Lemma mergeObjects_member_witness :
  getObjMember (Some (NObject Samples.both_members)) "y"
  = match getObjMember (Some (NObject Samples.right_members)) "y" with
    | None => getObjMember (Some (NObject Samples.left_members)) "y"
    | Some vb =>
        match getObjMember (Some (NObject Samples.left_members)) "y" with
        | None => Some vb
        | Some va => if is_object vb then merged (mergeObjects va vb) else Some vb
        end
    end.
Proof.
  apply (mergeObjects_member Samples.left_members Samples.right_members
           (NObject Samples.both_members) "y").
  - distinct_names.
  - reflexivity.
Defined.

Lemma mergeObjects_keeps_order_witness :
  exists members extra,
    NObject Samples.both_members = NObject members
    /\ map fst members = map fst Samples.left_members ++ extra
    /\ forall n, In n extra ->
         In n (map fst Samples.right_members)
         /\ ~ In n (map fst Samples.left_members).
Proof.
  apply (mergeObjects_keeps_order Samples.left_members Samples.right_members
           (NObject Samples.both_members)).
  reflexivity.
Defined.

Lemma mergeObjects_idempotent_witness :
  plain (NObject Samples.both_members)
  /\ mergeObjects (NObject Samples.both_members) (NObject Samples.both_members)
     = inr (NObject Samples.both_members)
  /\ NObject Samples.both_members = NObject Samples.both_members.
Proof.
  assert (Hp : plain (NObject Samples.both_members)).
  { cbn. repeat split; try reflexivity; distinct_names. }
  split; [exact Hp|]. split; [reflexivity|].
  apply (mergeObjects_idempotent (NObject Samples.both_members)
           (NObject Samples.both_members) Hp).
  reflexivity.
Defined.

Lemma mergeDocuments_last_wins_witness :
  getObjMember
    (Some (NObject [Examples.member "x" (NNumber 1);
                    Examples.member "y" (NNumber 3)])) "y"
  = Some (NNumber 3).
Proof.
  apply (mergeDocuments_last_wins
           [NObject [Examples.member "x" (NNumber 1);
                     Examples.member "y" (NNumber 2)]]
           [Examples.member "y" (NNumber 3)]
           (NObject [Examples.member "x" (NNumber 1);
                     Examples.member "y" (NNumber 3)])
           "y" (NNumber 3)).
  - distinct_names.
  - reflexivity.
  - reflexivity.
  - reflexivity.
Defined.

Lemma groupFromNode_inherits_nearest_witness :
  exists g groups',
    groupFromNode (NObject []) ["a"; "b"; "c"] Examples.typed_groups
    = Ret (Some g) groups'
    /\ cascading_value Cascading_type g
       = cascading_value Cascading_type
           (set_group_prop "$type" (JStr "dimension") (emptyGroup "a.b")).
Proof.
  apply (groupFromNode_inherits_nearest Cascading_type [] ["a"; "b"; "c"]
           Examples.typed_groups "#/a/b"
           (set_group_prop "$type" (JStr "dimension") (emptyGroup "a.b")));
    try reflexivity.
  intros k q Hl _ _. cbn in Hl.
  destruct (String.eqb_spec k "#/") as [->|_]; [reflexivity|].
  destruct (String.eqb_spec k "#/a") as [->|_]; [reflexivity|].
  destruct (String.eqb_spec k "#/a/b") as [->|_]; [reflexivity|discriminate Hl].
Defined.

Lemma groupFromNode_keeps_own_witness :
  exists g groups',
    groupFromNode (NObject []) ["a"] Samples.root_only = Ret (Some g) groups'
    /\ cascading_value Cascading_type g
       = cascading_value Cascading_type (own_group ["a"] Samples.root_only).
Proof.
  apply (groupFromNode_keeps_own Cascading_type [] ["a"] Samples.root_only);
    [reflexivity|].
  intros k q Hl _. cbn in Hl.
  destruct (String.eqb k "#/"); [|discriminate Hl].
  injection Hl as <-. reflexivity.
Defined.

Lemma groupFromNode_idempotent_witness :
  groupFromNode (NObject [Examples.member "$type" (NString "color")]) ["a"]
    [("#/a", set_group_prop "$type" (JStr "color") (emptyGroup "a"))]
  = Ret (Some (set_group_prop "$type" (JStr "color") (emptyGroup "a")))
      [("#/a", set_group_prop "$type" (JStr "color") (emptyGroup "a"))].
Proof.
  apply (groupFromNode_idempotent
           [Examples.member "$type" (NString "color")] ["a"] []).
  reflexivity.
Defined.

Lemma tokenFromNode_returns_fresh_witness :
  isToken (NObject Samples.dark_members) ["a"] = true
  /\ t_id Samples.dark_token = join "." ["a"]
  /\ t_jsonID Samples.dark_token = jsonID_of ["a"]
  /\ t_value Samples.dark_token
     = prop "$value" (evaluate_object (NObject Samples.dark_members))
  /\ t_source Samples.dark_token
     = mkSource (Some Examples.file) (Some (NObject Samples.dark_members))
  /\ ignored Examples.no_match None (t_deprecated Samples.dark_token)
       (t_id Samples.dark_token) = false
  /\ t_originalValue Samples.dark_token = JUndefined
  /\ t_aliasOf Samples.dark_token = None
  /\ t_aliasChain Samples.dark_token = None
  /\ t_aliasedBy Samples.dark_token = None
  /\ t_partialAliasOf Samples.dark_token = None
  /\ t_dependencies Samples.dark_token = None
  /\ has "." (t_mode Samples.dark_token) = true
  /\ forall k m,
       lookup k (t_mode Samples.dark_token) = Some m ->
       m_originalValue m = JUndefined
       /\ m_aliasOf m = None /\ m_aliasChain m = None /\ m_aliasedBy m = None
       /\ m_partialAliasOf m = None /\ m_dependencies m = None
       /\ src_filename (m_source m) = Some Examples.file.
Proof.
  apply (tokenFromNode_returns_fresh Examples.no_compare Examples.no_match
           (NObject Samples.dark_members) ["a"] (Some Examples.file) None
           Samples.root_only Samples.dark_groups Samples.dark_token).
  vm_compute. reflexivity.
Defined.

Lemma tokenFromNode_without_group_witness :
  (truthy (prop "$type" (evaluate_object Examples.kept_token)) = false ->
   tokenFromNode Examples.no_compare Examples.no_match Examples.kept_token
     ["old"; "kept"] None None []
   = Throw (TypeError "group.$type") [])
  /\ (truthy (prop "$type" (evaluate_object Examples.kept_token)) = true ->
      nullish (prop "$deprecated" (evaluate_object Examples.kept_token)) = true ->
      tokenFromNode Examples.no_compare Examples.no_match Examples.kept_token
        ["old"; "kept"] None None []
      = Throw (TypeError "group.$deprecated") [])
  /\ (truthy (prop "$type" (evaluate_object Examples.kept_token)) = true ->
      nullish (prop "$deprecated" (evaluate_object Examples.kept_token)) = false ->
      match tokenFromNode Examples.no_compare Examples.no_match
              Examples.kept_token ["old"; "kept"] None None [] with
      | Ret (Some t) gs =>
          gs = [] /\ t_group t = None
          /\ t_type t = prop "$type" (evaluate_object Examples.kept_token)
          /\ t_deprecated t
             = prop "$deprecated" (evaluate_object Examples.kept_token)
      | Ret None gs => gs = []
      | Throw e gs =>
          gs = [] /\ getObjMember (Some Examples.kept_token) "$extensions" <> None
      | OutOfFuel => False
      end).
Proof.
  apply (tokenFromNode_without_group Examples.no_compare Examples.no_match
           Examples.kept_token ["old"; "kept"] None None []); reflexivity.
Defined.

Lemma tokenFromNode_extensions_without_mode_witness :
  tokenFromNode Examples.no_compare Examples.no_match
    (NObject Samples.vendor_members) ["a"] (Some Examples.file) None
    Samples.root_only
  = Throw (TypeError "Object.keys(token.$extensions.mode)")
      (registered Examples.no_compare ["a"] (emptyGroup "") Samples.root_only)
  /\ exists raw,
       tokenRawValuesFromNode (NObject Samples.vendor_members) Examples.file
         ["a"] tt
       = Ret (Some raw) tt
       /\ map fst (raw_mode raw) = ["."].
Proof.
  apply (tokenFromNode_extensions_without_mode Examples.no_compare
           Examples.no_match Samples.vendor_members
           [Examples.member "vendor" (NString "x")] ["a"] Examples.file None
           Samples.root_only (emptyGroup "")); try reflexivity.
  split; [reflexivity|distinct_names].
Defined.

Lemma raw_values_match_token_witness :
  match lookup "dark" (t_mode Samples.dark_token),
        lookup "dark" (raw_mode Samples.dark_raw) with
  | Some m, Some r =>
      m_value m = raw_m_originalValue r /\ m_source m = raw_m_source r
  | None, None => True
  | _, _ => False
  end.
Proof.
  apply (raw_values_match_token Examples.no_compare Examples.no_match
           Samples.dark_members ["a"] Examples.file None Samples.root_only
           Samples.dark_groups Samples.dark_token Samples.dark_raw "dark").
  - cbn. repeat split; try reflexivity; distinct_names.
  - vm_compute. reflexivity.
  - vm_compute. reflexivity.
Defined.


Lemma resolveAliases_ends_when_logger_throws_witness :
  match resolveAliases throwing 3 Examples.cycle_world with
  | Ret _ w' | Throw _ w' =>
      List.length (tokens w') = List.length (tokens Examples.cycle_world)
  | OutOfFuel => False
  end.
Proof.
  apply (resolveAliases_ends_when_logger_throws throwing 3 Examples.cycle_world).
  - intros e. reflexivity.
  - vm_compute. lia.
Defined.

Lemma link_entry_root_mode_needs_token_key_witness :
  exists e w',
    link_entry Examples.no_compare collecting "." "#/a/$value" ["#/b/$value"]
      Chain.world
    = Throw e w'
    /\ same_cores (tokens Chain.world) (tokens w').
Proof.
  apply (link_entry_root_mode_needs_token_key Examples.no_compare collecting
           "#/a/$value" ["#/b/$value"] Chain.world).
  - discriminate.
  - reflexivity.
Defined.

(* ================================================================== *)
(** ** The shape of resolved values *)

Lemma run_keys_same_keys keys calls : forall value w o' w',
  (forall key, In key keys -> In key (map fst value)) ->
  run_keys keys calls value w = Ret o' w' ->
  map fst o' = map fst value.
Proof.
  induction keys as [|key r IH]; intros value w o' w' Hin H; cbn [run_keys] in H.
  - injection H as <- _. reflexivity.
  - assert (Hr : forall k, In k r -> In k (map fst value))
      by (intros k Hk; apply Hin; now right).
    destruct (lookup key calls) as [call|]; [|exact (IH value w o' w' Hr H)].
    unfold bind in H. destruct (call w) as [x' w1|e w1|]; try discriminate H.
    destruct (in_keys_lookup key value (Hin key (or_introl eq_refl))) as [v0 Hv0].
    pose proof (map_fst_assign key x' v0 value Hv0) as Hk.
    rewrite <- Hk. apply (IH _ w1 o' w'); [|exact H].
    intros k Hin'. rewrite Hk. now apply Hr.
Qed.

(** X27: resolution replaces values where they stand: when
    [traverseAndResolve] returns, a string that is not an alias comes back
    as it is; an array comes back as an array of the same length, its
    falsy elements untouched; an object comes back as an object with the
    same keys in the same order; [undefined], a boolean or a number comes
    back as it is, the state unchanged. *)
Theorem traverseAndResolve_keeps_shape (logger : Logger) (token : Token)
  (mode : string) (fuel : nat) (value : JS) (node : option Node)
  (expectedTypes : option (list JS)) (path : list string) (w w' : World)
  (v' : JS) :
  traverseAndResolve logger token mode fuel value node expectedTypes path w
  = Ret v' w' ->
  match value with
  | JStr s => isAlias (JStr s) = false -> v' = value
  | JArr l =>
      exists l',
        v' = JArr l' /\ List.length l' = List.length l
        /\ forall i x, nth_error l i = Some x -> truthy x = false ->
                       nth_error l' i = Some x
  | JObj o => exists o', v' = JObj o' /\ map fst o' = map fst o
  | _ => v' = value /\ w' = w
  end.
Proof.
  intros H. destruct value as [| |b|n|s|l|o]; cbn [traverseAndResolve] in H.
  - injection H as <- <-. now split.
  - discriminate H.
  - injection H as <- <-. now split.
  - injection H as <- <-. now split.
  - intros Ha. unfold resolveString in H. rewrite Ha in H. cbn [negb] in H.
    unfold bind in H.
    match type of H with
    | match ?c w with _ => _ end = _ => destruct (c w) as [u w1|e w1|]
    end; try discriminate H.
    now injection H as <- _.
  - unfold bind at 1 in H.
    match type of H with
    | match ?c w with _ => _ end = _ => destruct (c w) as [l' w1|e w1|] eqn:E
    end; try discriminate H.
    injection H as <- _. exists l'. split; [reflexivity|].
    revert E. generalize 0%nat. revert w l' w1.
    induction l as [|x r IH]; intros w l' w1 i E.
    + injection E as <- _. split; [reflexivity|]. intros [|j] y Hy; discriminate Hy.
    + unfold bind at 1 in E.
      match type of E with
      | match ?c w with _ => _ end = _ =>
          destruct (c w) as [x' w2|e w2|] eqn:Ex
      end; try discriminate E.
      unfold bind at 1 in E.
      match type of E with
      | match ?c w2 with _ => _ end = _ =>
          destruct (c w2) as [r' w3|e w3|] eqn:Er
      end; try discriminate E.
      injection E as <- _.
      destruct (IH _ _ _ _ Er) as [Hlen Hkeep].
      split; [simpl; now rewrite Hlen|].
      intros [|j] y Hy Hf; simpl in Hy |- *.
      * injection Hy as ->. rewrite Hf in Ex. cbn [negb] in Ex.
        now injection Ex as <- _.
      * now apply Hkeep.
  - destruct (slots_of expectedTypes) as [slots|].
    2:{ injection H as <- _. now exists o. }
    unfold bind at 1 in H.
    match type of H with
    | match ?c w with _ => _ end = _ => destruct (c w) as [o' w1|e w1|] eqn:E
    end; try discriminate H.
    injection H as <- _. exists o'. split; [reflexivity|].
    apply (run_keys_same_keys _ _ _ _ _ _ (fun key Hk =>
             proj1 (in_Object_keys key o) Hk) E).
Qed.

Lemma only_values_bind {A B} (c : M World A) (k : A -> M World B) :
  only_values c -> (forall a, only_values (k a)) -> only_values (bind c k).
Proof.
  intros Hc Hk w. unfold bind. specialize (Hc w).
  destruct (c w) as [a w'|e w'|]; auto.
  specialize (Hk a w'). unfold same_rest in *.
  destruct (k a w'); auto; congruence.
Qed.

Lemma only_values_for_of {A} (l : list A) (body : A -> M World unit) :
  (forall x, only_values (body x)) -> only_values (for_of l body).
Proof.
  intros Hb. induction l as [|x r IH]; cbn [for_of].
  - intros w. reflexivity.
  - apply only_values_bind; [apply Hb|intros _; exact IH].
Qed.

Lemma resolveMode_only_values logger token mode fuel key :
  only_values (resolveMode logger token mode fuel key).
Proof.
  intros w. unfold resolveMode.
  unfold bind at 1. unfold get at 1.
  unfold bind at 1. destruct (lookup key (tokens w)) as [tok|]; [|reflexivity].
  cbn [must ret].
  unfold bind at 1. destruct (lookup mode (t_mode tok)) as [state|];
    [|reflexivity].
  cbn [must ret].
  unfold bind at 1.
  pose proof (traverseAndResolve_keeps logger token mode fuel
                (m_value state) (aliasEntry_node token)
                (if truthy (t_type tok) then Some [t_type tok] else None)
                [t_jsonID tok; "$value"] w) as Ht.
  destruct (traverseAndResolve logger token mode fuel (m_value state) _ _ _ w)
    as [finalValue w1|e w1|]; [|unfold same_rest; now rewrite Ht|exact I].
  unfold bind at 1. unfold get at 1.
  unfold bind at 1. rewrite Ht.
  destruct (lookup key (tokens w)) as [tok1|] eqn:Ek;
    [|cbn [must throw]; unfold same_rest; now rewrite Ht].
  cbn [must ret].
  unfold bind at 1. destruct (lookup mode (t_mode tok1)) as [state1|] eqn:Es;
    [|cbn [must throw]; unfold same_rest; now rewrite Ht].
  cbn [must ret modify set_tokens_of tokens].
  rewrite Ht. unfold same_rest.
  apply (map_assign_same token_rest key _ tok1 (tokens w) Ek).
  assert (Hm : map (fun km => (fst km, mode_rest (snd km)))
                 (assign mode
                    (if truthy finalValue then set_m_value state1 finalValue
                     else state1) (t_mode tok1))
               = map (fun km => (fst km, mode_rest (snd km))) (t_mode tok1)).
  { apply (map_assign_same mode_rest mode _ state1 (t_mode tok1) Es).
    destruct (truthy finalValue); reflexivity. }
  unfold token_rest. destruct (String.eqb mode ".");
    cbn [set_value set_mode t_id t_type t_description t_deprecated t_extensions
           t_aliasChain t_aliasedBy t_aliasOf t_partialAliasOf t_dependencies
           t_group t_originalValue t_source t_jsonID t_mode];
    now rewrite Hm.
Qed.

(** X28: however it ends, [resolveAliases] leaves the token set with the
    same keys in the same order and, under each key, a token that differs
    at most in its [$value], at the root and in its modes (and in
    [$extensions], where the values of the modes come from): the alias
    fields, the original values, the sources, the types and the groups are
    those it had. *)
Theorem resolveAliases_only_sets_values (logger : Logger) (fuel : nat)
  (w : World) :
  match resolveAliases logger fuel w with
  | Ret _ w' | Throw _ w' => same_rest (tokens w) (tokens w')
  | OutOfFuel => True
  end.
Proof.
  revert w. change (only_values (resolveAliases logger fuel)).
  unfold resolveAliases.
  apply only_values_bind; [intros w; reflexivity|intros w0].
  apply only_values_for_of. intros kt.
  apply only_values_for_of. intros mode.
  apply resolveMode_only_values.
Qed.

Lemma traverseAndResolve_keeps_shape_witness :
  exists o',
    Shadow.value_of Shadow.run = JObj o'
    /\ map fst o' = map fst (evaluate_object Examples.shadow_value).
Proof.
  apply (traverseAndResolve_keeps_shape collecting
           (Examples.token_at "#/shadow1" Shadow.world) "." 10
           (evaluate Examples.shadow_value) (Some Examples.shadow_value)
           (Some [JStr "shadow"]) ["#/shadow1"; "$value"] Shadow.world
           (Samples.state_after Shadow.run Shadow.world)
           (Shadow.value_of Shadow.run)).
  vm_compute. reflexivity.
Defined.
